(** * biaozhu worker: job orchestration, shallow embedding

    The worker (apps/worker) keeps crawl and label jobs in a relational
    store, runs them as cooperatively scheduled async tasks and exposes
    pause/resume endpoints.  This development embeds the job store, the
    control surface, the boot-time recovery and the two execution loops
    (jobs/crawl.ts, jobs/label.ts), and proves properties of them.

    Async code is embedded as a labelled transition system: a task moves
    from one [await] to the next in one atomic step, as on the JS event
    loop, and the schedule (which task continues, which external request
    arrives) is the list of events. *)

From Stdlib Require Import ZArith QArith Qround String Ascii Lia OrderedTypeEx.
From stdpp Require Import base option list sorting strings gmap.

Local Open Scope string_scope.
Local Open Scope list_scope.
Local Open Scope Z_scope.

(** ** JavaScript values *)

(** A JS number: every finite double is a rational, and the code below only
    compares, takes min/max and truncates, which are exact. *)
Inductive jsnum :=
| NaN
| PosInf
| NegInf
| Fin (q : Q).

(** What [JSON.parse] returns. An object's fields are listed once per key. *)
#[local] Set Warnings "-register-all".
Inductive json :=
| JNull
| JBool (b : bool)
| JNum (n : jsnum)
| JStr (s : string)
| JArr (items : list json)
| JObj (fields : list (string * json)).

(** [assoc k fields]: the binding of key [k]. *)
Fixpoint assoc (k : string) (fields : list (string * json)) : option json :=
  match fields with
  | [] => None
  | (k', v) :: rest => if String.eqb k k' then Some v else assoc k rest
  end.

(** [o.k] for a key [k] that is neither an index nor a built-in property:
    [None] is [undefined]. Reading a property of [null] throws and is
    handled by the callers. *)
Definition get_prop (k : string) (o : json) : option json :=
  match o with
  | JObj fields => assoc k fields
  | _ => None
  end.

Definition Qzero (q : Q) : bool := Z.eqb (Qnum q) 0.

(** Truthiness of a number: [0], [-0] and [NaN] are falsy. *)
Definition truthy_num (n : jsnum) : bool :=
  match n with
  | NaN => false
  | Fin q => negb (Qzero q)
  | _ => true
  end.

(** Truthiness of a string: only the empty string is falsy. *)
Definition truthy_str (s : string) : bool :=
  match s with
  | EmptyString => false
  | _ => true
  end.

(** [a || b] on numbers. *)
Definition num_or (a b : jsnum) : jsnum := if truthy_num a then a else b.

Definition Math_min (a b : jsnum) : jsnum :=
  match a, b with
  | NaN, _ | _, NaN => NaN
  | NegInf, _ | _, NegInf => NegInf
  | PosInf, x | x, PosInf => x
  | Fin p, Fin q => if Qle_bool p q then Fin p else Fin q
  end.

Definition Math_max (a b : jsnum) : jsnum :=
  match a, b with
  | NaN, _ | _, NaN => NaN
  | PosInf, _ | _, PosInf => PosInf
  | NegInf, x | x, NegInf => x
  | Fin p, Fin q => if Qle_bool p q then Fin q else Fin p
  end.

(** [a < b] on numbers (false as soon as one side is [NaN]). *)
Definition num_lt (a b : jsnum) : bool :=
  match a, b with
  | NaN, _ | _, NaN => false
  | _, NegInf => false
  | NegInf, _ => true
  | PosInf, _ => false
  | _, PosInf => true
  | Fin p, Fin q => negb (Qle_bool q p)
  end.

(** [a >= b] on numbers. *)
Definition num_ge (a b : jsnum) : bool :=
  match a, b with
  | NaN, _ | _, NaN => false
  | _, NegInf => true
  | NegInf, _ => false
  | PosInf, _ => true
  | _, PosInf => false
  | Fin p, Fin q => Qle_bool q p
  end.

Definition num_of_nat (n : nat) : jsnum := Fin (inject_Z (Z.of_nat n)).

(** Truncation toward zero. *)
Definition Qtrunc (q : Q) : Z := Z.quot (Qnum q) (Zpos (Qden q)).

(** [ToLength], as [Array.from({ length: n })] reads its length. *)
Definition ToLength (n : jsnum) : Z :=
  match n with
  | NaN | NegInf => 0
  | PosInf => 2 ^ 53 - 1
  | Fin q => Z.min (Z.max 0 (Qtrunc q)) (2 ^ 53 - 1)
  end.

(** ** The relational store (db/types.ts, migrations/001_init.ts) *)

Inductive JobStatus := queued | running | paused | completed | failed.

Global Instance JobStatus_eq_dec : EqDecision JobStatus.
Proof. solve_decision. Defined.

(** [CrawlJobRow] and [LabelJobRow] have the same columns, except that the
    third counter is [discovered_count] in one and [total_count] in the
    other: one record serves both tables. The primary key [id] is the key
    of the table. *)
Module JobRow.
Record t := mk {
  status : JobStatus;
  created_at : string;
  started_at : option string;
  finished_at : option string;
  config_json : string;
  discovered_count : Z;
  processed_count : Z;
  failed_count : Z;
  last_error : option string;
}.
Definition total_count : t → Z := discovered_count.
End JobRow.

Module ModelRow.
Record t := mk {
  url : string;
  title : option string;
  author_name : option string;
  download_count : option jsnum;
  cover_image_url : option string;
  description : option string;
  created_at : string;
  updated_at : string;
}.
End ModelRow.

Inductive Grade := S_ | A_ | B_ | C_ | D_.

Module ModelLabelRow.
Record t := mk {
  grade : Grade;
  reason : string;
  extracted_json : string;
  updated_at : string;
}.
End ModelLabelRow.

(** [model_images] holds rows [(id, model_id, idx, url)]. Every writer
    deletes all rows of a model and inserts its urls with [idx] 0, 1, ...,
    and every reader orders by [idx]: the table is kept as the url list of
    each model. *)
Record Database := mkDb {
  crawl_jobs : gmap string JobRow.t;
  label_jobs : gmap string JobRow.t;
  models : gmap string ModelRow.t;
  model_images : gmap string (list string);
  model_labels : gmap string ModelLabelRow.t;
}.

Definition with_crawl_jobs (f : gmap string JobRow.t → gmap string JobRow.t) (db : Database) : Database :=
  mkDb (f (crawl_jobs db)) (label_jobs db) (models db) (model_images db) (model_labels db).

Definition with_label_jobs (f : gmap string JobRow.t → gmap string JobRow.t) (db : Database) : Database :=
  mkDb (crawl_jobs db) (f (label_jobs db)) (models db) (model_images db) (model_labels db).

Definition with_models (f : gmap string ModelRow.t → gmap string ModelRow.t) (db : Database) : Database :=
  mkDb (crawl_jobs db) (label_jobs db) (f (models db)) (model_images db) (model_labels db).

Definition with_model_images (f : gmap string (list string) → gmap string (list string)) (db : Database) : Database :=
  mkDb (crawl_jobs db) (label_jobs db) (models db) (f (model_images db)) (model_labels db).

Definition with_model_labels (f : gmap string ModelLabelRow.t → gmap string ModelLabelRow.t) (db : Database) : Database :=
  mkDb (crawl_jobs db) (label_jobs db) (models db) (model_images db) (f (model_labels db)).

(** *** Row updates, one per [.set({...})] of the source *)

(** [.set({ status })]: the pause and resume endpoints, and the recovery. *)
Definition set_status (st : JobStatus) (r : JobRow.t) : JobRow.t :=
  JobRow.mk st (JobRow.created_at r) (JobRow.started_at r) (JobRow.finished_at r)
    (JobRow.config_json r) (JobRow.discovered_count r) (JobRow.processed_count r)
    (JobRow.failed_count r) (JobRow.last_error r).

(** [updateStatus("running", { started_at: nowIso(), last_error: null })]. *)
Definition set_running (now : string) (r : JobRow.t) : JobRow.t :=
  JobRow.mk running (JobRow.created_at r) (Some now) (JobRow.finished_at r)
    (JobRow.config_json r) (JobRow.discovered_count r) (JobRow.processed_count r)
    (JobRow.failed_count r) None.

(** [updateStatus("completed", { finished_at: nowIso() })]. *)
Definition set_completed (now : string) (r : JobRow.t) : JobRow.t :=
  JobRow.mk completed (JobRow.created_at r) (JobRow.started_at r) (Some now)
    (JobRow.config_json r) (JobRow.discovered_count r) (JobRow.processed_count r)
    (JobRow.failed_count r) (JobRow.last_error r).

(** [updateStatus("failed", { finished_at: nowIso(), last_error: message })],
    and the [.set] of the clear-history update. *)
Definition set_failed (now message : string) (r : JobRow.t) : JobRow.t :=
  JobRow.mk failed (JobRow.created_at r) (JobRow.started_at r) (Some now)
    (JobRow.config_json r) (JobRow.discovered_count r) (JobRow.processed_count r)
    (JobRow.failed_count r) (Some message).

(** [.set({ processed_count: sql`processed_count + 1` })]. *)
Definition incr_processed (r : JobRow.t) : JobRow.t :=
  JobRow.mk (JobRow.status r) (JobRow.created_at r) (JobRow.started_at r) (JobRow.finished_at r)
    (JobRow.config_json r) (JobRow.discovered_count r) (JobRow.processed_count r + 1)
    (JobRow.failed_count r) (JobRow.last_error r).

(** [.set({ failed_count: sql`failed_count + 1`, last_error: message })]. *)
Definition incr_failed (message : string) (r : JobRow.t) : JobRow.t :=
  JobRow.mk (JobRow.status r) (JobRow.created_at r) (JobRow.started_at r) (JobRow.finished_at r)
    (JobRow.config_json r) (JobRow.discovered_count r) (JobRow.processed_count r)
    (JobRow.failed_count r + 1) (Some message).

(** [.set({ discovered_count: sql`discovered_count + ${n}` })]. *)
Definition add_discovered (n : Z) (r : JobRow.t) : JobRow.t :=
  JobRow.mk (JobRow.status r) (JobRow.created_at r) (JobRow.started_at r) (JobRow.finished_at r)
    (JobRow.config_json r) (JobRow.discovered_count r + n) (JobRow.processed_count r)
    (JobRow.failed_count r) (JobRow.last_error r).

(** [.set({ total_count: n })]. *)
Definition set_total (n : Z) (r : JobRow.t) : JobRow.t :=
  JobRow.mk (JobRow.status r) (JobRow.created_at r) (JobRow.started_at r) (JobRow.finished_at r)
    (JobRow.config_json r) n (JobRow.processed_count r)
    (JobRow.failed_count r) (JobRow.last_error r).

(** [UPDATE t SET ... WHERE id = jobId]: no row, no change. *)
Definition update_job (jobId : string) (f : JobRow.t → JobRow.t)
    (t : gmap string JobRow.t) : gmap string JobRow.t :=
  alter f jobId t.

(** [UPDATE t SET ... WHERE finished_at IS NULL]. *)
Definition update_unfinished (f : JobRow.t → JobRow.t)
    (t : gmap string JobRow.t) : gmap string JobRow.t :=
  (λ r, if bool_decide (JobRow.finished_at r = None) then f r else r) <$> t.

(** [ORDER BY created_at DESC LIMIT 1] over the rows of a scan: a row whose
    [created_at] no other row exceeds (text columns compare as strings). *)
Fixpoint latest (rows : list (string * JobRow.t)) : option (string * JobRow.t) :=
  match rows with
  | [] => None
  | x :: rest =>
      match latest rest with
      | None => Some x
      | Some y =>
          if String.ltb (JobRow.created_at x.2) (JobRow.created_at y.2)
          then Some y else Some x
      end
  end.

(** ** Collaborators

    What the code calls and this repository does not define: built-ins of
    the language and the two external services. *)
Module ScrapedModel.
Record t := mk {
  id : string;
  url : string;
  title : option string;
  authorName : option string;
  downloadCount : option jsnum;
  imageUrls : list string;
  description : option string;
}.
End ScrapedModel.

Module LabelResult.
Record t := mk {
  grade : Grade;
  reason : string;
  extracted : string;
}.
End LabelResult.

Module QueueItem.
Record t := mk {
  id : string;
  url : string;
}.
End QueueItem.

(** The local type [Discovered]; an absent optional field is [None], as
    after [?? null]. *)
Module Discovered.
Record t := mk {
  id : string;
  url : string;
  cover_image_url : option string;
  title : option string;
  author_name : option string;
}.
End Discovered.

(** A call that may throw: [inl message] is [throw new Error(message)]. *)
Definition result (A : Type) : Type := string + A.

(** What the database makes of the value bound to the [LIMIT ?] of a
    query: no upper bound, at most [n] rows, or an error with its message. *)
Inductive Limit :=
| Unbounded
| AtMost (n : nat)
| Refused (message : string).

Class Env := {
  (** [JSON.parse]; [None] when it throws a SyntaxError. *)
  JSON_parse : string → option json;
  (** [Number(s)] for a string. *)
  StringToNumber : string → jsnum;
  (** [Number(o)] for an array or an object. *)
  ObjectToNumber : json → jsnum;
  (** The Page Extractor on a model url, in an open browser context. *)
  scrapeModelPageInContext : string → result ScrapedModel.t;
  (** The Labeling Service on image urls and a model url; the record's
      [extracted] is already the [JSON.stringify] of its feature set. *)
  labelWithOpenAI : list string → string → result LabelResult.t;
  (** The list page: whether the first 1200 characters of its text show a
      challenge marker ("Cloudflare" or the human-check notice), and what
      the in-page script returns at scroll iteration [i]. *)
  listSample_blocked : bool;
  page_evaluate : nat → list Discovered.t;
  (** The database, on a value bound to [LIMIT ?] that is not a positive
      integer: a negative or fractional number, a text, a boolean, an
      array or an object. The code does not say what becomes of these:
      the dialects differ (SQLite lifts the bound for a negative integer
      and converts a text that reads as an integer, PostgreSQL refuses a
      negative number). *)
  bound_limit : json → Limit;
}.

(** [Number(v)], where [None] is [undefined]. *)
Definition Number `{Env} (v : option json) : jsnum :=
  match v with
  | None => NaN
  | Some JNull => Fin 0
  | Some (JBool b) => Fin (if b then 1 else 0)
  | Some (JNum n) => n
  | Some (JStr s) => StringToNumber s
  | Some o => ObjectToNumber o
  end.

(** ** Crawl job configuration (jobs/crawl.ts) *)

(** [JSON.parse(job.config_json) as CrawlJobConfig]: the cast checks
    nothing. The numeric fields are kept as the numbers the comparisons of
    the code coerce them to; [concurrency] is kept as stored, since the
    code coerces it itself. *)
Record CrawlJobConfig := mkConfig {
  startUrl : option json;
  limitModels : jsnum;
  maxScrolls : jsnum;
  concurrency : option json;
  delayMs : jsnum;
  cookieHeader : option json;
}.

Definition asCrawlJobConfig `{Env} (parsed : json) : CrawlJobConfig :=
  mkConfig (get_prop "startUrl" parsed)
    (Number (get_prop "limitModels" parsed))
    (Number (get_prop "maxScrolls" parsed))
    (get_prop "concurrency" parsed)
    (Number (get_prop "delayMs" parsed))
    (get_prop "cookieHeader" parsed).

(** [Math.max(1, Math.min(5, Number(config.concurrency) || 1))]. *)
Definition concurrency_of `{Env} (c : option json) : jsnum :=
  Math_max (Fin 1) (Math_min (Fin 5) (num_or (Number c) (Fin 1))).

(** The number of [worker()] calls of
    [Array.from({ length: concurrency }, () => worker())]. *)
Definition spawned `{Env} (c : option json) : nat :=
  Z.to_nat (ToLength (concurrency_of c)).

(** ** Browser context (crawler/makerworld.ts) *)

(** What [createContext] sets up: the only part that depends on its
    argument is the extra [cookie] header. *)
Record BrowserContext := mkContext {
  cookie : option string;
}.

(** [if (options?.cookieHeader) await context.setExtraHTTPHeaders(...)]. *)
Definition createContext (cookieHeader : option string) : BrowserContext :=
  match cookieHeader with
  | Some c => if truthy_str c then mkContext (Some c) else mkContext None
  | None => mkContext None
  end.

(** ** Control surface and recovery (the worker's index.ts) *)

(** Timers armed by [setTimeout]: which loop runs, on which job, after how
    many milliseconds. *)
Inductive Timer :=
| RunCrawlJob (jobId : string) (delay : Z)
| RunLabelJob (jobId : string) (delay : Z).

Definition new_job (now config : string) : JobRow.t :=
  JobRow.mk queued now None None config 0 0 0 None.

(** The [clearHistory] block of POST /api/crawl-jobs and
    POST /api/import-models. *)
Definition clearHistory (now message : string) (db : Database) : Database :=
  mkDb (update_unfinished (set_failed now message) (crawl_jobs db))
       (update_unfinished (set_failed now message) (label_jobs db))
       ∅ ∅ ∅.

(** POST /api/crawl-jobs, after validation: [id] is the fresh [randomId]. *)
Definition post_crawl_job (id now config : string) (clear : bool)
    (db : Database) : Database * list Timer :=
  let db1 := if clear then clearHistory now "CLEARED_BY_NEW_CRAWL" db else db in
  (with_crawl_jobs (insert id (new_job now config)) db1, [RunCrawlJob id 50]).

(** POST /api/label-jobs. *)
Definition post_label_job (id now config : string)
    (db : Database) : Database * list Timer :=
  (with_label_jobs (insert id (new_job now config)) db, [RunLabelJob id 50]).

(** POST /api/crawl-jobs/:id/pause and /resume. *)
Definition pause_crawl_job (id : string) : Database → Database :=
  with_crawl_jobs (update_job id (set_status paused)).

Definition resume_crawl_job (id : string) : Database → Database :=
  with_crawl_jobs (update_job id (set_status running)).

(** POST /api/label-jobs/:id/pause and /resume. *)
Definition pause_label_job (id : string) : Database → Database :=
  with_label_jobs (update_job id (set_status paused)).

Definition resume_label_job (id : string) : Database → Database :=
  with_label_jobs (update_job id (set_status running)).

(** [.where("finished_at", "is", null)
     .where("status", "in", ["queued", "running"])]. *)
Definition resumable (r : JobRow.t) : bool :=
  bool_decide (JobRow.finished_at r = None) &&
  bool_decide (JobRow.status r = queued ∨ JobRow.status r = running).

(** The job the recovery picks in one table. *)
Definition select_resumable (t : gmap string JobRow.t) : option (string * JobRow.t) :=
  latest (filter (λ kr, resumable kr.2 = true) (map_to_list t)).

(** [resume], run once when the server starts listening. *)
Definition resume (db : Database) : Database * list Timer :=
  let '(db1, timers1) :=
    match select_resumable (crawl_jobs db) with
    | Some (id, _) =>
        (with_crawl_jobs (update_job id (set_status queued)) db, [RunCrawlJob id 200])
    | None => (db, [])
    end in
  match select_resumable (label_jobs db1) with
  | Some (id, _) =>
      (with_label_jobs (update_job id (set_status queued)) db1, timers1 ++ [RunLabelJob id 200])
  | None => (db1, timers1)
  end.

(** ** Label job: session credentials (jobs/label.ts, lines 29-39) *)

(** [db.selectFrom("crawl_jobs").select(["config_json"])
      .orderBy("created_at", "desc").limit(1)]. *)
Definition latestCrawl (db : Database) : option string :=
  JobRow.config_json <$> (snd <$> latest (map_to_list (crawl_jobs db))).

(** The [cookieHeader] of the label run; [None] is [undefined]. *)
Definition label_cookieHeader `{Env} (db : Database) : option string :=
  match latestCrawl db with
  | Some config_json =>
      match JSON_parse config_json with
      | Some parsed =>
          match get_prop "cookieHeader" parsed with
          | Some (JStr s) => Some s
          | _ => None
          end
      | None => None
      end
  | None => None
  end.

(** [LabelJobConfig]: the only field is the optional cap. *)
Record LabelJobConfig := mkLabelConfig {
  limit : option json;
}.

Definition asLabelJobConfig (parsed : json) : LabelJobConfig :=
  mkLabelConfig (get_prop "limit" parsed).

(** ** Crawl run (jobs/crawl.ts) *)

Definition truthy_opt (o : option string) : bool :=
  match o with
  | Some s => truthy_str s
  | None => false
  end.

(** [COALESCE(excluded.c, c)]. *)
Definition COALESCE {A} (excluded current : option A) : option A :=
  match excluded with
  | Some v => Some v
  | None => current
  end.

(** One row of the [INSERT INTO models ... ON CONFLICT (id) DO UPDATE] of
    [persistDiscovered]. *)
Definition upsert_discovered (now : string) (it : Discovered.t)
    (t : gmap string ModelRow.t) : gmap string ModelRow.t :=
  match t !! Discovered.id it with
  | None =>
      <[Discovered.id it :=
          ModelRow.mk (Discovered.url it) (Discovered.title it) (Discovered.author_name it)
            None (Discovered.cover_image_url it) None now now]> t
  | Some old =>
      <[Discovered.id it :=
          ModelRow.mk (Discovered.url it)
            (COALESCE (Discovered.title it) (ModelRow.title old))
            (COALESCE (Discovered.author_name it) (ModelRow.author_name old))
            (ModelRow.download_count old)
            (COALESCE (Discovered.cover_image_url it) (ModelRow.cover_image_url old))
            (ModelRow.description old)
            (ModelRow.created_at old) now]> t
  end.

(** [persistDiscovered]: the rows are written in order. *)
Definition persistDiscovered (now : string) (items : list Discovered.t)
    (db : Database) : Database :=
  with_models (λ t, foldl (λ t it, upsert_discovered now it t) t items) db.

(** The loop over [domItems] of the discovery (lines 342-352): returns
    the grown identity set, [newItems] and [enrichItems]. *)
Fixpoint split_domItems (limit : jsnum) (domItems : list Discovered.t)
    (ids : gset string) (newItems enrichItems : list Discovered.t)
    : gset string * list Discovered.t * list Discovered.t :=
  match domItems with
  | [] => (ids, newItems, enrichItems)
  | it :: rest =>
      if decide (Discovered.id it ∈ ids) then
        if truthy_opt (Discovered.cover_image_url it) || truthy_opt (Discovered.title it)
           || truthy_opt (Discovered.author_name it)
        then split_domItems limit rest ids newItems (enrichItems ++ [it])
        else split_domItems limit rest ids newItems enrichItems
      else if num_ge (num_of_nat (size ids)) limit then (ids, newItems, enrichItems)
      else split_domItems limit rest ({[Discovered.id it]} ∪ ids) (newItems ++ [it]) enrichItems
  end.

(** What the two regular expressions of [addFromText] find in a response
    body: the successive matches of [re], each through
    [extractModelIdAndUrl], and the trimmed [id] and [img] groups of the
    successive matches of [re2] with the outcome of [/makerworld/i.test(img)]. *)
Record TextScan := mkScan {
  re_hits : list (option QueueItem.t);
  re2_hits : list (string * string * bool);
}.

(** First loop of [addFromText]. *)
Fixpoint addFromText_re (limit : jsnum) (hits : list (option QueueItem.t))
    (ids : gset string) (newItems : list Discovered.t)
    : gset string * list Discovered.t :=
  match hits with
  | [] => (ids, newItems)
  | None :: rest => addFromText_re limit rest ids newItems
  | Some found :: rest =>
      if decide (QueueItem.id found ∈ ids) then addFromText_re limit rest ids newItems
      else if num_ge (num_of_nat (size ids)) limit then (ids, newItems)
      else addFromText_re limit rest ({[QueueItem.id found]} ∪ ids)
             (newItems ++ [Discovered.mk (QueueItem.id found) (QueueItem.url found) None None None])
  end.

(** Second loop of [addFromText], entered when fewer than 20 items were
    found; [cnt] counts the items it adds. *)
Fixpoint addFromText_re2 (limit : jsnum) (hits : list (string * string * bool))
    (ids : gset string) (newItems : list Discovered.t) (cnt : nat)
    : gset string * list Discovered.t :=
  match hits with
  | [] => (ids, newItems)
  | (id, img, makerworld) :: rest =>
      if negb (truthy_str id) || negb (truthy_str img) then addFromText_re2 limit rest ids newItems cnt
      else if negb makerworld then addFromText_re2 limit rest ids newItems cnt
      else if decide (id ∈ ids) then addFromText_re2 limit rest ids newItems cnt
      else if num_ge (num_of_nat (size ids)) limit then (ids, newItems)
      else
        let ids' := {[id]} ∪ ids in
        let newItems' :=
          newItems ++ [Discovered.mk id ("https://makerworld.com/zh/models/" ++ id)%string
                         (Some img) None None] in
        if decide (200 ≤ S cnt)%nat then (ids', newItems')
        else addFromText_re2 limit rest ids' newItems' (S cnt)
  end.

Definition addFromText (limit : jsnum) (text : TextScan) (ids : gset string)
    : gset string * list Discovered.t :=
  let '(ids1, newItems) := addFromText_re limit (re_hits text) ids [] in
  if decide (length newItems < 20)%nat
  then addFromText_re2 limit (re2_hits text) ids1 newItems 0
  else (ids1, newItems).

(** Where a [worker()] call stands: the [await] it is suspended at. *)
Inductive WorkerPc :=
| WPoll                               (* waitIfPausedOrCancelled: the status query *)
| WGetNext                            (* getNext: head of its loop *)
| WBlocked                            (* getNext: await new Promise(r => wake = r) *)
| WScrape (d : QueueItem.t)           (* scrapeModelPageInContext *)
| WUpdateModel (sc : ScrapedModel.t)  (* UPDATE models *)
| WDeleteImages (sc : ScrapedModel.t) (* DELETE FROM model_images *)
| WInsertImages (sc : ScrapedModel.t) (* INSERT INTO model_images *)
| WCount                              (* processed_count + 1 *)
| WMarkFailed (message : string)      (* updateStatus("failed", ...) *)
| WCountFailed (message : string)     (* failed_count + 1 *)
| WDelay (again : bool)               (* finally: the inter-item delay *)
| WReturned                           (* the promise is fulfilled *)
| WRejected (message : string).       (* the promise is rejected *)

(** How the inner [try] of [runCrawlJob] is left. *)
Inductive Exit :=
| Return
| Throw (message : string).

(** Where [runCrawlJob] itself stands. *)
Inductive MainPc :=
| MSelectJob                          (* line 17 *)
| MSetRunning                         (* line 30 *)
| MCreateContext                      (* line 33 *)
| MNewPage                            (* line 176 *)
| MGoto                               (* line 238 *)
| MSettle                             (* line 239 *)
| MSample                             (* line 240 *)
| MMarkBlocked                        (* line 242 *)
| MLoopPoll (i : nat)                 (* line 247 *)
| MEvaluate (i : nat)                 (* line 249 *)
| MPersistEnrich (i : nat) (enrichItems newItems : list Discovered.t)  (* line 355 *)
| MPersistNew (i : nat) (newItems : list Discovered.t)                 (* line 360 *)
| MCountNew (i : nat) (n : nat)       (* line 361 *)
| MWheel (i : nat)                    (* line 369 *)
| MScrollWait (i : nat)               (* line 370 *)
| MClosePage                          (* line 381 *)
| MAwaitWorkers                       (* line 383 *)
| MSetCompleted                       (* line 385 *)
| MFinally (e : Exit)                 (* lines 387-388 *)
| MMarkError (message : string)       (* line 394 *)
| MDone                               (* the promise is fulfilled *)
| MRejected.                          (* the promise is rejected (lines 17-20) *)

(** Where a call of [onResponse] stands. *)
Inductive HandlerPc :=
| HRead (text : TextScan)             (* resp.headers(), resp.text() *)
| HPersist (items : list Discovered.t)
| HCount (n : nat)
| HDone.

Record State := mkState {
  db : Database;
  now : string;                       (* what nowIso() returns *)
  config : json;                      (* JSON.parse(job.config_json) *)
  discoveredIds : gset string;
  queue : list QueueItem.t;
  queueIndex : nat;
  discoveryDone : bool;
  wake : option nat;                  (* the resolver of worker i's promise *)
  workers : list WorkerPc;
  main : MainPc;
  listening : bool;                   (* listPage.on("response", onResponse) *)
  handlers : list HandlerPc;
}.

Definition set_db (f : Database → Database) (s : State) : State :=
  mkState (f (db s)) (now s) (config s) (discoveredIds s) (queue s) (queueIndex s)
    (discoveryDone s) (wake s) (workers s) (main s) (listening s) (handlers s).

Definition set_now (t : string) (s : State) : State :=
  mkState (db s) t (config s) (discoveredIds s) (queue s) (queueIndex s)
    (discoveryDone s) (wake s) (workers s) (main s) (listening s) (handlers s).

Definition set_config (c : json) (s : State) : State :=
  mkState (db s) (now s) c (discoveredIds s) (queue s) (queueIndex s)
    (discoveryDone s) (wake s) (workers s) (main s) (listening s) (handlers s).

Definition set_discoveredIds (ids : gset string) (s : State) : State :=
  mkState (db s) (now s) (config s) ids (queue s) (queueIndex s)
    (discoveryDone s) (wake s) (workers s) (main s) (listening s) (handlers s).

Definition set_queue (q : list QueueItem.t) (s : State) : State :=
  mkState (db s) (now s) (config s) (discoveredIds s) q (queueIndex s)
    (discoveryDone s) (wake s) (workers s) (main s) (listening s) (handlers s).

Definition set_queueIndex (n : nat) (s : State) : State :=
  mkState (db s) (now s) (config s) (discoveredIds s) (queue s) n
    (discoveryDone s) (wake s) (workers s) (main s) (listening s) (handlers s).

Definition set_discoveryDone (b : bool) (s : State) : State :=
  mkState (db s) (now s) (config s) (discoveredIds s) (queue s) (queueIndex s)
    b (wake s) (workers s) (main s) (listening s) (handlers s).

Definition set_wake (w : option nat) (s : State) : State :=
  mkState (db s) (now s) (config s) (discoveredIds s) (queue s) (queueIndex s)
    (discoveryDone s) w (workers s) (main s) (listening s) (handlers s).

Definition set_workers (ws : list WorkerPc) (s : State) : State :=
  mkState (db s) (now s) (config s) (discoveredIds s) (queue s) (queueIndex s)
    (discoveryDone s) (wake s) ws (main s) (listening s) (handlers s).

Definition set_worker (i : nat) (pc : WorkerPc) (s : State) : State :=
  set_workers (<[i := pc]> (workers s)) s.

Definition set_main (pc : MainPc) (s : State) : State :=
  mkState (db s) (now s) (config s) (discoveredIds s) (queue s) (queueIndex s)
    (discoveryDone s) (wake s) (workers s) pc (listening s) (handlers s).

Definition set_listening (b : bool) (s : State) : State :=
  mkState (db s) (now s) (config s) (discoveredIds s) (queue s) (queueIndex s)
    (discoveryDone s) (wake s) (workers s) (main s) b (handlers s).

Definition set_handlers (hs : list HandlerPc) (s : State) : State :=
  mkState (db s) (now s) (config s) (discoveredIds s) (queue s) (queueIndex s)
    (discoveryDone s) (wake s) (workers s) (main s) (listening s) hs.

(** What one round of [waitIfPausedOrCancelled] finds. *)
Inductive Poll := Proceed | Sleep | Cancelled.

Definition poll (row : option JobRow.t) : Poll :=
  match row with
  | None => Cancelled
  | Some r =>
      match JobRow.status r with
      | paused => Sleep
      | running => Proceed
      | _ => Cancelled
      end
  end.

Definition JOB_CANCELLED : string := "JOB_CANCELLED".
Definition CLOUDFLARE_BLOCKED : string := "CLOUDFLARE_BLOCKED".

(** [if (wake) { const fn = wake; wake = null; fn(); }]: the worker whose
    promise [fn] resolves goes back to the head of [getNext]'s loop. *)
Definition call_wake (s : State) : State :=
  match wake s with
  | Some i =>
      match workers s !! i with
      | Some WBlocked => set_wake None (set_worker i WGetNext s)
      | _ => set_wake None s
      end
  | None => s
  end.

(** [push]. *)
Definition push (items : list Discovered.t) (s : State) : State :=
  match items with
  | [] => s
  | _ =>
      call_wake
        (set_queue
           (queue s ++ map (λ it, QueueItem.mk (Discovered.id it) (Discovered.url it)) items) s)
  end.

Section crawl.
Context `{Env} (jobId : string).

Definition cfg (s : State) : CrawlJobConfig := asCrawlJobConfig (config s).

Definition job (s : State) : option JobRow.t := crawl_jobs (db s) !! jobId.

Definition update_crawl_job (f : JobRow.t → JobRow.t) : State → State :=
  set_db (with_crawl_jobs (update_job jobId f)).

(** After an item: the delay of the [finally] when [delayMs > 0], then the
    next round of the loop ([again]) or the return. *)
Definition after_item (again : bool) (s : State) : WorkerPc :=
  if num_lt (Fin 0) (delayMs (cfg s)) then WDelay again
  else if again then WPoll else WReturned.

(** [worker()] number [i] runs from the [await] it is suspended at to the
    next one. While the job is paused, the poll sleeps a second and polls
    again: the worker stays at [WPoll]. *)
Definition worker_step (i : nat) (s : State) : option State :=
  match workers s !! i with
  | None => None
  | Some pc =>
      match pc with
      | WPoll =>
          match poll (job s) with
          | Proceed => Some (set_worker i WGetNext s)
          | Sleep => Some s
          | Cancelled => Some (set_worker i (WRejected JOB_CANCELLED) s)
          end
      | WGetNext =>
          match queue s !! queueIndex s with
          | Some v => Some (set_worker i (WScrape v) (set_queueIndex (S (queueIndex s)) s))
          | None =>
              if discoveryDone s then Some (set_worker i WReturned s)
              else Some (set_worker i WBlocked (set_wake (Some i) s))
          end
      | WBlocked => None
      | WScrape d =>
          match scrapeModelPageInContext (QueueItem.url d) with
          | inr scraped => Some (set_worker i (WUpdateModel scraped) s)
          | inl message =>
              if String.eqb message CLOUDFLARE_BLOCKED
              then Some (set_worker i (WMarkFailed message) s)
              else Some (set_worker i (WCountFailed message) s)
          end
      | WUpdateModel sc =>
          Some (set_worker i (WDeleteImages sc)
                  (set_db (with_models (alter (λ old,
                     ModelRow.mk (ScrapedModel.url sc) (ScrapedModel.title sc)
                       (ScrapedModel.authorName sc) (ScrapedModel.downloadCount sc)
                       (head (ScrapedModel.imageUrls sc)) (ScrapedModel.description sc)
                       (ModelRow.created_at old) (now s)) (ScrapedModel.id sc))) s))
      | WDeleteImages sc =>
          Some (set_worker i
                  (match ScrapedModel.imageUrls sc with
                   | [] => WCount
                   | _ => WInsertImages sc
                   end)
                  (set_db (with_model_images (delete (ScrapedModel.id sc))) s))
      | WInsertImages sc =>
          Some (set_worker i WCount
                  (set_db (with_model_images
                             (insert (ScrapedModel.id sc) (ScrapedModel.imageUrls sc))) s))
      | WCount =>
          Some (set_worker i (after_item true s) (update_crawl_job incr_processed s))
      | WMarkFailed message =>
          Some (set_worker i (after_item false s)
                  (update_crawl_job (set_failed (now s) message) s))
      | WCountFailed message =>
          Some (set_worker i (after_item true s) (update_crawl_job (incr_failed message) s))
      | WDelay again => Some (set_worker i (if again then WPoll else WReturned) s)
      | WReturned => None
      | WRejected _ => None
      end
  end.

(** Lines 373-381: end of input. *)
Definition finish_discovery (s : State) : State :=
  set_main MClosePage (set_listening false (call_wake (set_discoveryDone true s))).

(** Head of the [for] loop of the discovery. *)
Definition loop_head (i : nat) (s : State) : State :=
  if num_lt (num_of_nat i) (maxScrolls (cfg s)) then set_main (MLoopPoll i) s
  else finish_discovery s.

(** Lines 368-370. *)
Definition after_new (i : nat) (s : State) : State :=
  if num_ge (num_of_nat (size (discoveredIds s))) (limitModels (cfg s))
  then finish_discovery s
  else set_main (MWheel i) s.

(** Lines 358-366. *)
Definition after_enrich (i : nat) (newItems : list Discovered.t) (s : State) : State :=
  match newItems with
  | [] => after_new i s
  | _ => set_main (MPersistNew i newItems) (push newItems s)
  end.

(** The [catch] of line 391. *)
Definition catch (message : string) (s : State) : State :=
  if String.eqb message JOB_CANCELLED then set_main MDone s
  else set_main (MMarkError message) s.

Definition is_rejected (pc : WorkerPc) : bool :=
  match pc with WRejected _ => true | _ => false end.

Definition is_returned (pc : WorkerPc) : bool :=
  match pc with WReturned => true | _ => false end.

(** What V8 reports when property [k] of [null] is read. *)
Definition TypeError_null (k : string) : string :=
  ("Cannot read properties of null (reading '" ++ k ++ "')")%string.

(** [runCrawlJob] runs from the [await] it is suspended at to the next. *)
Definition main_step (s : State) : option State :=
  match main s with
  | MSelectJob =>
      match job s with
      | None => Some (set_main MRejected s)
      | Some r =>
          match JSON_parse (JobRow.config_json r) with
          | None => Some (set_main MRejected s)
          | Some parsed => Some (set_main MSetRunning (set_config parsed s))
          end
      end
  | MSetRunning =>
      let s1 := update_crawl_job (set_running (now s)) s in
      match config s with
      | JNull => Some (catch (TypeError_null "cookieHeader") s1)
      | _ => Some (set_main MCreateContext s1)
      end
  | MCreateContext =>
      Some (set_main MNewPage
              (set_workers (replicate (spawned (concurrency (cfg s))) WPoll) s))
  | MNewPage => Some (set_main MGoto (set_listening true s))
  | MGoto => Some (set_main MSettle s)
  | MSettle => Some (set_main MSample s)
  | MSample =>
      if listSample_blocked then Some (set_main MMarkBlocked s)
      else Some (loop_head 0 s)
  | MMarkBlocked =>
      Some (set_main (MFinally Return)
              (update_crawl_job (set_failed (now s) CLOUDFLARE_BLOCKED) s))
  | MLoopPoll i =>
      match poll (job s) with
      | Proceed => Some (set_main (MEvaluate i) s)
      | Sleep => Some s
      | Cancelled => Some (set_main (MFinally (Throw JOB_CANCELLED)) s)
      end
  | MEvaluate i =>
      let '(ids, newItems, enrichItems) :=
        split_domItems (limitModels (cfg s)) (page_evaluate i) (discoveredIds s) [] [] in
      let s1 := set_discoveredIds ids s in
      match enrichItems with
      | [] => Some (after_enrich i newItems s1)
      | _ => Some (set_main (MPersistEnrich i enrichItems newItems) s1)
      end
  | MPersistEnrich i enrichItems newItems =>
      Some (after_enrich i newItems (set_db (persistDiscovered (now s) enrichItems) s))
  | MPersistNew i newItems =>
      Some (set_main (MCountNew i (length newItems))
              (set_db (persistDiscovered (now s) newItems) s))
  | MCountNew i n =>
      Some (after_new i (update_crawl_job (add_discovered (Z.of_nat n)) s))
  | MWheel i => Some (set_main (MScrollWait i) s)
  | MScrollWait i => Some (loop_head (S i) s)
  | MClosePage => Some (set_main MAwaitWorkers s)
  | MAwaitWorkers =>
      if existsb is_rejected (workers s)
      then Some (set_main (MFinally (Throw JOB_CANCELLED)) s)
      else if forallb is_returned (workers s) then Some (set_main MSetCompleted s)
      else None
  | MSetCompleted =>
      Some (set_main (MFinally Return) (update_crawl_job (set_completed (now s)) s))
  | MFinally Return => Some (set_main MDone s)
  | MFinally (Throw message) => Some (catch message s)
  | MMarkError message =>
      Some (set_main MDone (update_crawl_job (set_failed (now s) message) s))
  | MDone => None
  | MRejected => None
  end.

(** A browser call awaited by [runCrawlJob] rejects with [message]. *)
Definition main_throws (message : string) (s : State) : option State :=
  match main s with
  | MCreateContext => Some (catch message s)
  | MNewPage | MGoto | MSettle | MEvaluate _ | MWheel _ | MScrollWait _ | MClosePage =>
      Some (set_main (MFinally (Throw message)) s)
  | _ => None
  end.

(** A response arrives on the list page: [onResponse] starts, up to its
    first [await]. *)
Definition on_response (text : TextScan) (s : State) : option State :=
  if listening s then
    if num_ge (num_of_nat (size (discoveredIds s))) (limitModels (cfg s)) then Some s
    else Some (set_handlers (handlers s ++ [HRead text]) s)
  else None.

(** Call number [k] of [onResponse] continues. *)
Definition handler_step (k : nat) (s : State) : option State :=
  match handlers s !! k with
  | None => None
  | Some pc =>
      match pc with
      | HRead text =>
          let '(ids, items) := addFromText (limitModels (cfg s)) text (discoveredIds s) in
          let s1 := set_discoveredIds ids s in
          match items with
          | [] => Some (set_handlers (<[k := HDone]> (handlers s)) s1)
          | _ => Some (set_handlers (<[k := HPersist items]> (handlers s)) (push items s1))
          end
      | HPersist items =>
          Some (set_handlers (<[k := HCount (length items)]> (handlers s))
                  (set_db (persistDiscovered (now s) items) s))
      | HCount n =>
          Some (set_handlers (<[k := HDone]> (handlers s))
                  (update_crawl_job (add_discovered (Z.of_nat n)) s))
      | HDone => None
      end
  end.

(** What can happen next: a task of the run continues, or the world
    outside the run acts on the store. *)
Inductive Event :=
| Main                                (* runCrawlJob continues *)
| MainThrows (message : string)       (* runCrawlJob's awaited browser call rejects *)
| Worker (i : nat)                    (* worker i continues *)
| Response (text : TextScan)          (* the list page receives a response *)
| Handler (k : nat)                   (* onResponse call k continues *)
| Tick (t : string)                   (* the clock moves to t *)
| PauseRequest                        (* POST /api/crawl-jobs/:id/pause on this job *)
| ResumeRequest                       (* POST /api/crawl-jobs/:id/resume on this job *)
| ClearRequest (message : string)     (* the clearHistory block of a new crawl or import *)
| RowDeleted.                         (* the job's row is removed from outside *)

Definition step (e : Event) (s : State) : option State :=
  match e with
  | Main => main_step s
  | MainThrows message => main_throws message s
  | Worker i => worker_step i s
  | Response text => on_response text s
  | Handler k => handler_step k s
  | Tick t => Some (set_now t s)
  | PauseRequest => Some (set_db (pause_crawl_job jobId) s)
  | ResumeRequest => Some (set_db (resume_crawl_job jobId) s)
  | ClearRequest message => Some (set_db (clearHistory (now s) message) s)
  | RowDeleted => Some (set_db (with_crawl_jobs (delete jobId)) s)
  end.

(** A schedule, run from a state; [None] when an event is not enabled. *)
Fixpoint run (es : list Event) (s : State) : option State :=
  match es with
  | [] => Some s
  | e :: rest =>
      match step e s with
      | Some s' => run rest s'
      | None => None
      end
  end.

(** [runCrawlJob(db, jobId)] is called. *)
Definition start (d : Database) (t : string) : State :=
  mkState d t JNull ∅ [] 0 false None [] MSelectJob false [].

End crawl.

(** ** Label run (jobs/label.ts) *)

(** A row of the candidate query. *)
Module Candidate.
Record t := mk {
  id : string;
  url : string;
  title : option string;
  description : option string;
  cover_image_url : option string;
}.
End Candidate.

(** Truthiness of a JSON value. *)
Definition truthy (v : option json) : bool :=
  match v with
  | None | Some JNull => false
  | Some (JBool b) => b
  | Some (JNum n) => truthy_num n
  | Some (JStr s) => truthy_str s
  | Some _ => true
  end.

(** [ORDER BY models.updated_at DESC]. *)
Definition updated_desc (a b : string * ModelRow.t) : Prop :=
  String.leb (ModelRow.updated_at b.2) (ModelRow.updated_at a.2) = true.

Global Instance updated_desc_dec a b : Decision (updated_desc a b).
Proof. unfold updated_desc. apply _. Defined.

(** Line 55: [config.limit ? baseQuery.limit(config.limit) : baseQuery].
    A falsy limit (null, missing, 0) leaves the query without a [LIMIT];
    a truthy one is bound to [LIMIT ?] as it is. The endpoint stores an
    integer from 1 to 50000, or null; a positive integer caps the rows,
    anything else is for the database to accept or to refuse. *)
Definition sql_limit `{Env} (lim : option json) : Limit :=
  match lim with
  | None => Unbounded
  | Some v =>
      if truthy lim then
        match v with
        | JNum (Fin q) =>
            if Qeq_bool q (inject_Z (Qtrunc q)) && Qle_bool 1 q
            then AtMost (Z.to_nat (Qtrunc q))
            else bound_limit v
        | _ => bound_limit v
        end
      else Unbounded
  end.

(** The candidate query: models without a label, most recently updated
    first, capped by the limit; the query rejects when the database
    refuses the limit. *)
Definition select_candidates `{Env} (lim : option json) (d : Database)
    : result (list Candidate.t) :=
  let rows :=
    merge_sort updated_desc
      (filter (λ kr, model_labels d !! kr.1 = None) (map_to_list (models d))) in
  let as_row := λ kr : string * ModelRow.t,
    Candidate.mk kr.1 (ModelRow.url kr.2) (ModelRow.title kr.2)
      (ModelRow.description kr.2) (ModelRow.cover_image_url kr.2) in
  match sql_limit lim with
  | Unbounded => inr (map as_row rows)
  | AtMost n => inr (map as_row (take n rows))
  | Refused message => inl message
  end.

(** Lines 76-85: the stored images of a candidate, or its cover. *)
Definition stored_imageUrls (row : Candidate.t) (d : Database) : list string :=
  let urls :=
    filter (λ u, truthy_str u = true)
      (take 12 (default [] (model_images d !! Candidate.id row))) in
  match urls, Candidate.cover_image_url row with
  | [], Some c => if truthy_str c then [c] else []
  | _, _ => urls
  end.

(** What SQLite reports when a second label is inserted for a model. *)
Definition UNIQUE_failed : string := "UNIQUE constraint failed: model_labels.model_id".

Inductive LabelPc :=
| LSelectJob                          (* line 13 *)
| LSetRunning                         (* line 26 *)
| LLatestCrawl                        (* line 29 *)
| LCreateContext (cookieHeader : option string)   (* line 39 *)
| LSelectCandidates                   (* line 55 *)
| LSetTotal                           (* line 57 *)
| LPoll                               (* line 73 *)
| LSelectImages                       (* line 76 *)
| LScrape                             (* line 89 *)
| LUpdateModel (sc : ScrapedModel.t)  (* line 93 *)
| LDeleteImages (sc : ScrapedModel.t) (* line 107 *)
| LInsertImages (sc : ScrapedModel.t) (* line 109 *)
| LLabel (imageUrls : list string)    (* line 123 *)
| LInsertLabel (r : LabelResult.t)    (* line 128 *)
| LCount                              (* line 139 *)
| LCountFailed (message : string)     (* line 142 *)
| LSetCompleted                       (* line 150 *)
| LFinally (e : Exit)                 (* lines 152-153 *)
| LMarkError (message : string)       (* line 158 *)
| LDone
| LRejected.

Record LabelState := mkLabelState {
  ldb : Database;
  lnow : string;
  lconfig : json;
  lcontext : option BrowserContext;   (* the context of line 39, once opened *)
  lcandidates : list Candidate.t;     (* the rows the loop has not finished *)
  lpc : LabelPc;
}.

Definition lset_db (f : Database → Database) (s : LabelState) : LabelState :=
  mkLabelState (f (ldb s)) (lnow s) (lconfig s) (lcontext s) (lcandidates s) (lpc s).

Definition lset_pc (pc : LabelPc) (s : LabelState) : LabelState :=
  mkLabelState (ldb s) (lnow s) (lconfig s) (lcontext s) (lcandidates s) pc.

Definition lset_candidates (c : list Candidate.t) (s : LabelState) : LabelState :=
  mkLabelState (ldb s) (lnow s) (lconfig s) (lcontext s) c (lpc s).

Section label.
Context `{Env} (jobId : string).

Definition ljob (s : LabelState) : option JobRow.t := label_jobs (ldb s) !! jobId.

Definition update_label_job (f : JobRow.t → JobRow.t) : LabelState → LabelState :=
  lset_db (with_label_jobs (update_job jobId f)).

(** The [catch] of line 155. *)
Definition lcatch (message : string) (s : LabelState) : LabelState :=
  if String.eqb message JOB_CANCELLED then lset_pc LDone s
  else lset_pc (LMarkError message) s.

(** Head of [for (const row of candidates)]. *)
Definition lloop_head (s : LabelState) : LabelState :=
  match lcandidates s with
  | [] => lset_pc LSetCompleted s
  | _ => lset_pc LPoll s
  end.

(** The end of one round of the loop. *)
Definition lnext (s : LabelState) : LabelState :=
  lloop_head (lset_candidates (tail (lcandidates s)) s).

Definition label_step (s : LabelState) : option LabelState :=
  match lpc s with
  | LSelectJob =>
      match ljob s with
      | None => Some (lset_pc LDone s)
      | Some r =>
          match JSON_parse (JobRow.config_json r) with
          | None => Some (lset_pc LRejected s)
          | Some parsed =>
              Some (mkLabelState (ldb s) (lnow s) parsed (lcontext s) (lcandidates s) LSetRunning)
          end
      end
  | LSetRunning => Some (lset_pc LLatestCrawl (update_label_job (set_running (lnow s)) s))
  | LLatestCrawl => Some (lset_pc (LCreateContext (label_cookieHeader (ldb s))) s)
  | LCreateContext cookieHeader =>
      let s1 :=
        mkLabelState (ldb s) (lnow s) (lconfig s) (Some (createContext cookieHeader))
          (lcandidates s) (lpc s) in
      match lconfig s with
      | JNull => Some (lset_pc (LFinally (Throw (TypeError_null "limit"))) s1)
      | _ => Some (lset_pc LSelectCandidates s1)
      end
  | LSelectCandidates =>
      match select_candidates (limit (asLabelJobConfig (lconfig s))) (ldb s) with
      | inr rows => Some (lset_pc LSetTotal (lset_candidates rows s))
      | inl message => Some (lset_pc (LFinally (Throw message)) s)
      end
  | LSetTotal =>
      Some (lloop_head (update_label_job (set_total (Z.of_nat (length (lcandidates s)))) s))
  | LPoll =>
      match poll (ljob s) with
      | Proceed => Some (lset_pc LSelectImages s)
      | Sleep => Some s
      | Cancelled => Some (lset_pc (LFinally (Throw JOB_CANCELLED)) s)
      end
  | LSelectImages =>
      match lcandidates s with
      | [] => None
      | row :: _ =>
          let imageUrls := stored_imageUrls row (ldb s) in
          if decide (length imageUrls < 2)%nat then Some (lset_pc LScrape s)
          else Some (lset_pc (LLabel imageUrls) s)
      end
  | LScrape =>
      match lcandidates s with
      | [] => None
      | row :: _ =>
          match scrapeModelPageInContext (Candidate.url row) with
          | inr scraped => Some (lset_pc (LUpdateModel scraped) s)
          | inl message => Some (lset_pc (LCountFailed message) s)
          end
      end
  | LUpdateModel sc =>
      match lcandidates s with
      | [] => None
      | row :: _ =>
          Some (lset_pc (LDeleteImages sc)
                  (lset_db (with_models (alter (λ old,
                     ModelRow.mk (ScrapedModel.url sc) (ScrapedModel.title sc)
                       (ScrapedModel.authorName sc) (ScrapedModel.downloadCount sc)
                       (head (ScrapedModel.imageUrls sc)) (ScrapedModel.description sc)
                       (ModelRow.created_at old) (lnow s)) (Candidate.id row))) s))
      end
  | LDeleteImages sc =>
      match lcandidates s with
      | [] => None
      | row :: _ =>
          Some (lset_pc
                  (match ScrapedModel.imageUrls sc with
                   | [] => LLabel []
                   | _ => LInsertImages sc
                   end)
                  (lset_db (with_model_images (delete (Candidate.id row))) s))
      end
  | LInsertImages sc =>
      match lcandidates s with
      | [] => None
      | row :: _ =>
          Some (lset_pc (LLabel (ScrapedModel.imageUrls sc))
                  (lset_db (with_model_images
                              (insert (Candidate.id row) (ScrapedModel.imageUrls sc))) s))
      end
  | LLabel imageUrls =>
      match lcandidates s with
      | [] => None
      | row :: _ =>
          match labelWithOpenAI imageUrls (Candidate.url row) with
          | inr r => Some (lset_pc (LInsertLabel r) s)
          | inl message => Some (lset_pc (LCountFailed message) s)
          end
      end
  | LInsertLabel r =>
      match lcandidates s with
      | [] => None
      | row :: _ =>
          match model_labels (ldb s) !! Candidate.id row with
          | Some _ => Some (lset_pc (LCountFailed UNIQUE_failed) s)
          | None =>
              Some (lset_pc LCount
                      (lset_db (with_model_labels
                                  (insert (Candidate.id row)
                                     (ModelLabelRow.mk (LabelResult.grade r) (LabelResult.reason r)
                                        (LabelResult.extracted r) (lnow s)))) s))
          end
      end
  | LCount => Some (lnext (update_label_job incr_processed s))
  | LCountFailed message => Some (lnext (update_label_job (incr_failed message) s))
  | LSetCompleted =>
      Some (lset_pc (LFinally Return) (update_label_job (set_completed (lnow s)) s))
  | LFinally Return => Some (lset_pc LDone s)
  | LFinally (Throw message) => Some (lcatch message s)
  | LMarkError message =>
      Some (lset_pc LDone (update_label_job (set_failed (lnow s) message) s))
  | LDone => None
  | LRejected => None
  end.

(** [createContext] rejects (the browser does not launch). *)
Definition label_throws (message : string) (s : LabelState) : option LabelState :=
  match lpc s with
  | LCreateContext _ => Some (lcatch message s)
  | _ => None
  end.

Inductive LabelEvent :=
| LMain                               (* runLabelJob continues *)
| LMainThrows (message : string)
| LTick (t : string)
| LPauseRequest                       (* POST /api/label-jobs/:id/pause on this job *)
| LResumeRequest                      (* POST /api/label-jobs/:id/resume on this job *)
| LClearRequest (message : string)
| LRowDeleted.

Definition lstep (e : LabelEvent) (s : LabelState) : option LabelState :=
  match e with
  | LMain => label_step s
  | LMainThrows message => label_throws message s
  | LTick t => Some (mkLabelState (ldb s) t (lconfig s) (lcontext s) (lcandidates s) (lpc s))
  | LPauseRequest => Some (lset_db (pause_label_job jobId) s)
  | LResumeRequest => Some (lset_db (resume_label_job jobId) s)
  | LClearRequest message => Some (lset_db (clearHistory (lnow s) message) s)
  | LRowDeleted => Some (lset_db (with_label_jobs (delete jobId)) s)
  end.

Fixpoint lrun (es : list LabelEvent) (s : LabelState) : option LabelState :=
  match es with
  | [] => Some s
  | e :: rest =>
      match lstep e s with
      | Some s' => lrun rest s'
      | None => None
      end
  end.

(** [runLabelJob(db, jobId)] is called. *)
Definition lstart (d : Database) (t : string) : LabelState :=
  mkLabelState d t JNull None [] LSelectJob.

End label.

(** * Properties *)

(** ** Worker count *)

Section worker_count.
Context `{Env}.

Lemma Qle_bool_Z (a : Z) (q : Q) :
  Qle_bool (inject_Z a) q = (a * Zpos (Qden q) <=? Qnum q).
Proof. unfold Qle_bool, inject_Z; simpl. by rewrite Z.mul_1_r. Qed.

Lemma Qle_bool_Z_r (q : Q) (a : Z) :
  Qle_bool q (inject_Z a) = (Qnum q <=? a * Zpos (Qden q)).
Proof. unfold Qle_bool, inject_Z; simpl. by rewrite Z.mul_1_r. Qed.

(** Between 1 and 5 the length is the integer part. *)
Lemma ToLength_Fin (q : Q) :
  1 * Zpos (Qden q) <= Qnum q → Qnum q < 5 * Zpos (Qden q) →
  ToLength (Fin q) = Qfloor q ∧ 1 <= Qfloor q <= 4.
Proof.
  destruct q as [a b]; simpl. intros H1 H5.
  unfold Qtrunc; simpl.
  rewrite Z.quot_div_nonneg by lia.
  assert (1 <= a / Zpos b) by (apply Z.div_le_lower_bound; lia).
  assert (a / Zpos b < 5) by (apply Z.div_lt_upper_bound; lia).
  lia.
Qed.

Lemma concurrency_of_Fin (q : Q) (c : option json) :
  Number c = Fin q →
  ToLength (concurrency_of c) = Z.max 1 (Z.min 5 (Qfloor q)).
Proof.
  intros Hc. unfold concurrency_of, num_or. rewrite Hc. simpl.
  unfold Qzero. destruct (Z.eqb_spec (Qnum q) 0) as [H0|H0]; simpl.
  - destruct q as [a b]; simpl in *; subst a. reflexivity.
  - change 5%Q with (inject_Z 5). change 1%Q with (inject_Z 1).
    rewrite Qle_bool_Z.
    destruct (Z.leb_spec (5 * Zpos (Qden q)) (Qnum q)) as [H5|H5]; simpl.
    + assert (5 <= Qfloor q).
      { destruct q as [a b]; simpl in *. apply Z.div_le_lower_bound; lia. }
      change (Qtrunc (inject_Z 5)) with 5. lia.
    + rewrite Qle_bool_Z.
      destruct (Z.leb_spec (1 * Zpos (Qden q)) (Qnum q)) as [H1|H1].
      * destruct (ToLength_Fin q H1 H5) as [-> ?]. lia.
      * assert (Qfloor q < 1).
        { destruct q as [a b]; simpl in *. apply Z.div_lt_upper_bound; lia. }
        change (ToLength (Fin (inject_Z 1))) with 1. lia.
Qed.

Lemma spawned_cases (c : option json) :
  match Number c with
  | Fin q => Z.of_nat (spawned c) = Z.max 1 (Z.min 5 (Qfloor q))
  | PosInf => spawned c = 5%nat
  | NaN | NegInf => spawned c = 1%nat
  end.
Proof.
  destruct (Number c) as [| | |q] eqn:Hc.
  - unfold spawned, concurrency_of. by rewrite Hc.
  - unfold spawned, concurrency_of. by rewrite Hc.
  - unfold spawned, concurrency_of. by rewrite Hc.
  - unfold spawned. rewrite (concurrency_of_Fin q c Hc). lia.
Qed.

End worker_count.

(** ** Recovery at process start *)

Lemma String_leb_trans (a b c : string) :
  String.leb a b = true → String.leb b c = true → String.leb a c = true.
Proof.
  unfold String.leb.
  destruct (String.compare a b) eqn:Hab; try discriminate; intros _;
    destruct (String.compare b c) eqn:Hbc; try discriminate; intros _.
  - apply String.compare_eq_iff in Hab. subst b. by rewrite Hbc.
  - apply String.compare_eq_iff in Hab. subst b. by rewrite Hbc.
  - apply String.compare_eq_iff in Hbc. subst c. by rewrite Hab.
  - apply String_as_OT.cmp_lt in Hab, Hbc.
    pose proof (String_as_OT.lt_trans _ _ _ Hab Hbc) as Hac.
    apply String_as_OT.cmp_lt in Hac. unfold String_as_OT.cmp in Hac. by rewrite Hac.
Qed.

Lemma String_leb_refl (a : string) : String.leb a a = true.
Proof. destruct (String.leb_total a a); done. Qed.

Lemma String_ltb_false_leb (a b : string) :
  String.ltb a b = false → String.leb b a = true.
Proof.
  unfold String.ltb, String.leb. rewrite (String.compare_antisym a b).
  by destruct (String.compare b a).
Qed.

Lemma String_ltb_leb (a b : string) :
  String.ltb a b = true → String.leb a b = true.
Proof. unfold String.ltb, String.leb. by destruct (String.compare a b). Qed.

(** [latest] returns a row of the scan that no row of the scan exceeds. *)
Lemma latest_Some (rows : list (string * JobRow.t)) (x : string * JobRow.t) :
  latest rows = Some x →
  x ∈ rows ∧
  ∀ y, y ∈ rows → String.leb (JobRow.created_at y.2) (JobRow.created_at x.2) = true.
Proof.
  revert x. induction rows as [|a rows IH]; intros x Hx; [done|].
  simpl in Hx. destruct (latest rows) as [y|] eqn:Hl.
  - destruct (IH y eq_refl) as [Hy Hmax].
    destruct (String.ltb (JobRow.created_at a.2) (JobRow.created_at y.2)) eqn:Hlt;
      inversion Hx; subst x; clear Hx.
    + split; [by right|]. intros z [->|Hz]%elem_of_cons; [by apply String_ltb_leb|by apply Hmax].
    + split; [by left|]. intros z [->|Hz]%elem_of_cons; [apply String_leb_refl|].
      eapply String_leb_trans; [by apply Hmax|by apply String_ltb_false_leb].
  - inversion Hx; subst x. destruct rows as [|b rows].
    + split; [by left|]. intros z [->|Hz]%elem_of_cons; [apply String_leb_refl|].
      by apply elem_of_nil in Hz.
    + simpl in Hl. by destruct (latest rows) as [y|];
        [destruct (String.ltb (JobRow.created_at b.2) (JobRow.created_at y.2))|].
Qed.

Lemma latest_None (rows : list (string * JobRow.t)) : latest rows = None → rows = [].
Proof.
  destruct rows as [|a rows]; [done|]. simpl.
  by destruct (latest rows) as [y|];
    [destruct (String.ltb (JobRow.created_at a.2) (JobRow.created_at y.2))|].
Qed.

(** The row [r] under key [id] is resumable and no resumable row of the
    table was created later. *)
Definition most_recent_resumable (t : gmap string JobRow.t) (id : string) (r : JobRow.t) : Prop :=
  t !! id = Some r ∧ resumable r = true ∧
  ∀ id' r', t !! id' = Some r' → resumable r' = true →
    String.leb (JobRow.created_at r') (JobRow.created_at r) = true.

Lemma select_resumable_Some (t : gmap string JobRow.t) (id : string) (r : JobRow.t) :
  select_resumable t = Some (id, r) → most_recent_resumable t id r.
Proof.
  intros [Hin Hmax]%latest_Some.
  apply list_elem_of_filter in Hin as [Hres Hin]. apply elem_of_map_to_list in Hin.
  split; [done|]. split; [done|]. intros id' r' Hl Hr.
  apply (Hmax (id', r')). apply list_elem_of_filter. split; [done|].
  by apply elem_of_map_to_list.
Qed.

Lemma select_resumable_None (t : gmap string JobRow.t) :
  select_resumable t = None → ∀ id r, t !! id = Some r → resumable r = false.
Proof.
  intros Hnil%latest_None id r Hl.
  destruct (resumable r) eqn:Hr; [|done].
  assert ((id, r) ∈ filter (λ kr : string * JobRow.t, resumable kr.2 = true) (map_to_list t)) as Hin.
  { apply list_elem_of_filter. split; [done|]. by apply elem_of_map_to_list. }
  rewrite Hnil in Hin. by apply elem_of_nil in Hin.
Qed.

Lemma update_job_lookup (t : gmap string JobRow.t) (id : string) (r : JobRow.t) f :
  t !! id = Some r → update_job id f t = <[id := f r]> t.
Proof.
  intros Hl. unfold update_job. apply map_eq. intros k.
  destruct (decide (k = id)) as [->|Hne].
  - by rewrite lookup_alter_eq, lookup_insert_eq, Hl.
  - by rewrite lookup_alter_ne, lookup_insert_ne.
Qed.

(** The table after the recovery, and the timers armed for it. *)
Definition recover_table (t : gmap string JobRow.t) : gmap string JobRow.t :=
  match select_resumable t with
  | Some (id, _) => update_job id (set_status queued) t
  | None => t
  end.

Definition recover_timers (timer : string → Timer) (t : gmap string JobRow.t) : list Timer :=
  match select_resumable t with
  | Some (id, _) => [timer id]
  | None => []
  end.

Lemma resume_tables (d : Database) :
  crawl_jobs (resume d).1 = recover_table (crawl_jobs d) ∧
  label_jobs (resume d).1 = recover_table (label_jobs d) ∧
  (resume d).2 = recover_timers (λ id, RunCrawlJob id 200) (crawl_jobs d)
                 ++ recover_timers (λ id, RunLabelJob id 200) (label_jobs d) ∧
  models (resume d).1 = models d ∧
  model_images (resume d).1 = model_images d ∧
  model_labels (resume d).1 = model_labels d.
Proof.
  unfold resume, recover_table, recover_timers.
  destruct (select_resumable (crawl_jobs d)) as [[idc rc]|] eqn:Hc; cbn;
    destruct (select_resumable (label_jobs d)) as [[idl rl]|] eqn:Hl; cbn; done.
Qed.

Lemma resumable_fields (r : JobRow.t) :
  resumable r = true ↔
  JobRow.finished_at r = None ∧ (JobRow.status r = queued ∨ JobRow.status r = running).
Proof.
  unfold resumable. rewrite andb_true_iff, !bool_decide_eq_true. done.
Qed.

(** What the recovery does to one table [t], leaving [t'] and arming
    [timers], all in terms of the columns. If some row has [finished_at]
    null and status queued or running, one such row is picked that no
    other such row was created after; its status becomes queued and its
    other columns stay; every other row stays; one timer is armed, for
    the picked job. If no row qualifies, the table stays and no timer is
    armed. *)
Definition recovery (timer : string → Timer) (t t' : gmap string JobRow.t)
    (timers : list Timer) : Prop :=
  ((∃ id r, t !! id = Some r ∧ JobRow.finished_at r = None ∧
            (JobRow.status r = queued ∨ JobRow.status r = running)) →
   ∃ id r,
     t !! id = Some r ∧ JobRow.finished_at r = None ∧
     (JobRow.status r = queued ∨ JobRow.status r = running) ∧
     (∀ id' r', t !! id' = Some r' → JobRow.finished_at r' = None →
        JobRow.status r' = queued ∨ JobRow.status r' = running →
        String.leb (JobRow.created_at r') (JobRow.created_at r) = true) ∧
     t' !! id = Some (JobRow.mk queued (JobRow.created_at r) (JobRow.started_at r) None
                        (JobRow.config_json r) (JobRow.discovered_count r)
                        (JobRow.processed_count r) (JobRow.failed_count r)
                        (JobRow.last_error r)) ∧
     (∀ id', id' ≠ id → t' !! id' = t !! id') ∧
     timers = [timer id]) ∧
  ((∀ id r, t !! id = Some r →
      JobRow.finished_at r ≠ None ∨
      (JobRow.status r ≠ queued ∧ JobRow.status r ≠ running)) →
   t' = t ∧ timers = []).

Lemma recover_table_recovery (timer : string → Timer) (t : gmap string JobRow.t) :
  recovery timer t (recover_table t) (recover_timers timer t).
Proof.
  unfold recovery, recover_table, recover_timers.
  destruct (select_resumable t) as [[id r]|] eqn:Hs.
  - destruct (select_resumable_Some _ _ _ Hs) as (Hl & [Hfin Hst]%resumable_fields & Hmax).
    split.
    + intros _. exists id, r. split; [done|]. split; [done|]. split; [done|].
      split; [|split; [|split; [|done]]].
      * intros id' r' Hl' Hfin' Hst'. apply (Hmax id' r' Hl'). by apply resumable_fields.
      * unfold update_job. rewrite lookup_alter_eq, Hl. unfold set_status. simpl. by rewrite Hfin.
      * intros id' Hne. unfold update_job. by rewrite lookup_alter_ne.
    + intros Hnone. destruct (Hnone id r Hl) as [Hf|[Hq Hr]]; [done|]. by destruct Hst.
  - pose proof (select_resumable_None _ Hs) as Hnone. split; [|done].
    intros (id & r & Hl & Hfin & Hst). specialize (Hnone id r Hl).
    assert (resumable r = true) by (by apply resumable_fields). congruence.
Qed.

Lemma recover_table_other (t : gmap string JobRow.t) (id : string) (r : JobRow.t) :
  t !! id = Some r →
  JobRow.finished_at r ≠ None ∨ (JobRow.status r ≠ queued ∧ JobRow.status r ≠ running) →
  recover_table t !! id = Some r.
Proof.
  intros Hl Hr. unfold recover_table.
  destruct (select_resumable t) as [[id' r']|] eqn:Hs; [|done].
  destruct (select_resumable_Some _ _ _ Hs) as (Hl' & [Hfin Hst]%resumable_fields & _).
  unfold update_job. rewrite lookup_alter_ne; [done|]. intros ->. simplify_eq.
  destruct Hr as [Hf|[Hq Hrun]]; [done|]. by destruct Hst.
Qed.

(** C7. At process start, in each of the two job tables taken on its
    own: when some job has [finished_at] null and status queued or
    running, one of them that none of the others was created after is
    picked; its status is set to queued, every other column of it and
    every other row stay as they were, and exactly one timer is armed,
    which runs the loop of that kind on the picked job after 200 ms. When
    no job of the table qualifies, nothing is written to it and no timer
    is armed for it. In either case a row whose [finished_at] is set, or
    whose status is neither queued nor running (a completed job among
    them), stays as it was, and so do the other tables. The timers armed
    are those of the crawl table followed by those of the label table. *)
Theorem resume_recovers (d : Database) :
  ∃ crawl_timers label_timers,
    (resume d).2 = crawl_timers ++ label_timers ∧
    recovery (λ id, RunCrawlJob id 200) (crawl_jobs d) (crawl_jobs (resume d).1) crawl_timers ∧
    recovery (λ id, RunLabelJob id 200) (label_jobs d) (label_jobs (resume d).1) label_timers ∧
    (∀ id r, crawl_jobs d !! id = Some r →
       JobRow.finished_at r ≠ None ∨
       (JobRow.status r ≠ queued ∧ JobRow.status r ≠ running) →
       crawl_jobs (resume d).1 !! id = Some r) ∧
    (∀ id r, label_jobs d !! id = Some r →
       JobRow.finished_at r ≠ None ∨
       (JobRow.status r ≠ queued ∧ JobRow.status r ≠ running) →
       label_jobs (resume d).1 !! id = Some r) ∧
    models (resume d).1 = models d ∧
    model_images (resume d).1 = model_images d ∧
    model_labels (resume d).1 = model_labels d.
Proof.
  destruct (resume_tables d) as (-> & -> & -> & -> & -> & ->).
  eexists _, _. split; [done|].
  split; [apply recover_table_recovery|]. split; [apply recover_table_recovery|].
  split; [apply recover_table_other|]. split; [apply recover_table_other|]. done.
Qed.

(** ** Example environments *)

(** The double quote, to write JSON text. *)
Definition dq : string := String (ascii_of_nat 34) EmptyString.

(** ["k":v]. *)
Definition field (k v : string) : string := (dq ++ k ++ dq ++ ":" ++ v)%string.

(** An environment with the given parser, Page Extractor and list page;
    strings and objects are not used as numbers in the examples, the
    Labeling Service has no key, and the database refuses every limit
    that is not a positive integer. *)
Definition example_env (parse : string → option json)
    (scrape : string → result ScrapedModel.t)
    (dom : nat → list Discovered.t) : Env :=
  {| JSON_parse := parse;
     StringToNumber := λ _, NaN;
     ObjectToNumber := λ _, NaN;
     scrapeModelPageInContext := scrape;
     labelWithOpenAI := λ _ _, inl "OPENAI_API_KEY is required";
     listSample_blocked := false;
     page_evaluate := dom;
     bound_limit := λ _, Refused "datatype mismatch" |}.

Definition no_env : Env := example_env (λ _, None) (λ _, inl "unreachable") (λ _, []).

(** ** Worker count: the claim *)

(** C9, as stated, fails: a stored concurrency of 2.5 is clamped to 2.5
    by line 173, and line 174 spawns 2 workers. *)
Lemma spawned_fraction :
  @concurrency_of no_env (Some (JNum (Fin (5 # 2)))) = Fin (5 # 2) ∧
  @spawned no_env (Some (JNum (Fin (5 # 2)))) = 2%nat ∧
  ¬ (inject_Z 2 == 5 # 2)%Q.
Proof. split; [reflexivity|]. split; [reflexivity|]. by intros ?. Qed.

(** C9, amended. The number of workers spawned is between 1 and 5: it is
    the integer part of the stored concurrency, as [Number] coerces it,
    clamped into [1, 5] (the clamped value itself when that is an integer);
    it is 1 when the value does not coerce to a positive number (missing,
    NaN, 0, negative) and 5 for +Infinity. *)
Theorem spawned_clamped `{Env} (c : option json) :
  (1 ≤ spawned c ≤ 5)%nat ∧
  (num_lt (Fin 0) (Number c) = false → spawned c = 1%nat) ∧
  (Number c = PosInf → spawned c = 5%nat) ∧
  (∀ q, Number c = Fin q → Z.of_nat (spawned c) = Z.max 1 (Z.min 5 (Qfloor q))) ∧
  (∀ z, Number c = Fin (inject_Z z) → Z.of_nat (spawned c) = Z.max 1 (Z.min 5 z)).
Proof.
  pose proof (spawned_cases c) as Hc.
  split; [|split; [|split; [|split]]].
  - destruct (Number c); lia.
  - intros Hpos. destruct (Number c) as [| | |q]; try done.
    simpl in Hpos. apply negb_false_iff in Hpos.
    change 0%Q with (inject_Z 0) in Hpos. rewrite Qle_bool_Z_r in Hpos.
    apply Z.leb_le in Hpos.
    assert (Qfloor q <= 0); [|lia].
    destruct q as [a b]; simpl in *.
    destruct (Z.eq_dec a 0) as [->|]; [done|].
    assert (a / Z.pos b < 1); [|lia]. apply Z.div_lt_upper_bound; lia.
  - intros Hinf. by rewrite Hinf in Hc.
  - intros q Hq. by rewrite Hq in Hc.
  - intros z Hz. rewrite Hz in Hc. by rewrite Qfloor_Z in Hc.
Qed.

(** A stored concurrency of 3 spawns three workers; a missing one, one. *)
Example spawned_three : @spawned no_env (Some (JNum (Fin 3))) = 3%nat.
Proof. reflexivity. Qed.

Example spawned_missing : @spawned no_env None = 1%nat.
Proof. reflexivity. Qed.

(** ** The [finished_at] invariant *)

(** [finished_at] is non-null iff the status is completed or failed. *)
Definition finished_iff_terminal (r : JobRow.t) : Prop :=
  JobRow.finished_at r ≠ None ↔ (JobRow.status r = completed ∨ JobRow.status r = failed).

Definition table_ok (t : gmap string JobRow.t) : Prop :=
  ∀ id r, t !! id = Some r → finished_iff_terminal r.

(** Every job record of both kinds satisfies the invariant. *)
Definition store_ok (d : Database) : Prop :=
  table_ok (crawl_jobs d) ∧ table_ok (label_jobs d).

(** The record, if there is one, has not finished. *)
Definition unfinished (row : option JobRow.t) : Prop :=
  ∀ r, row = Some r → JobRow.finished_at r = None.

Lemma new_job_ok (now config : string) : finished_iff_terminal (new_job now config).
Proof. unfold finished_iff_terminal; simpl. split; [done|]. by intros [?|?]. Qed.

Lemma set_completed_ok (now : string) (r : JobRow.t) : finished_iff_terminal (set_completed now r).
Proof. unfold finished_iff_terminal; simpl. split; [by left|done]. Qed.

Lemma set_failed_ok (now message : string) (r : JobRow.t) :
  finished_iff_terminal (set_failed now message r).
Proof. unfold finished_iff_terminal; simpl. split; [by right|done]. Qed.

Lemma incr_processed_ok (r : JobRow.t) :
  finished_iff_terminal r → finished_iff_terminal (incr_processed r).
Proof. done. Qed.

Lemma incr_failed_ok (message : string) (r : JobRow.t) :
  finished_iff_terminal r → finished_iff_terminal (incr_failed message r).
Proof. done. Qed.

Lemma add_discovered_ok (n : Z) (r : JobRow.t) :
  finished_iff_terminal r → finished_iff_terminal (add_discovered n r).
Proof. done. Qed.

Lemma set_total_ok (n : Z) (r : JobRow.t) :
  finished_iff_terminal r → finished_iff_terminal (set_total n r).
Proof. done. Qed.

(** A status flip to a non-terminal status keeps the invariant exactly on
    the records that have not finished. *)
Lemma set_status_ok (st : JobStatus) (r : JobRow.t) :
  st ≠ completed → st ≠ failed →
  (finished_iff_terminal (set_status st r) ↔ JobRow.finished_at r = None).
Proof.
  intros Hc Hf. unfold finished_iff_terminal; simpl. split.
  - intros [Hfin _]. destruct (JobRow.finished_at r) eqn:Hr; [|done].
    destruct Hfin as [?|?]; done.
  - intros ->. split; [done|]. by intros [?|?].
Qed.

Lemma set_running_ok (now : string) (r : JobRow.t) :
  finished_iff_terminal (set_running now r) ↔ JobRow.finished_at r = None.
Proof.
  unfold finished_iff_terminal; simpl. split.
  - intros [Hfin _]. destruct (JobRow.finished_at r) eqn:Hr; [|done].
    destruct Hfin as [?|?]; done.
  - intros ->. split; [done|]. by intros [?|?].
Qed.

Lemma table_ok_update_job (t : gmap string JobRow.t) (id : string) (f : JobRow.t → JobRow.t) :
  table_ok t →
  (∀ r, t !! id = Some r → finished_iff_terminal r → finished_iff_terminal (f r)) →
  table_ok (update_job id f t).
Proof.
  intros Ht Hf k r. unfold update_job. destruct (decide (k = id)) as [->|Hne].
  - rewrite lookup_alter_eq. destruct (t !! id) as [r0|] eqn:Hl; [|done].
    intros [= <-]. apply Hf; [done|]. by eapply Ht.
  - rewrite lookup_alter_ne by done. apply Ht.
Qed.

Lemma table_ok_update_unfinished (t : gmap string JobRow.t) (f : JobRow.t → JobRow.t) :
  table_ok t → (∀ r, finished_iff_terminal (f r)) → table_ok (update_unfinished f t).
Proof.
  intros Ht Hf k r. unfold update_unfinished. rewrite lookup_fmap.
  destruct (t !! k) as [r0|] eqn:Hl; [|done]. simpl. intros [= <-].
  case_bool_decide; [apply Hf|by eapply Ht].
Qed.

Lemma table_ok_insert (t : gmap string JobRow.t) (id : string) (r : JobRow.t) :
  table_ok t → finished_iff_terminal r → table_ok (<[id := r]> t).
Proof.
  intros Ht Hr k r'. destruct (decide (k = id)) as [->|Hne].
  - rewrite lookup_insert_eq. by intros [= <-].
  - rewrite lookup_insert_ne by done. apply Ht.
Qed.

Lemma table_ok_delete (t : gmap string JobRow.t) (id : string) :
  table_ok t → table_ok (delete id t).
Proof.
  intros Ht k r'. destruct (decide (k = id)) as [->|Hne].
  - by rewrite lookup_delete_eq.
  - rewrite lookup_delete_ne by done. apply Ht.
Qed.

Lemma store_ok_clearHistory (now message : string) (d : Database) :
  store_ok d → store_ok (clearHistory now message d).
Proof.
  intros [Hc Hl].
  split; simpl; apply table_ok_update_unfinished; auto using set_failed_ok.
Qed.

Lemma store_ok_update_crawl (d : Database) (id : string) (f : JobRow.t → JobRow.t) :
  store_ok d →
  (∀ r, crawl_jobs d !! id = Some r → finished_iff_terminal r → finished_iff_terminal (f r)) →
  store_ok (with_crawl_jobs (update_job id f) d).
Proof. intros [Hc Hl] Hf. split; simpl; [by apply table_ok_update_job|done]. Qed.

Lemma store_ok_update_label (d : Database) (id : string) (f : JobRow.t → JobRow.t) :
  store_ok d →
  (∀ r, label_jobs d !! id = Some r → finished_iff_terminal r → finished_iff_terminal (f r)) →
  store_ok (with_label_jobs (update_job id f) d).
Proof. intros [Hc Hl] Hf. split; simpl; [done|by apply table_ok_update_job]. Qed.

Lemma store_ok_resume (d : Database) : store_ok d → store_ok (resume d).1.
Proof.
  intros [Hc Hl]. destruct (resume_tables d) as (Ec & El & _).
  split; [rewrite Ec|rewrite El]; unfold recover_table.
  - destruct (select_resumable (crawl_jobs d)) as [[id r]|] eqn:Hs; [|done].
    destruct (select_resumable_Some _ _ _ Hs) as (Hid & Hr & _).
    apply table_ok_update_job; [done|]. intros r' Hr' _. assert (r' = r) as -> by congruence.
    apply set_status_ok; [done..|]. unfold resumable in Hr.
    apply andb_true_iff in Hr as [Hfin _]. by apply bool_decide_eq_true in Hfin.
  - destruct (select_resumable (label_jobs d)) as [[id r]|] eqn:Hs; [|done].
    destruct (select_resumable_Some _ _ _ Hs) as (Hid & Hr & _).
    apply table_ok_update_job; [done|]. intros r' Hr' _. assert (r' = r) as -> by congruence.
    apply set_status_ok; [done..|]. unfold resumable in Hr.
    apply andb_true_iff in Hr as [Hfin _]. by apply bool_decide_eq_true in Hfin.
Qed.

Section invariant_steps.
Context `{Env} (jobId : string).

(** The events of a crawl run that write a non-terminal status: the two
    endpoints and line 30. *)
Definition flips_status (e : Event) (s : State) : Prop :=
  e = PauseRequest ∨ e = ResumeRequest ∨ (e = Main ∧ main s = MSetRunning).

Definition lflips_status (e : LabelEvent) (s : LabelState) : Prop :=
  e = LPauseRequest ∨ e = LResumeRequest ∨ (e = LMain ∧ lpc s = LSetRunning).

Lemma step_store_ok (e : Event) (s s' : State) :
  step jobId e s = Some s' → store_ok (db s) →
  (flips_status e s → unfinished (job jobId s)) →
  store_ok (db s').
Proof.
  intros Hs Hok Hg.
  destruct e;
    unfold step, main_step, main_throws, worker_step, on_response, handler_step,
      after_enrich, after_new, loop_head, finish_discovery, catch, push, call_wake,
      after_item, update_crawl_job, persistDiscovered, pause_crawl_job, resume_crawl_job in Hs;
    repeat case_match; simplify_eq; cbn -[update_job clearHistory]; try done;
    try (apply store_ok_clearHistory; done);
    try (apply store_ok_update_crawl; [done|]; intros r Hr Hi;
         first
           [ by auto using set_completed_ok, set_failed_ok, incr_processed_ok,
               incr_failed_ok, add_discovered_ok
           | apply set_running_ok; apply Hg; unfold flips_status, job; by eauto
           | apply set_status_ok; [done..|]; apply Hg; unfold flips_status, job; by eauto ]).
  destruct Hok as [Hc Hl]; split; cbn; [by apply table_ok_delete|done].
Qed.

Lemma lstep_store_ok (e : LabelEvent) (s s' : LabelState) :
  lstep jobId e s = Some s' → store_ok (ldb s) →
  (lflips_status e s → unfinished (ljob jobId s)) →
  store_ok (ldb s').
Proof.
  intros Hs Hok Hg.
  destruct e;
    unfold lstep, label_step, label_throws, lcatch, lnext, lloop_head, update_label_job,
      pause_label_job, resume_label_job in Hs;
    repeat case_match; simplify_eq; cbn -[update_job clearHistory]; try done;
    try (apply store_ok_clearHistory; done);
    try (apply store_ok_update_label; [done|]; intros r Hr Hi;
         first
           [ by auto using set_completed_ok, set_failed_ok, incr_processed_ok,
               incr_failed_ok, set_total_ok
           | apply set_running_ok; apply Hg; unfold lflips_status, ljob; by eauto
           | apply set_status_ok; [done..|]; apply Hg; unfold lflips_status, ljob; by eauto ]).
  destruct Hok as [Hc Hl]; split; cbn; [done|by apply table_ok_delete].
Qed.

End invariant_steps.

Lemma flip_ok_iff (t : gmap string JobRow.t) (id : string) (st : JobStatus) :
  st ≠ completed → st ≠ failed → table_ok t →
  (table_ok (update_job id (set_status st) t) ↔ unfinished (t !! id)).
Proof.
  intros Hc Hf Ht. split.
  - intros Hok r Hr. apply (set_status_ok st r Hc Hf).
    apply (Hok id). unfold update_job. by rewrite lookup_alter_eq, Hr.
  - intros Hu. apply table_ok_update_job; [done|]. intros r Hr _.
    apply set_status_ok; [done..|]. by apply Hu.
Qed.

Lemma store_ok_post_crawl_job (id now config : string) (clear : bool) (d : Database) :
  store_ok d → store_ok (post_crawl_job id now config clear d).1.
Proof.
  intros Hok. unfold post_crawl_job. simpl.
  assert (store_ok (if clear then clearHistory now "CLEARED_BY_NEW_CRAWL" d else d)) as [Hc Hl].
  { destruct clear; [by apply store_ok_clearHistory|done]. }
  split; simpl; [|done]. apply table_ok_insert; [done|apply new_job_ok].
Qed.

Lemma store_ok_post_label_job (id now config : string) (d : Database) :
  store_ok d → store_ok (post_label_job id now config d).1.
Proof.
  intros [Hc Hl]. split; simpl; [done|]. apply table_ok_insert; [done|apply new_job_ok].
Qed.

(** A crawl job that completed. *)
Definition finished_job : JobRow.t :=
  JobRow.mk completed "2024-05-01T10:00:00.000Z" (Some "2024-05-01T10:00:01.000Z")
    (Some "2024-05-01T10:09:00.000Z") "{}" 3 3 0 None.

(** C8, as stated, fails: the pause endpoint checks nothing, so pausing
    a completed job leaves [finished_at] set under status paused. *)
Lemma pause_finished_job :
  let d := mkDb {["crawl_1" := finished_job]} ∅ ∅ ∅ ∅ in
  store_ok d ∧ ¬ store_ok (pause_crawl_job "crawl_1" d).
Proof.
  split.
  - split; intros id r; simpl; [|by rewrite lookup_empty].
    intros [_ <-]%lookup_singleton_Some. by split; [left|].
  - intros [Hc _].
    assert (crawl_jobs (pause_crawl_job "crawl_1" (mkDb {["crawl_1" := finished_job]} ∅ ∅ ∅ ∅))
              !! "crawl_1" = Some (set_status paused finished_job)) as Hl
      by (vm_compute; reflexivity).
    destruct (Hc _ _ Hl) as [Hfin _].
    by destruct Hfin as [?|?].
Qed.

(** C8, amended. Creating a job, the counter updates, completion, failure,
    the clear-history update and the recovery keep the invariant on every
    job record, in every step of a crawl or label run and in the endpoints.
    The writes of a non-terminal status that leave [finished_at] as it is
    (line 30 at job start, the pause and resume endpoints) keep it exactly
    when the record they touch has not finished. *)
Theorem finished_at_invariant `{Env} (jobId : string) :
  (∀ e s s', step jobId e s = Some s' → store_ok (db s) →
     (flips_status e s → unfinished (job jobId s)) → store_ok (db s')) ∧
  (∀ e s s', lstep jobId e s = Some s' → store_ok (ldb s) →
     (lflips_status e s → unfinished (ljob jobId s)) → store_ok (ldb s')) ∧
  (∀ id now config clear d, store_ok d → store_ok (post_crawl_job id now config clear d).1) ∧
  (∀ id now config d, store_ok d → store_ok (post_label_job id now config d).1) ∧
  (∀ d, store_ok d → store_ok (resume d).1) ∧
  (∀ id d, store_ok d →
     (store_ok (pause_crawl_job id d) ↔ unfinished (crawl_jobs d !! id)) ∧
     (store_ok (resume_crawl_job id d) ↔ unfinished (crawl_jobs d !! id)) ∧
     (store_ok (pause_label_job id d) ↔ unfinished (label_jobs d !! id)) ∧
     (store_ok (resume_label_job id d) ↔ unfinished (label_jobs d !! id))).
Proof.
  split; [apply step_store_ok|]. split; [apply lstep_store_ok|].
  split; [apply store_ok_post_crawl_job|]. split; [apply store_ok_post_label_job|].
  split; [apply store_ok_resume|].
  intros id d [Hc Hl].
  unfold store_ok, pause_crawl_job, resume_crawl_job, pause_label_job, resume_label_job; simpl.
  pose proof (flip_ok_iff (crawl_jobs d) id paused) as Hcp.
  pose proof (flip_ok_iff (crawl_jobs d) id running) as Hcr.
  pose proof (flip_ok_iff (label_jobs d) id paused) as Hlp.
  pose proof (flip_ok_iff (label_jobs d) id running) as Hlr.
  split; [|split; [|split]].
  - rewrite <- Hcp by done. split; [by intros [? _]|by intros ?].
  - rewrite <- Hcr by done. split; [by intros [? _]|by intros ?].
  - rewrite <- Hlp by done. split; [by intros [_ ?]|by intros ?].
  - rewrite <- Hlr by done. split; [by intros [_ ?]|by intros ?].
Qed.

(** ** Label run: the cookie header *)

Section label_cookie.
Context `{Env}.

(** The row that [ORDER BY created_at DESC LIMIT 1] returns from
    [crawl_jobs]: no crawl job was created later. *)
Lemma latestCrawl_most_recent (d : Database) (id : string) (r : JobRow.t) :
  latest (map_to_list (crawl_jobs d)) = Some (id, r) →
  crawl_jobs d !! id = Some r ∧
  ∀ id' r', crawl_jobs d !! id' = Some r' →
    String.leb (JobRow.created_at r') (JobRow.created_at r) = true.
Proof.
  intros [Hin Hmax]%latest_Some. apply elem_of_map_to_list in Hin. split; [done|].
  intros id' r' Hl. apply (Hmax (id', r')). by apply elem_of_map_to_list.
Qed.

Lemma label_cookieHeader_Some (d : Database) (c : string) :
  label_cookieHeader d = Some c ↔
  ∃ id r parsed,
    latest (map_to_list (crawl_jobs d)) = Some (id, r) ∧
    JSON_parse (JobRow.config_json r) = Some parsed ∧
    get_prop "cookieHeader" parsed = Some (JStr c).
Proof.
  unfold label_cookieHeader, latestCrawl. split.
  - destruct (latest (map_to_list (crawl_jobs d))) as [[id r]|] eqn:Hl; simpl; [|done].
    destruct (JSON_parse (JobRow.config_json r)) as [parsed|] eqn:Hparse; [|done].
    destruct (get_prop "cookieHeader" parsed) as [[]|] eqn:Hp; try done.
    intros [= ->]. by exists id, r, parsed.
  - intros (id & r & parsed & -> & Hparse & Hp). simpl. by rewrite Hparse, Hp.
Qed.

Lemma createContext_cookie (o : option string) (c : string) :
  cookie (createContext o) = Some c ↔ o = Some c ∧ c ≠ "".
Proof.
  unfold createContext. destruct o as [[|a s]|]; simpl; split; try done.
  - by intros [[= <-] ?].
  - by intros [= <-].
  - by intros [[= <-] _].
  - by intros [? _].
Qed.

End label_cookie.

(** The JSON text [{"cookieHeader":""}] and what [JSON.parse] makes of it. *)
Definition empty_cookie_text : string := ("{" ++ field "cookieHeader" (dq ++ dq) ++ "}")%string.

Definition empty_cookie_env : Env :=
  example_env
    (λ s, if String.eqb s empty_cookie_text then Some (JObj [("cookieHeader", JStr "")]) else None)
    (λ _, inl "unreachable") (λ _, []).

(** C10, as stated, fails: when the latest crawl job's config holds the
    empty string as [cookieHeader], the config parses and has a string
    field, the label run passes that string on, and [createContext] opens
    the context with no cookie header. *)
Lemma empty_cookieHeader_no_header :
  let d := mkDb {["crawl_1" := new_job "2024-05-01T10:00:00.000Z" empty_cookie_text]} ∅ ∅ ∅ ∅ in
  @label_cookieHeader empty_cookie_env d = Some "" ∧
  cookie (createContext (@label_cookieHeader empty_cookie_env d)) = None.
Proof. split; vm_compute; reflexivity. Qed.

(** C10, amended. The label run reads no credentials from its own config:
    at line 29 it takes the config of the crawl job that
    [ORDER BY created_at DESC LIMIT 1] returns (a most recently created
    one), whatever the label tables hold, and at line 39 it opens its
    context with that choice; no other step opens or changes the context.
    The context carries the cookie header [c] exactly when that config
    parses as JSON and holds a non-empty string [c] as [cookieHeader]; in
    every other case (no crawl job, no parse, no such field, a field that
    is not a string, the empty string) it carries none. *)
Theorem label_context_cookie `{Env} (jobId : string) :
  (∀ s s1, lpc s = LLatestCrawl → label_step jobId s = Some s1 →
     lpc s1 = LCreateContext (label_cookieHeader (ldb s))) ∧
  (∀ s s1 o, lpc s = LCreateContext o → label_step jobId s = Some s1 →
     lcontext s1 = Some (createContext o)) ∧
  (∀ e s s1, lstep jobId e s = Some s1 →
     (∀ o, ¬ (e = LMain ∧ lpc s = LCreateContext o)) → lcontext s1 = lcontext s) ∧
  (∀ d d', crawl_jobs d = crawl_jobs d' → label_cookieHeader d = label_cookieHeader d') ∧
  (∀ d c, cookie (createContext (label_cookieHeader d)) = Some c ↔
     c ≠ "" ∧
     ∃ id r parsed,
       latest (map_to_list (crawl_jobs d)) = Some (id, r) ∧
       JSON_parse (JobRow.config_json r) = Some parsed ∧
       get_prop "cookieHeader" parsed = Some (JStr c)) ∧
  (∀ d id r, latest (map_to_list (crawl_jobs d)) = Some (id, r) →
     crawl_jobs d !! id = Some r ∧
     ∀ id' r', crawl_jobs d !! id' = Some r' →
       String.leb (JobRow.created_at r') (JobRow.created_at r) = true).
Proof.
  split; [|split; [|split; [|split; [|split]]]].
  - intros s s1 Hpc Hs. unfold label_step in Hs. rewrite Hpc in Hs. by simplify_eq.
  - intros s s1 o Hpc Hs. unfold label_step in Hs. rewrite Hpc in Hs.
    by destruct (lconfig s); simplify_eq.
  - intros e s s1 Hs Hne.
    destruct e;
      unfold lstep, label_step, label_throws, lcatch, lnext, lloop_head, update_label_job in Hs;
      repeat case_match; simplify_eq; cbn; try done.
    all: by (exfalso; eapply Hne).
  - intros d d' Heq. unfold label_cookieHeader, latestCrawl. by rewrite Heq.
  - intros d c. rewrite createContext_cookie, label_cookieHeader_Some. tauto.
  - apply latestCrawl_most_recent.
Qed.

(** ** Persisting a later sighting *)








(** ** Example runs *)

Definition model_url (id : string) : string := ("https://makerworld.com/zh/models/" ++ id)%string.

(** The config the crawl endpoint stores for one scroll, at most 10
    models, no delay and the given concurrency. *)
Definition run_config_text (conc : string) : string :=
  ("{" ++ field "startUrl" (dq ++ "https://makerworld.com/zh/3d-models" ++ dq) ++ ","
       ++ field "limitModels" "10" ++ "," ++ field "maxScrolls" "1" ++ ","
       ++ field "concurrency" conc ++ "," ++ field "delayMs" "0" ++ "}")%string.

Definition run_config (conc : Z) : json :=
  JObj [("startUrl", JStr "https://makerworld.com/zh/3d-models");
        ("limitModels", JNum (Fin 10)); ("maxScrolls", JNum (Fin 1));
        ("concurrency", JNum (Fin (inject_Z conc))); ("delayMs", JNum (Fin 0))].

Definition run_parse (s : string) : option json :=
  if String.eqb s (run_config_text "1") then Some (run_config 1)
  else if String.eqb s (run_config_text "2") then Some (run_config 2)
  else None.

Definition scraped (id : string) : ScrapedModel.t :=
  ScrapedModel.mk id (model_url id) (Some ("Model " ++ id)%string) (Some "alice")
    (Some (Fin 42)) ["https://makerworld.com/img/a.png"; "https://makerworld.com/img/b.png"] None.

(** A Page Extractor that scrapes model 101, times out on model 102 and
    meets the challenge page on model 103. *)
Definition example_scrape (url : string) : result ScrapedModel.t :=
  if String.eqb url (model_url "101") then inr (scraped "101")
  else if String.eqb url (model_url "102") then inl "page.goto: Timeout 60000ms exceeded."
  else if String.eqb url (model_url "103") then inl CLOUDFLARE_BLOCKED
  else inl "net::ERR_NAME_NOT_RESOLVED".

Definition card (id : string) : Discovered.t :=
  Discovered.mk id (model_url id) None (Some ("Model " ++ id)%string) None.

(** The list page shows the given cards at the first evaluation. *)
Definition env_with (cards : list Discovered.t) : Env :=
  example_env run_parse example_scrape (λ i, match i with O => cards | _ => [] end).

Definition fresh_db (conc : string) : Database :=
  mkDb {["crawl_1" := new_job "2024-05-01T10:00:00.000Z" (run_config_text conc)]} ∅ ∅ ∅ ∅.

Definition t0 : string := "2024-05-01T10:00:01.000Z".

(** What the examples read off the record of job crawl_1. *)
Definition status_of (s : State) : option JobStatus :=
  JobRow.status <$> crawl_jobs (db s) !! "crawl_1".

Definition last_error_of (s : State) : option (option string) :=
  JobRow.last_error <$> crawl_jobs (db s) !! "crawl_1".

Definition finished_at_of (s : State) : option (option string) :=
  JobRow.finished_at <$> crawl_jobs (db s) !! "crawl_1".

Definition processed_count_of (s : State) : option Z :=
  JobRow.processed_count <$> crawl_jobs (db s) !! "crawl_1".

(** ** Crawl run: the queue and the pause gate *)

Section crawl_queue.
Context `{Env} (jobId : string).

(** Case analysis on one step of the crawl run. *)
Ltac step_cases Hs :=
  unfold step, main_step, main_throws, worker_step, on_response, handler_step,
    after_enrich, after_new, loop_head, finish_discovery, catch, push, call_wake,
    after_item, update_crawl_job, persistDiscovered, pause_crawl_job, resume_crawl_job in Hs;
  repeat case_match; simplify_eq.

(** The item a step hands to a worker, if it is a dequeue: the worker is
    at the head of [getNext] and [queue[queueIndex]] exists. *)
Definition dequeued_by (e : Event) (s : State) : option QueueItem.t :=
  match e with
  | Worker i =>
      match workers s !! i with
      | Some WGetNext => queue s !! queueIndex s
      | _ => None
      end
  | _ => None
  end.

(** The items handed to workers along a schedule, in order. *)
Fixpoint dequeues (es : list Event) (s : State) : list QueueItem.t :=
  match es with
  | [] => []
  | e :: rest =>
      match step jobId e s with
      | Some s' => option_list (dequeued_by e s) ++ dequeues rest s'
      | None => []
      end
  end.

(** A step only appends to the queue, and moves the index by one exactly
    when it is a dequeue. *)
Lemma step_queue (e : Event) (s s' : State) :
  step jobId e s = Some s' →
  queue s `prefix_of` queue s' ∧
  queueIndex s' = (queueIndex s + length (option_list (dequeued_by e s)))%nat.
Proof.
  intros Hs. unfold dequeued_by.
  destruct e; step_cases Hs; cbn; split;
    first [ done | by apply prefix_app_r | lia | idtac ].
Qed.



(** The job's record says paused. *)
Definition is_paused (s : State) : bool :=
  match job jobId s with
  | Some r => bool_decide (JobRow.status r = paused)
  | None => false
  end.

(** A schedule during which the status is paused whenever a step is taken. *)
Inductive paused_run : State → list Event → State → Prop :=
| paused_nil s : paused_run s [] s
| paused_cons s e s1 es s2 :
    is_paused s = true → step jobId e s = Some s1 → paused_run s1 es s2 →
    paused_run s (e :: es) s2.

Lemma paused_run_run (s : State) (es : list Event) (s' : State) :
  paused_run s es s' → run jobId es s = Some s'.
Proof. induction 1 as [|s e s1 es s2 Hp Hs _ IH]; simpl; [done|by rewrite Hs]. Qed.




Lemma lookup_update_job (t : gmap string JobRow.t) (id : string) (f : JobRow.t → JobRow.t) :
  update_job id f t !! id = f <$> t !! id.
Proof. unfold update_job. apply lookup_alter_eq. Qed.




(** Once the status is [running], a worker at its check passes it and is
    handed the next queued item. *)
Lemma resumed_worker_dequeues (s : State) (i : nat) (r : JobRow.t) (d : QueueItem.t) :
  job jobId s = Some r → JobRow.status r = running →
  workers s !! i = Some WPoll → queue s !! queueIndex s = Some d →
  ∃ s', run jobId [Worker i; Worker i] s = Some s' ∧
        dequeues [Worker i; Worker i] s = [d] ∧
        workers s' !! i = Some (WScrape d) ∧
        queueIndex s' = S (queueIndex s).
Proof.
  intros Hj Hst Hw Hq.
  assert (i < length (workers s))%nat as Hlt by (by eapply lookup_lt_Some).
  assert (step jobId (Worker i) s = Some (set_worker i WGetNext s)) as H1.
  { unfold step, worker_step. rewrite Hw, Hj. unfold poll. by rewrite Hst. }
  assert (workers (set_worker i WGetNext s) !! i = Some WGetNext) as Hw1.
  { cbn. by apply list_lookup_insert_eq. }
  assert (step jobId (Worker i) (set_worker i WGetNext s) =
          Some (set_worker i (WScrape d)
                  (set_queueIndex (S (queueIndex s)) (set_worker i WGetNext s)))) as H2.
  { unfold step, worker_step. rewrite Hw1. cbn. by rewrite Hq. }
  eexists. cbn [run dequeues]. rewrite H1, H2. split; [reflexivity|].
  split; [|split; [|done]].
  - unfold dequeued_by. rewrite Hw, Hw1. cbn. by rewrite Hq.
  - cbn. apply list_lookup_insert_eq. by rewrite length_insert.
Qed.

End crawl_queue.



(** ** Crawl run: a consumer whose resolver was overwritten *)

Section lost_wake.
Context `{Env} (jobId : string).

Ltac step_cases Hs :=
  unfold step, main_step, main_throws, worker_step, on_response, handler_step,
    after_enrich, after_new, loop_head, finish_discovery, catch, push, call_wake,
    after_item, update_crawl_job, persistDiscovered, pause_crawl_job, resume_crawl_job in Hs;
  repeat case_match; simplify_eq.

(** The workers have been spawned (line 174 is behind). *)
Definition workers_spawned (pc : MainPc) : bool :=
  match pc with
  | MSelectJob | MSetRunning | MCreateContext => false
  | _ => true
  end.

(** Worker [i] waits in [getNext] on a promise whose resolver [wake] no
    longer holds, and the run has not written completed. *)
Definition stranded (i : nat) (s : State) : Prop :=
  workers s !! i = Some WBlocked ∧ wake s ≠ Some i ∧
  workers_spawned (main s) = true ∧ main s ≠ MSetCompleted.

Lemma stranded_step (i : nat) (e : Event) (s s' : State) :
  step jobId e s = Some s' → stranded i s → stranded i s'.
Proof.
  intros Hs (Hw & Hk & Hm & Hc). unfold stranded.
  assert (∀ ws, ws !! i = Some WBlocked → forallb is_returned ws = true → False) as Hall.
  { intros ws Hl Hf. rewrite forallb_forall in Hf.
    apply list_elem_of_lookup_2, list_elem_of_In, Hf in Hl. done. }
  destruct e; step_cases Hs; cbn in *;
    try (by exfalso; eauto);
    try match goal with
      | |- context [<[?j := _]> _] =>
          destruct (decide (i = j)) as [->|Hne];
          [congruence|rewrite list_lookup_insert_ne by done]
      end;
    repeat split; try done; try congruence;
    try match goal with Hx : main _ = _ |- _ => by rewrite Hx end.
Qed.

(** A stranded consumer stays suspended along every schedule, and the run
    never reaches the write of completed. *)
Lemma stranded_run (i : nat) (es : list Event) (s s' : State) :
  run jobId es s = Some s' → stranded i s → stranded i s'.
Proof.
  revert s. induction es as [|e es IH]; intros s Hr Hst; simpl in Hr; [by simplify_eq|].
  destruct (step jobId e s) as [s1|] eqn:Hs; [|done].
  eapply IH; [done|]. by eapply stranded_step.
Qed.

End lost_wake.

(** Two cards on the list page, two workers. Both workers pass their
    check and block in [getNext] before anything is queued; the first
    evaluation then queues models 101 and 102. *)
Definition two_workers_schedule : list Event :=
  [Main; Main; Main;                  (* lines 17-174: both workers spawned *)
   Worker 0; Worker 0;                (* worker 0 blocks: wake = its resolver *)
   Worker 1; Worker 1;                (* worker 1 blocks: wake is overwritten *)
   Main; Main; Main; Main; Main;      (* lines 176-247 *)
   Main;                              (* line 249-359: push wakes worker 1 only *)
   Worker 1; Worker 1; Worker 1; Worker 1; Worker 1; Worker 1;   (* model 101 *)
   Worker 1; Worker 1; Worker 1; Worker 1;                       (* model 102 *)
   Main; Main; Main; Main; Main;      (* lines 360-381: end of input *)
   Worker 1; Worker 1].               (* worker 1 finds no more work *)

(** C4, on the code: with two consumers blocked at once, the push and
    the end-of-input signal wake only the one that blocked last. Worker 0
    stays suspended along every continuation, so [await workerPromise]
    never resolves and the run never writes completed. *)
Theorem overwritten_wake_strands_consumer :
  ∃ s1 s2 s3,
    run (H := env_with [card "101"; card "102"]) "crawl_1"
      (take 7 two_workers_schedule) (start (fresh_db "2") t0) = Some s1 ∧
    workers s1 = [WBlocked; WBlocked] ∧ wake s1 = Some 1%nat ∧
    run (H := env_with [card "101"; card "102"]) "crawl_1"
      (take 6 (drop 7 two_workers_schedule)) s1 = Some s2 ∧
    length (queue s2) = 2%nat ∧ workers s2 = [WBlocked; WGetNext] ∧ wake s2 = None ∧
    run (H := env_with [card "101"; card "102"]) "crawl_1"
      (drop 13 two_workers_schedule) s2 = Some s3 ∧
    discoveryDone s3 = true ∧ queueIndex s3 = 2%nat ∧
    workers s3 = [WBlocked; WReturned] ∧ wake s3 = None ∧ main s3 = MAwaitWorkers ∧
    step (H := env_with [card "101"; card "102"]) "crawl_1" Main s3 = None ∧
    ∀ es s',
      run (H := env_with [card "101"; card "102"]) "crawl_1" es s3 = Some s' →
      workers s' !! 0%nat = Some WBlocked ∧ main s' ≠ MSetCompleted.
Proof.
  eexists _, _, _.
  split; [vm_compute; reflexivity|]. split; [reflexivity|]. split; [reflexivity|].
  split; [vm_compute; reflexivity|]. split; [reflexivity|]. split; [reflexivity|].
  split; [reflexivity|].
  split; [vm_compute; reflexivity|]. split; [reflexivity|]. split; [reflexivity|].
  split; [reflexivity|]. split; [reflexivity|]. split; [reflexivity|].
  split; [vm_compute; reflexivity|].
  intros es s' Hr.
  pose proof (stranded_run (H := env_with [card "101"; card "102"]) "crawl_1" 0 es _ s' Hr)
    as Hst.
  destruct Hst as (Hw & _ & _ & Hc); [|by split].
  repeat split; done.
Qed.

(** ** Crawl run: hard block on an item *)

(** One card, one worker: model 103 shows the challenge page. *)
Definition hard_block_schedule : list Event :=
  [Main; Main; Main;                  (* lines 17-174 *)
   Worker 0; Worker 0;                (* the worker blocks in getNext *)
   Main; Main; Main; Main; Main;      (* lines 176-247 *)
   Main;                              (* lines 249-359: model 103 is queued *)
   Worker 0;                          (* the worker takes it *)
   Main; Main; Main; Main; Main;      (* lines 360-383: end of input, await workerPromise *)
   Worker 0;                          (* the scrape throws CLOUDFLARE_BLOCKED *)
   Worker 0].                         (* line 157, then return *)

(** Two workers; a response that names model 101 is received while
    worker 0 scrapes model 103 and worker 1 is blocked in [getNext]. *)
Definition late_push_schedule : list Event :=
  [Main; Main; Main;
   Worker 0;                          (* worker 0 passes its check *)
   Main; Main; Main; Main; Main;
   Main;                              (* model 103 is queued *)
   Worker 0;                          (* worker 0 takes it *)
   Worker 1; Worker 1;                (* worker 1 passes its check and blocks *)
   Response (mkScan [Some (QueueItem.mk "101" (model_url "101"))] []);
   Worker 0;                          (* the scrape throws CLOUDFLARE_BLOCKED *)
   Worker 0].                         (* line 157, then return *)

(** C1, on the code. The worker that meets the hard block writes failed
    with [last_error] and [finished_at] and returns. (1) With one worker and
    discovery over, [await workerPromise] then resolves and line 385 writes
    completed over it: the run ends completed, with the hard block left in
    [last_error]. (2) With two workers, a worker blocked in [getNext] is
    woken by a later push, takes an item that was not in flight and
    counts it as processed, after the job was marked failed. *)
Theorem hard_block_then_completed :
  (∃ s1 s2,
     run (H := env_with [card "103"]) "crawl_1" hard_block_schedule
       (start (fresh_db "1") t0) = Some s1 ∧
     status_of s1 = Some failed ∧ last_error_of s1 = Some (Some CLOUDFLARE_BLOCKED) ∧
     finished_at_of s1 = Some (Some t0) ∧ workers s1 = [WReturned] ∧
     run (H := env_with [card "103"]) "crawl_1" [Main; Main; Main] s1 = Some s2 ∧
     main s2 = MDone ∧ status_of s2 = Some completed ∧
     last_error_of s2 = Some (Some CLOUDFLARE_BLOCKED)) ∧
  (∃ s1 s2,
     run (H := env_with [card "103"]) "crawl_1" late_push_schedule
       (start (fresh_db "2") t0) = Some s1 ∧
     status_of s1 = Some failed ∧ workers s1 = [WReturned; WBlocked] ∧
     queueIndex s1 = 1%nat ∧ length (queue s1) = 1%nat ∧ processed_count_of s1 = Some 0 ∧
     run (H := env_with [card "103"]) "crawl_1"
       [Handler 0; Worker 1; Worker 1; Worker 1; Worker 1; Worker 1; Worker 1] s1 = Some s2 ∧
     status_of s2 = Some failed ∧ queueIndex s2 = 2%nat ∧ processed_count_of s2 = Some 1).
Proof.
  split.
  - eexists _, _.
    split; [vm_compute; reflexivity|]. split; [vm_compute; reflexivity|].
    split; [vm_compute; reflexivity|]. split; [vm_compute; reflexivity|].
    split; [reflexivity|]. split; [vm_compute; reflexivity|]. split; [reflexivity|].
    split; vm_compute; reflexivity.
  - eexists _, _.
    split; [vm_compute; reflexivity|]. split; [vm_compute; reflexivity|].
    split; [reflexivity|]. split; [reflexivity|]. split; [reflexivity|].
    split; [vm_compute; reflexivity|]. split; [vm_compute; reflexivity|].
    split; [vm_compute; reflexivity|]. split; [reflexivity|]. vm_compute; reflexivity.
Qed.


(** ** Crawl run: counters *)

(** How many elements of a list satisfy a test. *)
Fixpoint tally {A} (f : A → bool) (l : list A) : Z :=
  match l with
  | [] => 0
  | x :: rest => (if f x then 1 else 0) + tally f rest
  end.

Lemma tally_app {A} (f : A → bool) (l k : list A) :
  tally f (l ++ k) = tally f l + tally f k.
Proof. induction l as [|x l IH]; simpl; [done|]. rewrite IH. lia. Qed.

Lemma tally_insert {A} (f : A → bool) (l : list A) (i : nat) (old new : A) :
  l !! i = Some old →
  tally f (<[i := new]> l) = tally f l - (if f old then 1 else 0) + (if f new then 1 else 0).
Proof.
  revert i. induction l as [|x l IH]; intros [|i] Hl; simpl in *; try done.
  - simplify_eq. lia.
  - rewrite (IH _ Hl). lia.
Qed.

Lemma tally_replicate {A} (f : A → bool) (n : nat) (x : A) :
  f x = false → tally f (replicate n x) = 0.
Proof. intros Hx. induction n as [|n IH]; simpl; [done|]. rewrite Hx, IH. done. Qed.

Lemma tally_nonneg {A} (f : A → bool) (l : list A) : 0 <= tally f l.
Proof. induction l as [|x l IH]; simpl; [done|]. destruct (f x); lia. Qed.



Section counters.
Context `{Env} (jobId : string).

Ltac step_cases Hs :=
  unfold step, main_step, main_throws, worker_step, on_response, handler_step,
    after_enrich, after_new, loop_head, finish_discovery, catch, push, call_wake,
    after_item, update_crawl_job, persistDiscovered, pause_crawl_job, resume_crawl_job in Hs;
  repeat case_match; simplify_eq.

(** What the Page Extractor does with a queued item. *)
Definition scrapes (d : QueueItem.t) : bool :=
  match scrapeModelPageInContext (QueueItem.url d) with
  | inr _ => true
  | inl _ => false
  end.

Definition hard_blocked (d : QueueItem.t) : bool :=
  match scrapeModelPageInContext (QueueItem.url d) with
  | inr _ => false
  | inl message => String.eqb message CLOUDFLARE_BLOCKED
  end.

(** The item fails with an error other than the hard block. *)
Definition fails (d : QueueItem.t) : bool :=
  match scrapeModelPageInContext (QueueItem.url d) with
  | inr _ => false
  | inl message => negb (String.eqb message CLOUDFLARE_BLOCKED)
  end.

(** A worker that holds an item it has not counted yet: as processed ... *)
Definition owes_processed (pc : WorkerPc) : bool :=
  match pc with
  | WScrape d => scrapes d
  | WUpdateModel _ | WDeleteImages _ | WInsertImages _ | WCount => true
  | _ => false
  end.

(** ... or as failed. *)
Definition owes_failed (pc : WorkerPc) : bool :=
  match pc with
  | WScrape d => fails d
  | WCountFailed _ => true
  | _ => false
  end.

(** The items handed to workers so far. *)
Definition taken (s : State) : list QueueItem.t := take (queueIndex s) (queue s).

(** The run is left alone: no browser failure, no clear-history, no
    removal of the record. Pause and resume requests may arrive. *)
Definition benign (e : Event) : Prop :=
  match e with
  | MainThrows _ | ClearRequest _ | RowDeleted => False
  | _ => True
  end.

(** The bookkeeping of a run whose record started with [p0] processed
    and [f0] failed items. *)
Record accounted (p0 f0 : Z) (s : State) : Prop := mkAccounted {
  acc_index : (queueIndex s ≤ length (queue s))%nat;
  acc_row :
    ∃ r, job jobId s = Some r ∧
      JobRow.processed_count r + tally owes_processed (workers s) = p0 + tally scrapes (taken s) ∧
      JobRow.failed_count r + tally owes_failed (workers s) = f0 + tally fails (taken s);
  acc_inflight : ∀ i d, workers s !! i = Some (WScrape d) → d ∈ taken s;
  acc_no_fatal :
    ∀ i pc, workers s !! i = Some pc → pc ≠ WDelay false ∧ ∀ m, pc ≠ WMarkFailed m;
  acc_unspawned : workers_spawned (main s) = false → workers s = [];
  acc_completed : main s = MSetCompleted → forallb is_returned (workers s) = true;
}.

Lemma forallb_lookup {A} (f : A → bool) (l : list A) (i : nat) (x : A) :
  forallb f l = true → l !! i = Some x → f x = true.
Proof.
  intros Hf Hl. rewrite forallb_forall in Hf.
  apply Hf. by apply list_elem_of_In, list_elem_of_lookup_2 with i.
Qed.

Lemma lookup_insert_cases {A} (l : list A) (i j : nat) (x y : A) :
  <[i := x]> l !! j = Some y → (j = i ∧ y = x) ∨ (j ≠ i ∧ l !! j = Some y).
Proof.
  intros Hl. destruct (decide (j = i)) as [->|Hne].
  - left. split; [done|]. apply list_lookup_insert_Some in Hl.
    destruct Hl as [(_ & Hx & _)|(Hne & _)]; [done|by destruct Hne].
  - right. by rewrite list_lookup_insert_ne in Hl.
Qed.

Lemma taken_push (s : State) (items : list QueueItem.t) :
  (queueIndex s ≤ length (queue s))%nat →
  take (queueIndex s) (queue s ++ items) = taken s.
Proof. intros Hi. unfold taken. by rewrite take_app_le. Qed.

Lemma taken_next (s : State) (d : QueueItem.t) :
  queue s !! queueIndex s = Some d →
  take (S (queueIndex s)) (queue s) = taken s ++ [d].
Proof. intros Hq. unfold taken. by apply take_S_r. Qed.

(** What one step adds to [processed_count] and to [failed_count]. *)
Definition counts_processed (e : Event) (s : State) : Z :=
  match e with
  | Worker i => match workers s !! i with Some WCount => 1 | _ => 0 end
  | _ => 0
  end.

Definition counts_failed (e : Event) (s : State) : Z :=
  match e with
  | Worker i => match workers s !! i with Some (WCountFailed _) => 1 | _ => 0 end
  | _ => 0
  end.

(** The step is not a scrape that meets the hard block. *)
Definition not_fatal (e : Event) (s : State) : Prop :=
  ∀ i d, e = Worker i → workers s !! i = Some (WScrape d) → hard_blocked d = false.

Ltac use_lookups :=
  repeat match goal with
    | Hl : workers _ !! _ = Some _ |- _ => rewrite !Hl in *
    | Hl : queue _ !! _ = Some _ |- _ => rewrite !Hl in *
    | Hl : queue _ !! _ = None |- _ => rewrite !Hl in *
    end.

Ltac use_tally :=
  repeat match goal with
    | Hl : ?ws !! ?i = Some _ |- context [tally _ (<[?i := _]> ?ws)] =>
        rewrite (tally_insert _ _ _ _ _ Hl)
    end.

Lemma step_row (e : Event) (s s' : State) (r : JobRow.t) :
  step jobId e s = Some s' → benign e → job jobId s = Some r →
  ∃ r', job jobId s' = Some r' ∧
    JobRow.processed_count r' = JobRow.processed_count r + counts_processed e s ∧
    JobRow.failed_count r' = JobRow.failed_count r + counts_failed e s.
Proof.
  intros Hs Hb Hj. unfold counts_processed, counts_failed.
  destruct e; try done; step_cases Hs; unfold job in *;
    cbn -[update_job lookup]; rewrite ?lookup_update_job;
    use_lookups;
    match goal with Hx : crawl_jobs _ !! _ = Some _ |- _ => rewrite Hx end;
    (eexists; split; [reflexivity|]); cbn; lia.
Qed.

Lemma step_owes_processed (e : Event) (s s' : State) :
  step jobId e s = Some s' → not_fatal e s →
  (workers_spawned (main s) = false → workers s = []) →
  tally owes_processed (workers s') =
  tally owes_processed (workers s) + tally scrapes (option_list (dequeued_by e s))
    - counts_processed e s.
Proof.
  intros Hs Hnf Hun. unfold counts_processed, dequeued_by.
  destruct e; step_cases Hs; cbn -[tally];
    try (match goal with
         | Hw : workers _ !! _ = Some (WScrape _) |- _ =>
             specialize (Hnf _ _ eq_refl Hw); unfold hard_blocked in Hnf
         end);
    use_tally; use_lookups; cbn; unfold scrapes, fails;
    repeat match goal with
      | Hx : scrapeModelPageInContext _ = _ |- _ => rewrite Hx in *
      end;
    rewrite ?tally_replicate by done;
    try (rewrite Hun by done);
    try congruence; cbn; try lia;
    repeat case_match; try congruence; try lia;
    by match goal with Hx : String.eqb _ _ = _ |- _ => rewrite Hx in * end.
Qed.

Lemma step_owes_failed (e : Event) (s s' : State) :
  step jobId e s = Some s' → not_fatal e s →
  (workers_spawned (main s) = false → workers s = []) →
  tally owes_failed (workers s') =
  tally owes_failed (workers s) + tally fails (option_list (dequeued_by e s))
    - counts_failed e s.
Proof.
  intros Hs Hnf Hun. unfold counts_failed, dequeued_by.
  destruct e; step_cases Hs; cbn -[tally];
    try (match goal with
         | Hw : workers _ !! _ = Some (WScrape _) |- _ =>
             specialize (Hnf _ _ eq_refl Hw); unfold hard_blocked in Hnf
         end);
    use_tally; use_lookups; cbn; unfold scrapes, fails;
    repeat match goal with
      | Hx : scrapeModelPageInContext _ = _ |- _ => rewrite Hx in *
      end;
    rewrite ?tally_replicate by done;
    try (rewrite Hun by done);
    try congruence; cbn; try lia;
    repeat case_match; try congruence; try lia;
    by match goal with Hx : String.eqb _ _ = _ |- _ => rewrite Hx in * end.
Qed.

Ltac split_inserts :=
  repeat match goal with
    | Hl : <[_ := _]> _ !! _ = Some _ |- _ =>
        apply lookup_insert_cases in Hl as [[-> ?]|[? Hl]]; simplify_eq
    | Hl : replicate _ _ !! _ = Some _ |- _ =>
        apply lookup_replicate in Hl as [? ?]; simplify_eq
    end.

(** A worker holds an item after a step only if it held it before or the
    step handed it out. *)
Lemma step_scrape_origin (e : Event) (s s' : State) (i : nat) (d : QueueItem.t) :
  step jobId e s = Some s' → workers s' !! i = Some (WScrape d) →
  workers s !! i = Some (WScrape d) ∨ dequeued_by e s = Some d.
Proof.
  intros Hs Hw. unfold dequeued_by.
  destruct e; step_cases Hs; cbn in *; split_inserts; use_lookups; auto.
Qed.

(** A worker is on the hard-block path after a step only if it was
    before or the step is a scrape that met the hard block. *)
Lemma step_fatal_origin (e : Event) (s s' : State) (i : nat) (pc : WorkerPc) :
  step jobId e s = Some s' → workers s' !! i = Some pc →
  (pc = WDelay false ∨ ∃ m, pc = WMarkFailed m) →
  (∃ pc0, workers s !! i = Some pc0 ∧ (pc0 = WDelay false ∨ ∃ m, pc0 = WMarkFailed m)) ∨
  ¬ not_fatal e s.
Proof.
  intros Hs Hw Hpc. unfold not_fatal.
  destruct e; step_cases Hs; cbn in *; split_inserts;
    try (destruct Hpc as [?|[? ?]]; simplify_eq; fail);
    try (left; eexists; split; [eassumption|]; by eauto);
    right; intros Hnf;
    match goal with
    | Hx : workers _ !! _ = Some (WScrape _) |- _ =>
        specialize (Hnf _ _ eq_refl Hx); unfold hard_blocked in Hnf
    end;
    match goal with
    | Hx : scrapeModelPageInContext _ = _ |- _ => rewrite Hx in Hnf
    end; congruence.
Qed.

Lemma step_unspawned (e : Event) (s s' : State) :
  step jobId e s = Some s' →
  (workers_spawned (main s) = false → workers s = []) →
  workers_spawned (main s') = false → workers s' = [].
Proof.
  intros Hs Hun Hsp.
  destruct e; step_cases Hs; cbn in *;
    try match goal with Hm : main _ = _ |- _ => rewrite Hm in *; cbn in * end;
    try done; rewrite ?Hun by done; try done.
Qed.

Lemma step_completed (e : Event) (s s' : State) :
  step jobId e s = Some s' →
  (main s = MSetCompleted → forallb is_returned (workers s) = true) →
  main s' = MSetCompleted → forallb is_returned (workers s') = true.
Proof.
  intros Hs Hc Hm.
  destruct e; step_cases Hs; cbn in *; try done;
    try match goal with Hx : main _ = _ |- _ => rewrite Hx in *; cbn in * end;
    try done; try (by apply Hc);
    try (specialize (Hc eq_refl);
         match goal with
         | Hx : workers _ !! _ = Some _ |- _ =>
             pose proof (forallb_lookup _ _ _ _ Hc Hx); done
         end).
Qed.

Lemma step_taken (e : Event) (s s' : State) :
  step jobId e s = Some s' → (queueIndex s ≤ length (queue s))%nat →
  taken s' = taken s ++ option_list (dequeued_by e s) ∧
  (queueIndex s' ≤ length (queue s'))%nat.
Proof.
  intros Hs Hi. destruct (step_queue jobId _ _ _ Hs) as [[k Hk] Hq].
  unfold taken. rewrite Hq, Hk.
  destruct (dequeued_by e s) as [d|] eqn:Hd; simpl.
  - assert (queue s !! queueIndex s = Some d) as Hl.
    { unfold dequeued_by in Hd. by repeat case_match. }
    pose proof (lookup_lt_Some _ _ _ Hl) as Hlt.
    rewrite Nat.add_1_r. rewrite take_app_le by lia.
    split; [by apply take_S_r|]. rewrite length_app. lia.
  - rewrite Nat.add_0_r. rewrite take_app_le by lia.
    split; [by rewrite app_nil_r|]. rewrite length_app. lia.
Qed.

Lemma run_taken (es : list Event) (s s' : State) :
  run jobId es s = Some s' → (queueIndex s ≤ length (queue s))%nat →
  ∀ d, d ∈ taken s → d ∈ taken s'.
Proof.
  revert s. induction es as [|e es IH]; intros s Hr Hi d Hd; simpl in Hr; [by simplify_eq|].
  destruct (step jobId e s) as [s1|] eqn:Hs; [|done].
  destruct (step_taken _ _ _ Hs Hi) as [Ht Hi1].
  apply (IH _ Hr Hi1). rewrite Ht. apply elem_of_app. by left.
Qed.

Lemma accounted_step (p0 f0 : Z) (e : Event) (s s' : State) :
  step jobId e s = Some s' → benign e →
  (∀ d, d ∈ taken s' → hard_blocked d = false) →
  accounted p0 f0 s → accounted p0 f0 s'.
Proof.
  intros Hs Hb Hnf [Hi (r & Hj & HP & HF) Hin Hno Hun Hcomp].
  destruct (step_taken _ _ _ Hs Hi) as [Ht Hi'].
  assert (not_fatal e s) as Hnot.
  { intros i d -> Hw. apply Hnf. rewrite Ht. apply elem_of_app. left. by eapply Hin. }
  destruct (step_row _ _ _ _ Hs Hb Hj) as (r' & Hj' & HP' & HF').
  pose proof (step_owes_processed _ _ _ Hs Hnot Hun) as HoP.
  pose proof (step_owes_failed _ _ _ Hs Hnot Hun) as HoF.
  split.
  - done.
  - exists r'. split; [done|]. rewrite Ht, !tally_app. lia.
  - intros i d Hw. rewrite Ht. apply elem_of_app.
    destruct (step_scrape_origin _ _ _ _ _ Hs Hw) as [Hw0| ->].
    + left. by eapply Hin.
    + right. by left.
  - intros i pc Hw.
    assert (¬ (pc = WDelay false ∨ ∃ m, pc = WMarkFailed m)) as Hpc.
    { intros Hpc. destruct (step_fatal_origin _ _ _ _ _ Hs Hw Hpc)
        as [(pc0 & Hw0 & Hpc0)|Hf]; [|done].
      destruct (Hno _ _ Hw0) as [Hd Hm]. destruct Hpc0 as [->|[m ->]]; [done|by eapply Hm]. }
    split; [by intros ->; apply Hpc; left|]. intros m ->. apply Hpc. right. by exists m.
  - by eapply step_unspawned.
  - by eapply step_completed.
Qed.

Lemma accounted_run (p0 f0 : Z) (es : list Event) (s s' : State) :
  run jobId es s = Some s' → Forall benign es →
  (∀ d, d ∈ taken s' → hard_blocked d = false) →
  accounted p0 f0 s → accounted p0 f0 s'.
Proof.
  revert s. induction es as [|e es IH]; intros s Hr Hb Hnf Hacc; simpl in Hr; [by simplify_eq|].
  destruct (step jobId e s) as [s1|] eqn:Hs; [|done].
  apply Forall_cons in Hb as [Hbe Hb].
  destruct (step_taken _ _ _ Hs (acc_index _ _ _ Hacc)) as [Ht Hi1].
  eapply IH; [done..|].
  eapply accounted_step; [done..| |done].
  intros d Hd. apply Hnf. by eapply run_taken.
Qed.

Lemma accounted_start (d : Database) (t : string) (r0 : JobRow.t) :
  crawl_jobs d !! jobId = Some r0 →
  accounted (JobRow.processed_count r0) (JobRow.failed_count r0) (start d t).
Proof.
  intros Hj. split; cbn; try done.
  - exists r0. split; [done|]. unfold taken. cbn. lia.
Qed.

End counters.

Section drained.
Context `{Env} (jobId : string).

Ltac step_cases Hs :=
  unfold step, main_step, main_throws, worker_step, on_response, handler_step,
    after_enrich, after_new, loop_head, finish_discovery, catch, push, call_wake,
    after_item, update_crawl_job, persistDiscovered, pause_crawl_job, resume_crawl_job in Hs;
  repeat case_match; simplify_eq.

Ltac split_inserts :=
  repeat match goal with
    | Hl : <[_ := _]> _ !! _ = Some _ |- _ =>
        apply lookup_insert_cases in Hl as [[-> ?]|[? Hl]]; simplify_eq
    | Hl : replicate _ _ !! _ = Some _ |- _ =>
        apply lookup_replicate in Hl as [? ?]; simplify_eq
    end.







End drained.

Section counter_accuracy.
Context `{Env} (jobId : string).









End counter_accuracy.

(** One worker, two cards: model 101 scrapes, model 102 times out. *)
Definition counted_schedule : list Event :=
  [Main; Main; Main;                  (* lines 17-174 *)
   Worker 0; Worker 0;                (* the worker blocks in getNext *)
   Main; Main; Main; Main; Main;      (* lines 176-247 *)
   Main;                              (* lines 249-359: both models are queued *)
   Worker 0;                          (* model 101 *)
   Main; Main;
   Worker 0; Worker 0; Worker 0; Worker 0; Worker 0;
   Main; Main;                        (* end of input *)
   Worker 0; Worker 0;                (* model 102 *)
   Worker 0; Worker 0;
   Main;                              (* await workerPromise *)
   Worker 0; Worker 0;                (* no more work *)
   Main].                             (* workerPromise resolves *)


(** ** A job that is run again, and a late response *)

(** A store after a crash of the process: job crawl_0 had completed,
    job crawl_1 was running with 5 items processed and 2 failed. *)
Definition crashed_db : Database :=
  mkDb {["crawl_0" :=
           JobRow.mk completed "2024-05-01T08:00:00.000Z" (Some "2024-05-01T08:00:01.000Z")
             (Some "2024-05-01T08:30:00.000Z") (run_config_text "1") 4 3 1 None;
         "crawl_1" :=
           JobRow.mk running "2024-05-01T09:00:00.000Z" (Some "2024-05-01T09:00:01.000Z")
             None (run_config_text "1") 7 5 2
             (Some "page.goto: Timeout 60000ms exceeded.")]}
    ∅ ∅ ∅ ∅.

(** The recovery on that store: job crawl_1 is set to queued, with its
    counters, and one timer is armed for it; job crawl_0 stays. *)
Lemma resume_recovers_witness :
  ∃ r,
    crawl_jobs (resume crashed_db).1 !! "crawl_1" = Some r ∧
    JobRow.status r = queued ∧ JobRow.finished_at r = None ∧
    JobRow.processed_count r = 5 ∧ JobRow.failed_count r = 2 ∧
    (resume crashed_db).2 = [RunCrawlJob "crawl_1" 200] ∧
    crawl_jobs (resume crashed_db).1 !! "crawl_0" = crawl_jobs crashed_db !! "crawl_0".
Proof.
  destruct (resume_recovers crashed_db)
    as (tc & tl & Htimers & [Hc _] & [_ Hl] & Hother & _).
  destruct Hc as (id & r & Hid & Hfin & Hst & _ & Hnew & Hrest & Htc).
  { eexists "crawl_1", _. split; [vm_compute; reflexivity|]. split; [reflexivity|by right]. }
  assert (id = "crawl_1" ∧ r = JobRow.mk running "2024-05-01T09:00:00.000Z"
            (Some "2024-05-01T09:00:01.000Z") None (run_config_text "1") 7 5 2
            (Some "page.goto: Timeout 60000ms exceeded.")) as [-> ->].
  { unfold crashed_db in Hid. cbn [crawl_jobs] in Hid.
    apply lookup_insert_Some in Hid. destruct Hid as [[Hk Hv]|[Hne Hid]].
    - rewrite <- Hv in Hfin. discriminate Hfin.
    - apply lookup_singleton_Some in Hid. destruct Hid as [Hk Hv].
      split; symmetry; assumption. }
  destruct Hl as [_ Htl].
  { intros id' r' Hid'. unfold crashed_db in Hid'. cbn [label_jobs] in Hid'.
    rewrite lookup_empty in Hid'. discriminate Hid'. }
  eexists. split; [exact Hnew|]. split; [reflexivity|]. split; [reflexivity|].
  split; [reflexivity|]. split; [reflexivity|].
  split; [rewrite Htimers, Htc, Htl; reflexivity|].
  apply (Hother "crawl_0" _); [vm_compute; reflexivity|].
  left. discriminate.
Defined.


(** A response of the list page that is still being read when the
    workers return: its model is queued after the end of input, no
    worker takes it, and the run ends completed with one queued item
    that was neither processed nor failed. *)
Definition late_response_schedule : list Event :=
  [Main; Main; Main;
   Worker 0; Worker 0;
   Main;                              (* lines 176-236: the listener is on *)
   Response (mkScan [Some (QueueItem.mk "104" (model_url "104"))] []);
   Main; Main; Main; Main;
   Main;
   Worker 0;
   Main; Main;
   Worker 0; Worker 0; Worker 0; Worker 0; Worker 0;
   Main; Main;                        (* end of input *)
   Worker 0; Worker 0;
   Worker 0; Worker 0;
   Main;
   Worker 0; Worker 0;                (* no more work: the worker returns *)
   Handler 0;                         (* the response is read: model 104 is queued *)
   Main; Main].                       (* workerPromise resolves; line 385 *)

Lemma late_response_left_queued :
  ∃ s,
    run (H := env_with [card "101"; card "102"]) "crawl_1" late_response_schedule
      (start (fresh_db "1") t0) = Some s ∧
    length (queue s) = 3%nat ∧ queueIndex s = 2%nat ∧
    status_of s = Some completed ∧ processed_count_of s = Some 1 ∧
    JobRow.failed_count <$> job "crawl_1" s = Some 1.
Proof.
  eexists. split; [vm_compute; reflexivity|].
  split; [vm_compute; reflexivity|]. split; [vm_compute; reflexivity|].
  split; [vm_compute; reflexivity|]. split; vm_compute; reflexivity.
Qed.

Section one_worker.
Context `{Env} (jobId : string).

(** The record says running. *)
Definition is_running (s : State) : Prop :=
  ∃ r, job jobId s = Some r ∧ JobRow.status r = running.

Lemma run_app (es1 es2 : list Event) (s s1 : State) :
  run jobId es1 s = Some s1 → run jobId (es1 ++ es2) s = run jobId es2 s1.
Proof.
  revert s. induction es1 as [|e es1 IH]; intros s Hr; simpl in *; [by simplify_eq|].
  destruct (step jobId e s); [by apply IH|done].
Qed.

Lemma job_set_worker (i : nat) (pc : WorkerPc) (s : State) :
  job jobId (set_worker i pc s) = job jobId s.
Proof. reflexivity. Qed.

Lemma job_set_queueIndex (n : nat) (s : State) : job jobId (set_queueIndex n s) = job jobId s.
Proof. reflexivity. Qed.

Lemma job_with_models (f : gmap string ModelRow.t → gmap string ModelRow.t) (s : State) :
  job jobId (set_db (with_models f) s) = job jobId s.
Proof. reflexivity. Qed.

Lemma job_with_model_images (f : gmap string (list string) → gmap string (list string))
    (s : State) :
  job jobId (set_db (with_model_images f) s) = job jobId s.
Proof. reflexivity. Qed.

Lemma job_update_crawl_job (f : JobRow.t → JobRow.t) (s : State) :
  job jobId (update_crawl_job jobId f s) = f <$> job jobId s.
Proof. unfold job, update_crawl_job. cbn -[update_job lookup]. apply lookup_update_job. Qed.

(** What a worker step leaves alone. *)
Lemma worker_frame (i : nat) (s s' : State) :
  step jobId (Worker i) s = Some s' →
  queue s' = queue s ∧ main s' = main s ∧ discoveryDone s' = discoveryDone s ∧
  config s' = config s ∧ length (workers s') = length (workers s).
Proof.
  intros Hs. unfold step, worker_step, after_item, update_crawl_job in Hs.
  repeat case_match; simplify_eq; cbn; rewrite ?length_insert; done.
Qed.

Lemma set_worker_lookup (i : nat) (pc pc0 : WorkerPc) (s : State) :
  workers s !! i = Some pc0 → workers (set_worker i pc s) !! i = Some pc.
Proof. intros Hl. cbn. apply list_lookup_insert_eq. by eapply lookup_lt_Some. Qed.

(** An enabled worker step, by the place the worker is at: the place it
    moves to, the queue index, and that the record still says running. *)
Lemma worker_progress (i : nat) (s : State) (pc : WorkerPc) :
  workers s !! i = Some pc → is_running s →
  match pc with
  | WPoll =>
      ∃ s', step jobId (Worker i) s = Some s' ∧ workers s' !! i = Some WGetNext ∧
            queueIndex s' = queueIndex s ∧ is_running s'
  | WGetNext =>
      match queue s !! queueIndex s with
      | Some d =>
          ∃ s', step jobId (Worker i) s = Some s' ∧ workers s' !! i = Some (WScrape d) ∧
                queueIndex s' = S (queueIndex s) ∧ is_running s'
      | None =>
          discoveryDone s = true →
          ∃ s', step jobId (Worker i) s = Some s' ∧ workers s' !! i = Some WReturned ∧
                queueIndex s' = queueIndex s ∧ is_running s'
      end
  | WScrape d =>
      hard_blocked d = false →
      ∃ s' pc', step jobId (Worker i) s = Some s' ∧ workers s' !! i = Some pc' ∧
                (pc' = WCount ∨ (∃ m, pc' = WCountFailed m) ∨ (∃ sc, pc' = WUpdateModel sc)) ∧
                queueIndex s' = queueIndex s ∧ is_running s'
  | WUpdateModel sc =>
      ∃ s', step jobId (Worker i) s = Some s' ∧ workers s' !! i = Some (WDeleteImages sc) ∧
            queueIndex s' = queueIndex s ∧ is_running s'
  | WDeleteImages sc =>
      ∃ s' pc', step jobId (Worker i) s = Some s' ∧ workers s' !! i = Some pc' ∧
                (pc' = WCount ∨ pc' = WInsertImages sc) ∧
                queueIndex s' = queueIndex s ∧ is_running s'
  | WInsertImages sc =>
      ∃ s', step jobId (Worker i) s = Some s' ∧ workers s' !! i = Some WCount ∧
            queueIndex s' = queueIndex s ∧ is_running s'
  | WCount | WCountFailed _ =>
      ∃ s' pc', step jobId (Worker i) s = Some s' ∧ workers s' !! i = Some pc' ∧
                (pc' = WPoll ∨ pc' = WDelay true) ∧
                queueIndex s' = queueIndex s ∧ is_running s'
  | WDelay true =>
      ∃ s', step jobId (Worker i) s = Some s' ∧ workers s' !! i = Some WPoll ∧
            queueIndex s' = queueIndex s ∧ is_running s'
  | _ => True
  end.
Proof.
  intros Hw (r & Hj & Hst).
  assert (∀ f, (∀ r, JobRow.status (f r) = JobRow.status r) →
               is_running (update_crawl_job jobId f s)) as Hupd.
  { intros f Hf. exists (f r). rewrite job_update_crawl_job, Hj. split; [done|]. by rewrite Hf. }
  assert (is_running s) as Hrun by (by exists r).
  destruct pc as [| | |d|sc|sc|sc| | | |[|]| |]; try done; unfold step, worker_step; rewrite Hw.
  - rewrite Hj. unfold poll. rewrite Hst. eexists. split; [done|].
    split; [by eapply set_worker_lookup|]. split; [done|]. by exists r.
  - destruct (queue s !! queueIndex s) as [d|] eqn:Hq.
    + eexists. split; [done|]. split; [by eapply set_worker_lookup|]. split; [done|]. by exists r.
    + intros ->. eexists. split; [done|]. split; [by eapply set_worker_lookup|].
      split; [done|]. by exists r.
  - unfold hard_blocked. intros Hnb.
    destruct (scrapeModelPageInContext (QueueItem.url d)) as [m|sc].
    + rewrite Hnb. eexists _, _. split; [done|]. split; [by eapply set_worker_lookup|].
      split; [right; left; by eexists|]. split; [done|]. by exists r.
    + eexists _, _. split; [done|]. split; [by eapply set_worker_lookup|].
      split; [right; right; by eexists|]. split; [done|]. by exists r.
  - eexists. split; [done|]. split; [by eapply set_worker_lookup|]. split; [done|]. by exists r.
  - eexists _, _. split; [done|]. split; [by eapply set_worker_lookup|].
    split; [by destruct (ScrapedModel.imageUrls sc); [left|right]|]. split; [done|]. by exists r.
  - eexists. split; [done|]. split; [by eapply set_worker_lookup|]. split; [done|]. by exists r.
  - eexists _, _. split; [done|]. split; [by eapply set_worker_lookup|].
    split; [unfold after_item; case_match; [by right|by left]|]. split; [done|].
    unfold is_running. rewrite job_set_worker. by apply Hupd.
  - eexists _, _. split; [done|]. split; [by eapply set_worker_lookup|].
    split; [unfold after_item; case_match; [by right|by left]|]. split; [done|].
    unfold is_running. rewrite job_set_worker. by apply Hupd.
  - eexists. split; [done|]. split; [by eapply set_worker_lookup|]. split; [done|]. by exists r.
Qed.

(** [s'] is reached from [s] by steps of worker [i] alone. *)
Definition worker_reaches (i : nat) (s s' : State) : Prop :=
  ∃ es, run jobId es s = Some s' ∧ Forall (λ e, e = Worker i) es.

Lemma worker_reaches_refl (i : nat) (s : State) : worker_reaches i s s.
Proof. by exists []. Qed.

Lemma worker_reaches_step (i : nat) (s s1 s2 : State) :
  step jobId (Worker i) s = Some s1 → worker_reaches i s1 s2 → worker_reaches i s s2.
Proof.
  intros Hs (es & Hr & Hf). exists (Worker i :: es). split; [by cbn [run]; rewrite Hs|].
  by apply Forall_cons.
Qed.

Lemma worker_reaches_trans (i : nat) (s s1 s2 : State) :
  worker_reaches i s s1 → worker_reaches i s1 s2 → worker_reaches i s s2.
Proof.
  intros (es1 & Hr1 & Hf1) (es2 & Hr2 & Hf2). exists (es1 ++ es2).
  split; [by rewrite (run_app _ _ _ _ Hr1)|by apply Forall_app].
Qed.

Lemma worker_reaches_frame (i : nat) (s s' : State) :
  worker_reaches i s s' →
  queue s' = queue s ∧ main s' = main s ∧ discoveryDone s' = discoveryDone s ∧
  config s' = config s ∧ length (workers s') = length (workers s).
Proof.
  intros (es & Hr & Hf). revert s Hr.
  induction es as [|e es IH]; intros s Hr; cbn [run] in Hr; [by simplify_eq|].
  apply Forall_cons in Hf as [-> Hf].
  destruct (step jobId (Worker i) s) as [s1|] eqn:Hs; [|done].
  destruct (worker_frame _ _ _ Hs) as (? & ? & ? & ? & ?).
  destruct (IH Hf _ Hr) as (? & ? & ? & ? & ?). repeat split; congruence.
Qed.

(** From the count of an item the worker comes back to its check. *)
Lemma worker_counts (i : nat) (s : State) (pc : WorkerPc) :
  workers s !! i = Some pc → (pc = WCount ∨ ∃ m, pc = WCountFailed m) → is_running s →
  ∃ s', worker_reaches i s s' ∧ workers s' !! i = Some WPoll ∧
        queueIndex s' = queueIndex s ∧ is_running s'.
Proof.
  intros Hw Hpc Hrun.
  assert (∃ s1 pc1, step jobId (Worker i) s = Some s1 ∧ workers s1 !! i = Some pc1 ∧
            (pc1 = WPoll ∨ pc1 = WDelay true) ∧ queueIndex s1 = queueIndex s ∧ is_running s1)
    as (s1 & pc1 & Hs1 & Hw1 & Hpc1 & Hi1 & Hrun1).
  { pose proof (worker_progress i s pc Hw Hrun) as Hp. by destruct Hpc as [->|[m ->]]. }
  destruct Hpc1 as [->| ->].
  - exists s1. split; [|done]. eapply worker_reaches_step; [done|apply worker_reaches_refl].
  - destruct (worker_progress i s1 _ Hw1 Hrun1) as (s2 & Hs2 & Hw2 & Hi2 & Hrun2).
    exists s2. split; [|split; [done|split; [congruence|done]]].
    eapply worker_reaches_step; [done|].
    eapply worker_reaches_step; [done|apply worker_reaches_refl].
Qed.

(** A worker at its check, with the job running and an item queued that
    does not meet the hard block, takes the item, counts it and comes back
    to its check. *)
Lemma worker_item (i : nat) (s : State) (d : QueueItem.t) :
  workers s !! i = Some WPoll → is_running s →
  queue s !! queueIndex s = Some d → hard_blocked d = false →
  ∃ s', worker_reaches i s s' ∧ workers s' !! i = Some WPoll ∧
        queueIndex s' = S (queueIndex s) ∧ is_running s'.
Proof.
  intros Hw Hrun Hq Hnb.
  destruct (worker_progress i s _ Hw Hrun) as (s1 & Hs1 & Hw1 & Hi1 & Hrun1).
  destruct (worker_frame _ _ _ Hs1) as (Hq1 & _).
  pose proof (worker_progress i s1 _ Hw1 Hrun1) as Hp2. simpl in Hp2.
  rewrite Hi1, Hq1, Hq in Hp2. destruct Hp2 as (s2 & Hs2 & Hw2 & Hi2 & Hrun2).
  destruct (worker_progress i s2 _ Hw2 Hrun2 Hnb) as (s3 & pc3 & Hs3 & Hw3 & Hpc3 & Hi3 & Hrun3).
  assert (∃ s4 pc4, worker_reaches i s3 s4 ∧ workers s4 !! i = Some pc4 ∧
            (pc4 = WCount ∨ ∃ m, pc4 = WCountFailed m) ∧
            queueIndex s4 = queueIndex s3 ∧ is_running s4)
    as (s4 & pc4 & Hr4 & Hw4 & Hpc4 & Hi4 & Hrun4).
  { destruct Hpc3 as [->|[[m ->]|[sc ->]]].
    - exists s3, WCount. split; [apply worker_reaches_refl|]. split; [done|]. split; [by left|done].
    - exists s3, (WCountFailed m). split; [apply worker_reaches_refl|]. split; [done|].
      split; [right; by exists m|done].
    - destruct (worker_progress i s3 _ Hw3 Hrun3) as (s5 & Hs5 & Hw5 & Hi5 & Hrun5).
      destruct (worker_progress i s5 _ Hw5 Hrun5)
        as (s6 & pc6 & Hs6 & Hw6 & Hpc6 & Hi6 & Hrun6).
      destruct Hpc6 as [->| ->].
      + exists s6, WCount. split; [|split; [done|split; [by left|split; [congruence|done]]]].
        eapply worker_reaches_step; [done|].
        eapply worker_reaches_step; [done|apply worker_reaches_refl].
      + destruct (worker_progress i s6 _ Hw6 Hrun6) as (s7 & Hs7 & Hw7 & Hi7 & Hrun7).
        exists s7, WCount. split; [|split; [done|split; [by left|split; [congruence|done]]]].
        eapply worker_reaches_step; [done|].
        eapply worker_reaches_step; [done|].
        eapply worker_reaches_step; [done|apply worker_reaches_refl]. }
  destruct (worker_counts i s4 pc4 Hw4 Hpc4 Hrun4) as (s' & Hr' & Hw' & Hi' & Hrun').
  exists s'. split; [|split; [done|split; [congruence|done]]].
  eapply worker_reaches_step; [done|].
  eapply worker_reaches_step; [done|].
  eapply worker_reaches_step; [done|].
  by eapply worker_reaches_trans.
Qed.

(** After the end of input a worker at its check, left to run while the
    job is running, works off what is left of the queue and returns. *)
Lemma worker_drains (i : nat) (n : nat) (s : State) :
  (length (queue s) - queueIndex s)%nat = n →
  workers s !! i = Some WPoll → is_running s → discoveryDone s = true →
  (∀ d, d ∈ drop (queueIndex s) (queue s) → hard_blocked d = false) →
  ∃ s', worker_reaches i s s' ∧ workers s' !! i = Some WReturned ∧
        (length (queue s) ≤ queueIndex s')%nat ∧ is_running s'.
Proof.
  revert s. induction n as [|n IH]; intros s Hn Hw Hrun Hdone Hnb.
  - destruct (worker_progress i s _ Hw Hrun) as (s1 & Hs1 & Hw1 & Hi1 & Hrun1).
    destruct (worker_frame _ _ _ Hs1) as (Hq1 & _ & Hd1 & _).
    pose proof (worker_progress i s1 _ Hw1 Hrun1) as Hp2. simpl in Hp2.
    rewrite Hi1, Hq1 in Hp2.
    rewrite (lookup_ge_None_2 (queue s) (queueIndex s)) in Hp2 by lia.
    destruct Hp2 as (s2 & Hs2 & Hw2 & Hi2 & Hrun2); [congruence|].
    exists s2. split; [|split; [done|split; [lia|done]]].
    eapply worker_reaches_step; [done|].
    eapply worker_reaches_step; [done|apply worker_reaches_refl].
  - destruct (lookup_lt_is_Some_2 (queue s) (queueIndex s)) as [d Hq]; [lia|].
    destruct (worker_item i s d Hw Hrun Hq) as (s1 & Hr1 & Hw1 & Hi1 & Hrun1).
    { apply Hnb. rewrite (drop_S _ _ _ Hq). by left. }
    destruct (worker_reaches_frame _ _ _ Hr1) as (Hq1 & _ & Hd1 & _).
    destruct (IH s1) as (s' & Hr' & Hw' & Hi' & Hrun'); [rewrite Hq1; lia|done..|congruence| |].
    + intros x Hx. apply Hnb. rewrite Hi1, Hq1 in Hx.
      rewrite (drop_S _ _ _ Hq). by right.
    + exists s'. split; [by eapply worker_reaches_trans|]. rewrite Hq1 in Hi'. done.
Qed.

(** With one worker, once discovery is over and [runCrawlJob] awaits
    [workerPromise], a run in which the job stays running and no queued
    item meets the hard block comes to line 385 with the whole queue
    handed out: the worker's steps and one step of [runCrawlJob] suffice. *)
Theorem one_worker_completes (s : State) :
  main s = MAwaitWorkers → workers s = [WPoll] → is_running s → discoveryDone s = true →
  (∀ d, d ∈ drop (queueIndex s) (queue s) → hard_blocked d = false) →
  ∃ es s',
    run jobId es s = Some s' ∧ Forall (benign) es ∧
    main s' = MSetCompleted ∧ queue s' = queue s ∧
    (length (queue s') ≤ queueIndex s')%nat.
Proof.
  intros Hm Hw Hrun Hdone Hnb.
  destruct (worker_drains 0%nat _ s eq_refl) as (s1 & (es & Hr & Hf) & Hw1 & Hi1 & Hrun1);
    [by rewrite Hw|done..|].
  destruct (worker_reaches_frame 0%nat s s1) as (Hq1 & Hm1 & _ & _ & Hl1); [by exists es|].
  assert (workers s1 = [WReturned]) as Hws.
  { rewrite Hw in Hl1. destruct (workers s1) as [|pc [|? ?]]; simpl in *; try done.
    by simplify_eq. }
  exists (es ++ [Main]). eexists. split.
  - rewrite (run_app _ _ _ _ Hr). cbn [run]. unfold step, main_step. rewrite Hm1, Hm, Hws. simpl.
    reflexivity.
  - split; [|cbn; rewrite Hq1; by split].
    apply Forall_app. split; [|by repeat constructor].
    eapply Forall_impl; [done|]. by intros e ->.
Qed.

End one_worker.

(** ** Crawl run: a worker with an item in hand *)

Section in_flight.
Context `{Env} (jobId : string).









End in_flight.

(** ** Cancellation *)






Section cancelled.
Context `{Env} (jobId : string).










End cancelled.

(** The same with model 103, on which the Page Extractor meets the
    challenge page: after the clear and the return of [runCrawlJob] the
    worker writes failed over the record again, with its own message and
    its own [finished_at]. *)
Definition cleared_schedule_103 : list Event :=
  [Main; Main; Main; Main;
   Response (mkScan [Some (QueueItem.mk "103" (model_url "103"))] []);
   Handler 0; Worker 0; Worker 0; Main; Main; Main;
   ClearRequest "CLEARED_BY_NEW_CRAWL"].

Lemma in_flight_hard_block_overwrites :
  ∃ s1 s2 s3,
    run (H := env_with []) "crawl_1" cleared_schedule_103 (start (fresh_db "1") t0) = Some s1 ∧
    status_of s1 = Some failed ∧ finished_at_of s1 = Some (Some t0) ∧
    last_error_of s1 = Some (Some "CLEARED_BY_NEW_CRAWL") ∧
    run (H := env_with []) "crawl_1" [Main; Main] s1 = Some s2 ∧
    main s2 = MDone ∧ db s2 = db s1 ∧
    run (H := env_with []) "crawl_1"
      [Tick "2024-05-01T10:00:09.000Z"; Worker 0; Worker 0] s2 = Some s3 ∧
    status_of s3 = Some failed ∧
    finished_at_of s3 = Some (Some "2024-05-01T10:00:09.000Z") ∧
    last_error_of s3 = Some (Some CLOUDFLARE_BLOCKED).
Proof.
  eexists _, _, _.
  split; [vm_compute; reflexivity|]. split; [vm_compute; reflexivity|].
  split; [vm_compute; reflexivity|]. split; [vm_compute; reflexivity|].
  split; [vm_compute; reflexivity|]. split; [reflexivity|]. split; [reflexivity|].
  split; [vm_compute; reflexivity|]. split; [vm_compute; reflexivity|].
  split; vm_compute; reflexivity.
Qed.

Section unwound.
Context `{Env} (jobId : string).


End unwound.

(** ** Crawl run: pause and resume *)

Section pause_gate.
Context `{Env} (jobId : string).





End pause_gate.




(** * Further properties *)

(** ** Clearing the history (index.ts, lines 47-62 and 105-120) *)

(** No record of the table is unfinished. *)
Definition all_finished (t : gmap string JobRow.t) : Prop :=
  ∀ id r, t !! id = Some r → JobRow.finished_at r ≠ None.

Lemma update_unfinished_lookup (f : JobRow.t → JobRow.t) (t : gmap string JobRow.t)
    (id : string) :
  update_unfinished f t !! id
  = (λ r, if bool_decide (JobRow.finished_at r = None) then f r else r) <$> t !! id.
Proof. unfold update_unfinished. by rewrite lookup_fmap. Qed.

Lemma update_unfinished_all_finished (now message : string) (t : gmap string JobRow.t) :
  all_finished (update_unfinished (set_failed now message) t).
Proof.
  intros id r. rewrite update_unfinished_lookup.
  destruct (t !! id) as [r0|]; simpl; [|done].
  intros [= <-]. by case_bool_decide.
Qed.

Lemma update_unfinished_fixed (f : JobRow.t → JobRow.t) (t : gmap string JobRow.t) :
  all_finished t → update_unfinished f t = t.
Proof.
  intros Hfin. apply map_eq. intros id. rewrite update_unfinished_lookup.
  destruct (t !! id) as [r|] eqn:Hl; simpl; [|done].
  case_bool_decide; [|done]. by destruct (Hfin id r Hl).
Qed.

Lemma filter_none {A} (P : A → Prop) `{∀ x, Decision (P x)} (l : list A) :
  (∀ x, x ∈ l → ¬ P x) → filter P l = [].
Proof.
  induction l as [|x l IH]; intros Hl; [done|].
  rewrite filter_cons. destruct (decide (P x)) as [Hp|_].
  - destruct (Hl x); [by left|done].
  - apply IH. intros y Hy. apply Hl. by right.
Qed.

Lemma select_resumable_all_finished (t : gmap string JobRow.t) :
  all_finished t → select_resumable t = None.
Proof.
  intros Hfin. unfold select_resumable. rewrite filter_none; [done|].
  intros [id r] Hin%elem_of_map_to_list. simpl. unfold resumable.
  rewrite bool_decide_eq_false_2; [done|by apply (Hfin id)].
Qed.

(** After the clear-history block no job of either kind is unfinished and
    the three item tables are empty. A second clear-history then changes
    nothing, so the time and message of the first stand, and the recovery
    at process start finds no job to run again. *)
Theorem clearHistory_settles (now message : string) (d : Database) :
  let d' := clearHistory now message d in
  all_finished (crawl_jobs d') ∧ all_finished (label_jobs d') ∧
  models d' = ∅ ∧ model_images d' = ∅ ∧ model_labels d' = ∅ ∧
  (∀ now2 message2, clearHistory now2 message2 d' = d') ∧
  resume d' = (d', []).
Proof.
  simpl.
  pose proof (update_unfinished_all_finished now message (crawl_jobs d)) as Hc.
  pose proof (update_unfinished_all_finished now message (label_jobs d)) as Hl.
  split; [done|]. split; [done|]. split; [done|]. split; [done|]. split; [done|].
  split.
  - intros now2 message2. unfold clearHistory. simpl.
    by rewrite (update_unfinished_fixed _ _ Hc), (update_unfinished_fixed _ _ Hl).
  - unfold resume. simpl. by rewrite !select_resumable_all_finished.
Qed.

(** A finished job keeps its record through a clear-history; an
    unfinished one is failed at the given time with the given message and
    keeps its counters. *)
Theorem clearHistory_job (now message : string) (d : Database) (id : string) (r : JobRow.t) :
  crawl_jobs d !! id = Some r →
  ∃ r', crawl_jobs (clearHistory now message d) !! id = Some r' ∧
    (JobRow.finished_at r ≠ None → r' = r) ∧
    (JobRow.finished_at r = None →
       JobRow.status r' = failed ∧ JobRow.finished_at r' = Some now ∧
       JobRow.last_error r' = Some message ∧
       JobRow.discovered_count r' = JobRow.discovered_count r ∧
       JobRow.processed_count r' = JobRow.processed_count r ∧
       JobRow.failed_count r' = JobRow.failed_count r).
Proof.
  intros Hl. eexists. simpl. rewrite update_unfinished_lookup, Hl. simpl.
  split; [done|]. by case_bool_decide.
Qed.

Lemma singleton_list {A} (l : list A) (x : A) :
  NoDup l → (∀ y, y ∈ l ↔ y = x) → l = [x].
Proof.
  intros Hnd Hin. destruct l as [|a l].
  { pose proof (proj2 (Hin x) eq_refl) as Hx. by apply elem_of_nil in Hx. }
  assert (a = x) as -> by (apply Hin; by left).
  destruct l as [|b l]; [done|].
  assert (b = x) as -> by (apply Hin; right; by left).
  apply NoDup_cons in Hnd as [Hnd _]. destruct Hnd. by left.
Qed.

Lemma select_resumable_only (t : gmap string JobRow.t) (id : string) (r : JobRow.t) :
  all_finished t → t !! id = None → resumable r = true →
  select_resumable (<[id := r]> t) = Some (id, r).
Proof.
  intros Hfin Hfresh Hres. unfold select_resumable.
  rewrite (singleton_list _ (id, r)); [done| |].
  - apply NoDup_filter, NoDup_map_to_list.
  - intros [id' r']. rewrite list_elem_of_filter, elem_of_map_to_list. simpl.
    split.
    + intros [Hr' Hl']. apply lookup_insert_Some in Hl' as [[-> ->]|[_ Hl']]; [done|].
      unfold resumable in Hr'. rewrite bool_decide_eq_false_2 in Hr'; [done|].
      by apply (Hfin id').
    + intros [= -> ->]. split; [done|]. by rewrite lookup_insert_eq.
Qed.

(** A crawl job created with [clearHistory] is the only unfinished job
    of the store: it is queued with its counters at zero, one timer is
    armed for it, and a recovery run before the job has started picks
    exactly this job and leaves the store as it is. *)
Theorem post_crawl_job_clears (id now config : string) (d : Database) :
  crawl_jobs d !! id = None →
  ∃ d1,
    post_crawl_job id now config true d = (d1, [RunCrawlJob id 50]) ∧
    crawl_jobs d1 !! id = Some (new_job now config) ∧
    (∀ id' r, id' ≠ id → crawl_jobs d1 !! id' = Some r → JobRow.finished_at r ≠ None) ∧
    all_finished (label_jobs d1) ∧ models d1 = ∅ ∧
    resume d1 = (d1, [RunCrawlJob id 200]).
Proof.
  intros Hfresh. eexists. split; [reflexivity|]. simpl.
  pose proof (update_unfinished_all_finished now "CLEARED_BY_NEW_CRAWL" (crawl_jobs d)) as Hc.
  pose proof (update_unfinished_all_finished now "CLEARED_BY_NEW_CRAWL" (label_jobs d)) as Hl.
  split; [by rewrite lookup_insert_eq|].
  split; [intros id' r Hne; rewrite lookup_insert_ne by done; apply Hc|].
  split; [done|]. split; [done|].
  unfold resume. simpl. rewrite select_resumable_only; [|done| |done].
  - simpl. rewrite select_resumable_all_finished by done.
    f_equal. unfold with_crawl_jobs. simpl. f_equal.
    unfold update_job. apply map_eq. intros k.
    destruct (decide (k = id)) as [->|Hne].
    + by rewrite lookup_alter_eq, lookup_insert_eq.
    + by rewrite lookup_alter_ne by done.
  - by rewrite update_unfinished_lookup, Hfresh.
Qed.

Lemma post_crawl_job_clears_witness :
  ∃ d1,
    post_crawl_job "crawl_2" t0 (run_config_text "1") true (fresh_db "1")
      = (d1, [RunCrawlJob "crawl_2" 50]) ∧
    resume d1 = (d1, [RunCrawlJob "crawl_2" 200]).
Proof.
  destruct (post_crawl_job_clears "crawl_2" t0 (run_config_text "1") (fresh_db "1"))
    as (d1 & Hp & _ & _ & _ & _ & Hr).
  - vm_compute. reflexivity.
  - exists d1. split; [exact Hp|exact Hr].
Defined.

Lemma clearHistory_job_witness :
  ∃ r', crawl_jobs (clearHistory t0 "CLEARED_BY_IMPORT" (fresh_db "1")) !! "crawl_1" = Some r' ∧
        JobRow.status r' = failed.
Proof.
  destruct (clearHistory_job t0 "CLEARED_BY_IMPORT" (fresh_db "1") "crawl_1"
              (new_job "2024-05-01T10:00:00.000Z" (run_config_text "1")))
    as (r' & Hl & _ & Hf).
  - vm_compute. reflexivity.
  - exists r'. split; [exact Hl|]. by destruct Hf as [? _].
Defined.

(** ** Crawl run: the single wake slot, in general *)

Section blocked_twice.
Context `{Env} (jobId : string).

(** Whenever a worker calls [getNext] on a drained queue before the end
    of input while worker [i] is suspended there, its resolver takes the
    place of worker [i]'s in [wake]; from then on, whatever is pushed and
    whenever the input ends, worker [i] stays suspended, and the run never
    comes to write completed. *)
Theorem second_blocker_strands_first (s : State) (i j : nat) :
  i ≠ j →
  workers s !! i = Some WBlocked → workers s !! j = Some WGetNext →
  queue s !! queueIndex s = None → discoveryDone s = false →
  workers_spawned (main s) = true → main s ≠ MSetCompleted →
  ∃ s1, step jobId (Worker j) s = Some s1 ∧ wake s1 = Some j ∧
        workers s1 !! j = Some WBlocked ∧
        ∀ es s', run jobId es s1 = Some s' →
          workers s' !! i = Some WBlocked ∧ wake s' ≠ Some i ∧ main s' ≠ MSetCompleted.
Proof.
  intros Hne Hi Hj Hq Hd Hm Hc.
  exists (set_worker j WBlocked (set_wake (Some j) s)).
  split; [unfold step, worker_step; by rewrite Hj, Hq, Hd|].
  split; [done|].
  split; [cbn; apply list_lookup_insert_eq; by eapply lookup_lt_Some|].
  intros es s' Hr.
  destruct (stranded_run jobId i es _ s' Hr) as (Hw & Hk & _ & Hc').
  - split; [cbn; by rewrite list_lookup_insert_ne|].
    split; [cbn; congruence|]. by split.
  - done.
Qed.

(** The worker whose scrape meets the hard block writes failed, the
    marker and [finished_at] to the job record, leaves the counters as
    they are, and goes to its return, through the delay when one is
    configured: it takes no further item. *)
Theorem hard_block_stops_worker (s : State) (i : nat) (d : QueueItem.t) (r : JobRow.t) :
  workers s !! i = Some (WScrape d) → hard_blocked d = true → job jobId s = Some r →
  ∃ s1 s2 r',
    step jobId (Worker i) s = Some s1 ∧ db s1 = db s ∧
    step jobId (Worker i) s1 = Some s2 ∧ job jobId s2 = Some r' ∧
    JobRow.status r' = failed ∧ JobRow.last_error r' = Some CLOUDFLARE_BLOCKED ∧
    JobRow.finished_at r' = Some (now s) ∧
    JobRow.processed_count r' = JobRow.processed_count r ∧
    JobRow.failed_count r' = JobRow.failed_count r ∧
    queueIndex s2 = queueIndex s ∧
    (workers s2 !! i = Some WReturned ∨
     workers s2 !! i = Some (WDelay false) ∧
     ∃ s3, step jobId (Worker i) s2 = Some s3 ∧ workers s3 !! i = Some WReturned ∧
           db s3 = db s2 ∧ queueIndex s3 = queueIndex s).
Proof.
  intros Hw Hb Hj. unfold hard_blocked in Hb.
  destruct (scrapeModelPageInContext (QueueItem.url d)) as [m|sc] eqn:Hsc; [|done].
  apply String.eqb_eq in Hb as ->.
  set (s1 := set_worker i (WMarkFailed CLOUDFLARE_BLOCKED) s).
  set (s2 := set_worker i (after_item false s1)
               (update_crawl_job jobId (set_failed (now s1) CLOUDFLARE_BLOCKED) s1)).
  assert (workers s1 !! i = Some (WMarkFailed CLOUDFLARE_BLOCKED)) as Hw1
    by (by eapply set_worker_lookup).
  assert (workers s2 !! i = Some (after_item false s1)) as Hw2.
  { apply (set_worker_lookup i _ (WMarkFailed CLOUDFLARE_BLOCKED)). exact Hw1. }
  exists s1, s2, (set_failed (now s) CLOUDFLARE_BLOCKED r).
  split; [unfold step, worker_step; by rewrite Hw, Hsc, String.eqb_refl|].
  split; [done|].
  split; [unfold step, worker_step; by rewrite Hw1|].
  split.
  { unfold s2. rewrite job_set_worker, job_update_crawl_job. unfold s1.
    by rewrite job_set_worker, Hj. }
  do 6 (split; [done|]).
  unfold after_item in Hw2. destruct (num_lt (Fin 0) (delayMs (cfg s1))).
  - right. split; [done|]. exists (set_worker i WReturned s2).
    split; [unfold step, worker_step; by rewrite Hw2|].
    split; [by eapply set_worker_lookup|done].
  - by left.
Qed.

End blocked_twice.

Lemma second_blocker_strands_first_witness :
  ∃ s s1,
    run (H := env_with [card "101"; card "102"]) "crawl_1"
      (take 6 two_workers_schedule) (start (fresh_db "2") t0) = Some s ∧
    step (H := env_with [card "101"; card "102"]) "crawl_1" (Worker 1) s = Some s1 ∧
    wake s = Some 0%nat ∧ wake s1 = Some 1%nat.
Proof.
  assert (∃ s, run (H := env_with [card "101"; card "102"]) "crawl_1"
                 (take 6 two_workers_schedule) (start (fresh_db "2") t0) = Some s ∧
               workers s = [WBlocked; WGetNext] ∧ wake s = Some 0%nat ∧
               queue s = [] ∧ queueIndex s = 0%nat ∧ discoveryDone s = false ∧
               main s = MNewPage) as (s & Hr & Hw & Hk & Hq & Hi & Hd & Hm).
  { eexists. split; [vm_compute; reflexivity|]. repeat split. }
  destruct (second_blocker_strands_first (H := env_with [card "101"; card "102"])
              "crawl_1" s 0 1) as (s1 & Hs1 & Hk1 & _).
  - lia.
  - by rewrite Hw.
  - by rewrite Hw.
  - by rewrite Hq, Hi.
  - exact Hd.
  - by rewrite Hm.
  - by rewrite Hm.
  - exists s, s1. split; [exact Hr|]. split; [exact Hs1|]. split; [exact Hk|exact Hk1].
Defined.

Lemma hard_block_stops_worker_witness :
  ∃ s s1 s2 r',
    run (H := env_with [card "103"]) "crawl_1" (take 17 hard_block_schedule)
      (start (fresh_db "1") t0) = Some s ∧
    step (H := env_with [card "103"]) "crawl_1" (Worker 0) s = Some s1 ∧
    step (H := env_with [card "103"]) "crawl_1" (Worker 0) s1 = Some s2 ∧
    job "crawl_1" s2 = Some r' ∧ JobRow.status r' = failed ∧
    JobRow.last_error r' = Some CLOUDFLARE_BLOCKED.
Proof.
  assert (∃ s, run (H := env_with [card "103"]) "crawl_1" (take 17 hard_block_schedule)
                 (start (fresh_db "1") t0) = Some s ∧
               workers s = [WScrape (QueueItem.mk "103" (model_url "103"))] ∧
               ∃ r, job "crawl_1" s = Some r)
    as (s & Hr & Hw & r & Hj).
  { eexists. split; [vm_compute; reflexivity|]. split; [reflexivity|].
    eexists. vm_compute. reflexivity. }
  destruct (hard_block_stops_worker (H := env_with [card "103"]) "crawl_1" s 0
              (QueueItem.mk "103" (model_url "103")) r)
    as (s1 & s2 & r' & Hs1 & _ & Hs2 & Hj2 & Hst & Hle & _).
  - by rewrite Hw.
  - vm_compute. reflexivity.
  - exact Hj.
  - exists s, s1, s2, r'. split; [exact Hr|]. split; [exact Hs1|]. split; [exact Hs2|].
    split; [exact Hj2|]. split; [exact Hst|exact Hle].
Defined.

(** One worker that has not run yet, two queued models, discovery over. *)
Definition queued_schedule : list Event := replicate 14 Main.

Lemma one_worker_completes_witness :
  ∃ s es s',
    run (H := env_with [card "101"; card "102"]) "crawl_1" queued_schedule
      (start (fresh_db "1") t0) = Some s ∧
    run (H := env_with [card "101"; card "102"]) "crawl_1" es s = Some s' ∧
    main s' = MSetCompleted ∧ length (queue s') = 2%nat ∧ (2 ≤ queueIndex s')%nat.
Proof.
  assert (∃ s, run (H := env_with [card "101"; card "102"]) "crawl_1" queued_schedule
                 (start (fresh_db "1") t0) = Some s ∧
               main s = MAwaitWorkers ∧ workers s = [WPoll] ∧ discoveryDone s = true ∧
               queueIndex s = 0%nat ∧
               queue s = [QueueItem.mk "101" (model_url "101");
                          QueueItem.mk "102" (model_url "102")] ∧
               is_running "crawl_1" s)
    as (s & Hr & Hm & Hw & Hd & Hi & Hq & Hrun).
  { eexists. split; [vm_compute; reflexivity|]. do 5 (split; [reflexivity|]).
    eexists. split; vm_compute; reflexivity. }
  destruct (one_worker_completes (H := env_with [card "101"; card "102"]) "crawl_1" s)
    as (es & s' & Hr' & _ & Hm' & Hq' & Hi').
  - exact Hm.
  - exact Hw.
  - exact Hrun.
  - exact Hd.
  - rewrite Hi, Hq. intros d Hin. simpl in Hin.
    apply elem_of_cons in Hin as [->|Hin]; [vm_compute; reflexivity|].
    apply elem_of_cons in Hin as [->|Hin]; [vm_compute; reflexivity|].
    apply elem_of_nil in Hin. destruct Hin.
  - exists s, es, s'. split; [exact Hr|]. split; [exact Hr'|]. split; [exact Hm'|].
    split; [by rewrite Hq', Hq|]. rewrite Hq', Hq in Hi'. exact Hi'.
Defined.

(** ** Crawl run: discovery *)

#[local] Set Warnings "-clear-no-such-hyp".

(** The identities of [batch] are pairwise distinct, none is in [ids],
    and [ids'] is [ids] with them added. *)
Definition adds (ids ids' : gset string) (batch : list string) : Prop :=
  NoDup batch ∧ (∀ x, x ∈ batch → x ∉ ids) ∧ ids' = list_to_set batch ∪ ids.

(** The set is empty, or its last identity was added while its size was
    below the limit. *)
Definition within (limit : jsnum) (ids : gset string) : Prop :=
  ids = ∅ ∨ num_ge (num_of_nat (size ids - 1)) limit = false.

Lemma adds_nil (ids : gset string) : adds ids ids [].
Proof. split; [constructor|]. split; [by intros x ?%elem_of_nil|]. set_solver. Qed.

Lemma adds_cons (ids ids' : gset string) (x : string) (batch : list string) :
  x ∉ ids → adds ({[x]} ∪ ids) ids' batch → adds ids ids' (x :: batch).
Proof.
  intros Hx (Hnd & Hfresh & ->). split; [|split].
  - constructor; [|done]. intros Hin. apply (Hfresh x Hin). set_solver.
  - intros y [->|Hy]%elem_of_cons; [done|]. specialize (Hfresh y Hy). set_solver.
  - set_solver.
Qed.

Lemma adds_app (ids ids1 ids2 : gset string) (b1 b2 : list string) :
  adds ids ids1 b1 → adds ids1 ids2 b2 → adds ids ids2 (b1 ++ b2).
Proof.
  intros (Hnd1 & Hf1 & ->) (Hnd2 & Hf2 & ->). split; [|split].
  - apply NoDup_app. split; [done|]. split; [|done].
    intros x Hx1 Hx2. apply (Hf2 x Hx2). set_solver.
  - intros x [Hx|Hx]%elem_of_app; [by apply Hf1|].
    specialize (Hf2 x Hx). set_solver.
  - set_solver.
Qed.

Lemma within_add (limit : jsnum) (ids : gset string) (x : string) :
  x ∉ ids → num_ge (num_of_nat (size ids)) limit = false → within limit ({[x]} ∪ ids).
Proof.
  intros Hx Hlt. right. rewrite size_union, size_singleton by set_solver.
  by replace (1 + size ids - 1)%nat with (size ids) by lia.
Qed.

Lemma split_domItems_adds (limit : jsnum) (domItems : list Discovered.t) :
  ∀ ids newItems enrichItems ids' newItems' enrichItems',
    split_domItems limit domItems ids newItems enrichItems = (ids', newItems', enrichItems') →
    within limit ids →
    ∃ batch, newItems' = newItems ++ batch ∧ adds ids ids' (map Discovered.id batch) ∧
             within limit ids'.
Proof.
  induction domItems as [|it rest IH]; intros ids new enrich ids' new' enrich' Hs Hw;
    cbn [split_domItems addFromText_re addFromText_re2] in Hs.
  - simplify_eq. exists []. rewrite app_nil_r. split; [done|]. split; [apply adds_nil|done].
  - destruct (decide (Discovered.id it ∈ ids)) as [Hin|Hout].
    + destruct (_ || _); (eapply IH; [exact Hs|exact Hw]).
    + destruct (num_ge (num_of_nat (size ids)) limit) eqn:Hge.
      * cbn [split_domItems addFromText_re addFromText_re2] in Hs. simplify_eq. exists []. rewrite app_nil_r.
        split; [done|]. split; [apply adds_nil|done].
      * cbn [split_domItems addFromText_re addFromText_re2] in Hs. apply IH in Hs as (batch & -> & Ha & Hw'); [|by apply within_add].
        exists (it :: batch). rewrite <- app_assoc. split; [done|].
        split; [by apply adds_cons|done].
Qed.

Lemma addFromText_re_adds (limit : jsnum) (hits : list (option QueueItem.t)) :
  ∀ ids newItems ids' newItems',
    addFromText_re limit hits ids newItems = (ids', newItems') →
    within limit ids →
    ∃ batch, newItems' = newItems ++ batch ∧ adds ids ids' (map Discovered.id batch) ∧
             within limit ids'.
Proof.
  induction hits as [|[found|] rest IH]; intros ids new ids' new' Hs Hw; cbn [split_domItems addFromText_re addFromText_re2] in Hs.
  - simplify_eq. exists []. rewrite app_nil_r. split; [done|]. split; [apply adds_nil|done].
  - destruct (decide (QueueItem.id found ∈ ids)) as [Hin|Hout]; [(eapply IH; [exact Hs|exact Hw])|].
    destruct (num_ge (num_of_nat (size ids)) limit) eqn:Hge.
    + cbn [split_domItems addFromText_re addFromText_re2] in Hs. simplify_eq. exists []. rewrite app_nil_r.
      split; [done|]. split; [apply adds_nil|done].
    + cbn [split_domItems addFromText_re addFromText_re2] in Hs. apply IH in Hs as (batch & -> & Ha & Hw'); [|by apply within_add].
      eexists (_ :: batch). rewrite <- app_assoc. split; [done|].
      split; [by apply adds_cons|done].
  - (eapply IH; [exact Hs|exact Hw]).
Qed.

Lemma addFromText_re2_adds (limit : jsnum) (hits : list (string * string * bool)) :
  ∀ ids newItems cnt ids' newItems',
    addFromText_re2 limit hits ids newItems cnt = (ids', newItems') →
    within limit ids →
    ∃ batch, newItems' = newItems ++ batch ∧ adds ids ids' (map Discovered.id batch) ∧
             within limit ids'.
Proof.
  induction hits as [|[[id img] mw] rest IH]; intros ids new cnt ids' new' Hs Hw;
    cbn [split_domItems addFromText_re addFromText_re2] in Hs.
  - simplify_eq. exists []. rewrite app_nil_r. split; [done|]. split; [apply adds_nil|done].
  - destruct (_ || _); [(eapply IH; [exact Hs|exact Hw])|].
    destruct (negb mw); [(eapply IH; [exact Hs|exact Hw])|].
    destruct (decide (id ∈ ids)) as [Hin|Hout]; [(eapply IH; [exact Hs|exact Hw])|].
    destruct (num_ge (num_of_nat (size ids)) limit) eqn:Hge.
    + cbn [split_domItems addFromText_re addFromText_re2] in Hs. simplify_eq. exists []. rewrite app_nil_r.
      split; [done|]. split; [apply adds_nil|done].
    + destruct (decide (200 ≤ S cnt)%nat).
      * cbn [split_domItems addFromText_re addFromText_re2] in Hs. simplify_eq. eexists [_]. split; [done|].
        split; [apply adds_cons; [done|apply adds_nil]|by apply within_add].
      * cbn [split_domItems addFromText_re addFromText_re2] in Hs. apply IH in Hs as (batch & -> & Ha & Hw'); [|by apply within_add].
        eexists (_ :: batch). rewrite <- app_assoc. split; [done|].
        split; [by apply adds_cons|done].
Qed.

Lemma addFromText_adds (limit : jsnum) (text : TextScan) (ids ids' : gset string)
    (items : list Discovered.t) :
  addFromText limit text ids = (ids', items) → within limit ids →
  adds ids ids' (map Discovered.id items) ∧ within limit ids'.
Proof.
  unfold addFromText. intros Hs Hw.
  destruct (addFromText_re limit (re_hits text) ids []) as [ids1 new1] eqn:H1.
  apply addFromText_re_adds in H1 as (b1 & -> & Ha1 & Hw1); [|done]. simpl in *.
  destruct (decide (length b1 < 20)%nat).
  - apply addFromText_re2_adds in Hs as (b2 & -> & Ha2 & Hw2); [|done].
    rewrite map_app. split; [by eapply adds_app|done].
  - by simplify_eq.
Qed.

Section discovery.
Context `{Env} (jobId : string).

(** The items [runCrawlJob] holds back while it persists an enrichment
    (line 355): they are queued at line 359. *)
Definition pending (pc : MainPc) : list Discovered.t :=
  match pc with
  | MPersistEnrich _ _ newItems => newItems
  | _ => []
  end.

(** The identities queued so far or about to be. *)
Definition tracked (s : State) : list string :=
  map QueueItem.id (queue s) ++ map Discovered.id (pending (main s)).

(** The state before line 17 has run. *)
Definition pristine (s : State) : Prop :=
  main s = MSelectJob ∧ discoveredIds s = ∅ ∧ queue s = [] ∧ handlers s = [] ∧
  listening s = false.

Record discovery_ok (s : State) : Prop := {
  dk_nodup : NoDup (tracked s);
  dk_known : ∀ x, x ∈ tracked s → x ∈ discoveredIds s;
  dk_within : within (limitModels (cfg s)) (discoveredIds s);
  dk_started : main s ≠ MSelectJob;
}.

(** What a step may do to the discovery: it leaves the parsed config
    alone and adds a batch of new identities, possibly empty. *)
Definition grows (s s' : State) : Prop :=
  config s' = config s ∧ main s' ≠ MSelectJob ∧
  ∃ batch, tracked s' ≡ₚ tracked s ++ batch ∧
           adds (discoveredIds s) (discoveredIds s') batch ∧
           within (limitModels (cfg s)) (discoveredIds s').

Lemma grows_same (s s' : State) :
  config s' = config s → main s' ≠ MSelectJob → tracked s' = tracked s →
  discoveredIds s' = discoveredIds s → within (limitModels (cfg s)) (discoveredIds s) →
  grows s s'.
Proof.
  intros Hc Hm Ht Hi Hw. split; [done|]. split; [done|]. exists [].
  rewrite app_nil_r, Hi, Ht. split; [done|]. split; [apply adds_nil|done].
Qed.

Lemma call_wake_frame (s : State) :
  queue (call_wake s) = queue s ∧ main (call_wake s) = main s ∧
  discoveredIds (call_wake s) = discoveredIds s ∧ config (call_wake s) = config s.
Proof. unfold call_wake. by repeat case_match. Qed.

Lemma push_frame (items : list Discovered.t) (s : State) :
  map QueueItem.id (queue (push items s))
  = map QueueItem.id (queue s) ++ map Discovered.id items ∧
  main (push items s) = main s ∧ discoveredIds (push items s) = discoveredIds s ∧
  config (push items s) = config s.
Proof.
  unfold push. destruct items as [|it items]; [by rewrite app_nil_r|].
  destruct (call_wake_frame
              (set_queue (queue s ++ map (λ it, QueueItem.mk (Discovered.id it) (Discovered.url it))
                                     (it :: items)) s)) as (-> & -> & -> & ->).
  cbn [queue set_queue main discoveredIds config].
  by rewrite map_app, map_map.
Qed.

Lemma finish_discovery_frame (s : State) :
  queue (finish_discovery s) = queue s ∧ main (finish_discovery s) = MClosePage ∧
  discoveredIds (finish_discovery s) = discoveredIds s ∧
  config (finish_discovery s) = config s.
Proof.
  unfold finish_discovery.
  destruct (call_wake_frame (set_discoveryDone true s)) as (Hq & Hm & Hi & Hc).
  cbn [queue set_main set_listening main discoveredIds config]. by rewrite Hq, Hi, Hc.
Qed.

Lemma after_new_frame (i : nat) (s : State) :
  queue (after_new i s) = queue s ∧ pending (main (after_new i s)) = [] ∧
  main (after_new i s) ≠ MSelectJob ∧
  discoveredIds (after_new i s) = discoveredIds s ∧ config (after_new i s) = config s.
Proof.
  unfold after_new. case_match; [|done].
  destruct (finish_discovery_frame s) as (-> & -> & -> & ->). done.
Qed.

Lemma loop_head_frame (i : nat) (s : State) :
  queue (loop_head i s) = queue s ∧ pending (main (loop_head i s)) = [] ∧
  main (loop_head i s) ≠ MSelectJob ∧
  discoveredIds (loop_head i s) = discoveredIds s ∧ config (loop_head i s) = config s.
Proof.
  unfold loop_head. case_match; [done|].
  destruct (finish_discovery_frame s) as (-> & -> & -> & ->). done.
Qed.

Lemma after_enrich_frame (i : nat) (newItems : list Discovered.t) (s : State) :
  tracked (after_enrich i newItems s)
  = map QueueItem.id (queue s) ++ map Discovered.id newItems ∧
  main (after_enrich i newItems s) ≠ MSelectJob ∧
  discoveredIds (after_enrich i newItems s) = discoveredIds s ∧
  config (after_enrich i newItems s) = config s.
Proof.
  unfold after_enrich, tracked. destruct newItems as [|it items].
  - destruct (after_new_frame i s) as (-> & -> & ? & -> & ->). done.
  - destruct (push_frame (it :: items) s) as (Hq & Hm & Hi & Hc).
    cbn [queue set_main main discoveredIds config pending].
    rewrite Hq, Hi, Hc, app_nil_r. done.
Qed.

Lemma catch_frame (message : string) (s : State) :
  queue (catch message s) = queue s ∧ pending (main (catch message s)) = [] ∧
  main (catch message s) ≠ MSelectJob ∧
  discoveredIds (catch message s) = discoveredIds s ∧ config (catch message s) = config s.
Proof. unfold catch. by case_match. Qed.

Lemma main_step_grows (s s' : State) :
  main_step jobId s = Some s' → main s ≠ MSelectJob →
  NoDup (tracked s) → within (limitModels (cfg s)) (discoveredIds s) → grows s s'.
Proof.
  intros Hs Hm Hnd Hw. unfold main_step in Hs.
  destruct (main s) as [| | | | | | | |i|i|i enrichItems newItems|i newItems|i n|i|i| | |
                        | [|message] |message| |] eqn:Hpc;
    try done.
  - (* MSetRunning *)
    destruct (config s); simplify_eq;
      (apply grows_same; [done| |unfold tracked; cbn; by rewrite ?Hpc|done|done]);
      try done; unfold catch; by case_match.
  - simplify_eq. apply grows_same; try done. unfold tracked. cbn. by rewrite Hpc.
  - simplify_eq. apply grows_same; try done. unfold tracked. cbn. by rewrite Hpc.
  - simplify_eq. apply grows_same; try done. unfold tracked. cbn. by rewrite Hpc.
  - simplify_eq. apply grows_same; try done. unfold tracked. cbn. by rewrite Hpc.
  - (* MSample *)
    destruct listSample_blocked; simplify_eq.
    + apply grows_same; try done. unfold tracked. cbn. by rewrite Hpc.
    + destruct (loop_head_frame 0 s) as (Hq & Hp & Hm' & Hi & Hc).
      apply grows_same; try done. unfold tracked. by rewrite Hq, Hp, Hpc.
  - simplify_eq. apply grows_same; try done. unfold tracked. cbn. by rewrite Hpc.
  - (* MLoopPoll *)
    destruct (poll _); simplify_eq;
      (apply grows_same; try done); unfold tracked; cbn; by rewrite Hpc.
  - (* MEvaluate *)
    destruct (split_domItems _ _ _ _ _) as [[ids new] enrich] eqn:Hsplit.
    apply split_domItems_adds in Hsplit as (batch & Hb & Ha & Hw'); [|done].
    simpl in Hb. subst new.
    destruct enrich as [|e0 enrich]; simplify_eq.
    + destruct (after_enrich_frame i batch (set_discoveredIds ids s)) as (Ht & Hm' & Hi & Hc).
      split; [done|]. split; [done|]. exists (map Discovered.id batch).
      rewrite Ht, Hi. unfold tracked. rewrite Hpc. cbn. rewrite app_nil_r. done.
    + split; [done|]. split; [done|]. exists (map Discovered.id batch).
      unfold tracked. rewrite Hpc. cbn. rewrite app_nil_r. done.
  - (* MPersistEnrich *)
    simplify_eq.
    destruct (after_enrich_frame i newItems
                (set_db (persistDiscovered (now s) enrichItems) s)) as (Ht & Hm' & Hi & Hc).
    apply grows_same; try done. rewrite Ht. unfold tracked. by rewrite Hpc.
  - simplify_eq. apply grows_same; try done. unfold tracked. cbn. by rewrite Hpc.
  - (* MCountNew *)
    simplify_eq.
    destruct (after_new_frame i (update_crawl_job jobId (add_discovered (Z.of_nat n)) s))
      as (Hq & Hp & Hm' & Hi & Hc).
    apply grows_same; try done. unfold tracked. by rewrite Hq, Hp, Hpc.
  - simplify_eq. apply grows_same; try done. unfold tracked. cbn. by rewrite Hpc.
  - (* MScrollWait *)
    simplify_eq. destruct (loop_head_frame (S i) s) as (Hq & Hp & Hm' & Hi & Hc).
    apply grows_same; try done. unfold tracked. by rewrite Hq, Hp, Hpc.
  - simplify_eq. apply grows_same; try done. unfold tracked. cbn. by rewrite Hpc.
  - (* MAwaitWorkers *)
    repeat case_match; simplify_eq;
      (apply grows_same; try done); unfold tracked; cbn; by rewrite Hpc.
  - simplify_eq. apply grows_same; try done. unfold tracked. cbn. by rewrite Hpc.
  - simplify_eq. apply grows_same; try done. unfold tracked. cbn. by rewrite Hpc.
  - simplify_eq. destruct (catch_frame message s) as (Hq & Hp & Hm' & Hi & Hc).
    apply grows_same; try done. unfold tracked. by rewrite Hq, Hp, Hpc.
  - simplify_eq. apply grows_same; try done. unfold tracked. cbn. by rewrite Hpc.
Qed.

Lemma step_grows (e : Event) (s s' : State) :
  step jobId e s = Some s' → main s ≠ MSelectJob →
  NoDup (tracked s) → within (limitModels (cfg s)) (discoveredIds s) → grows s s'.
Proof.
  intros Hs Hm Hnd Hw. destruct e as [|message|i|text|k|t| | |message|]; simpl in Hs.
  - by apply main_step_grows.
  - unfold main_throws in Hs.
    destruct (main s) eqn:Hpc; simplify_eq;
      try (apply grows_same; try done; unfold tracked; cbn; by rewrite Hpc).
    destruct (catch_frame message s) as (Hq & Hp & Hm' & Hi & Hc).
    apply grows_same; try done. unfold tracked. by rewrite Hq, Hp, Hpc.
  - unfold worker_step, after_item, update_crawl_job in Hs.
    repeat case_match; simplify_eq; by apply grows_same.
  - unfold on_response in Hs. repeat case_match; simplify_eq; by apply grows_same.
  - unfold handler_step in Hs.
    destruct (handlers s !! k) as [[text|items|n|]|]; try done.
    + destruct (addFromText _ _ _) as [ids items] eqn:Ha.
      apply addFromText_adds in Ha as [Ha Hw']; [|done].
      destruct items as [|it items]; simplify_eq.
      * split; [done|]. split; [done|]. exists []. by rewrite app_nil_r.
      * destruct (push_frame (it :: items) (set_discoveredIds ids s)) as (Hq & Hm' & Hi & Hc).
        split; [exact Hc|]. split; [change (main (push (it :: items) (set_discoveredIds ids s))
                                            ≠ MSelectJob); by rewrite Hm'|].
        exists (map Discovered.id (it :: items)).
        split; [|cbn [discoveredIds set_handlers]; rewrite Hi; by split].
        unfold tracked.
        change (map QueueItem.id (queue (push (it :: items) (set_discoveredIds ids s)))
                ++ map Discovered.id (pending (main (push (it :: items) (set_discoveredIds ids s))))
                ≡ₚ (map QueueItem.id (queue s) ++ map Discovered.id (pending (main s)))
                   ++ map Discovered.id (it :: items)).
        rewrite Hq, Hm'. change (main (set_discoveredIds ids s)) with (main s).
        change (queue (set_discoveredIds ids s)) with (queue s).
        rewrite <- !app_assoc. apply Permutation_app; [done|apply Permutation_app_comm].
    + simplify_eq. by apply grows_same.
    + simplify_eq. by apply grows_same.
  - simplify_eq. by apply grows_same.
  - simplify_eq. by apply grows_same.
  - simplify_eq. by apply grows_same.
  - simplify_eq. by apply grows_same.
  - simplify_eq. by apply grows_same.
Qed.

Lemma pristine_step (e : Event) (s s' : State) :
  pristine s → step jobId e s = Some s' → pristine s' ∨ discovery_ok s'.
Proof.
  intros (Hm & Hi & Hq & Hh & Hl) Hs.
  assert (∀ s1 pc, pc ≠ MSelectJob → discoveredIds s1 = ∅ → queue s1 = [] → main s1 = pc →
                   pending pc = [] → discovery_ok s1) as Hok.
  { intros s1 pc Hpc Hi1 Hq1 Hm1 Hp1. split.
    - unfold tracked. rewrite Hq1, Hm1, Hp1. constructor.
    - unfold tracked. rewrite Hq1, Hm1, Hp1. by intros x ?%elem_of_nil.
    - by left.
    - by rewrite Hm1. }
  destruct e as [|message|i|text|k|t| | |message|]; simpl in Hs.
  - unfold main_step in Hs. rewrite Hm in Hs.
    repeat case_match; simplify_eq; right.
    + by apply (Hok _ MSetRunning).
    + by apply (Hok _ MRejected).
    + by apply (Hok _ MRejected).
  - unfold main_throws in Hs. by rewrite Hm in Hs.
  - left. unfold worker_step, after_item, update_crawl_job in Hs.
    repeat case_match; simplify_eq; done.
  - unfold on_response in Hs. by rewrite Hl in Hs.
  - unfold handler_step in Hs. by rewrite Hh in Hs.
  - simplify_eq. by left.
  - simplify_eq. by left.
  - simplify_eq. by left.
  - simplify_eq. by left.
  - simplify_eq. by left.
Qed.

Lemma discovery_ok_step (e : Event) (s s' : State) :
  discovery_ok s → step jobId e s = Some s' → discovery_ok s'.
Proof.
  intros [Hnd Hkn Hw Hm] Hs.
  destruct (step_grows e s s' Hs Hm Hnd Hw) as (Hc & Hm' & batch & Ht & (Hb & Hf & Hi) & Hw').
  split.
  - rewrite Ht. apply NoDup_app. split; [done|]. split; [|done].
    intros x Hx Hx'. by apply (Hf x Hx'), Hkn.
  - intros x. rewrite Ht, Hi. intros [Hx|Hx]%elem_of_app.
    + apply elem_of_union_r. by apply Hkn.
    + apply elem_of_union_l. by apply elem_of_list_to_set.
  - unfold cfg. by rewrite Hc.
  - done.
Qed.

Lemma run_discovery (es : list Event) (s s' : State) :
  run jobId es s = Some s' → pristine s ∨ discovery_ok s → pristine s' ∨ discovery_ok s'.
Proof.
  revert s. induction es as [|e es IH]; intros s Hr Hinv; cbn [run] in Hr; [by simplify_eq|].
  destruct (step jobId e s) as [s1|] eqn:Hs; [|done].
  apply (IH s1 Hr). destruct Hinv as [Hp|Hok].
  - by eapply pristine_step.
  - right. by eapply discovery_ok_step.
Qed.

Lemma queue_known (d : Database) (t : string) (es : list Event) (s : State) :
  run jobId es (start d t) = Some s →
  NoDup (map QueueItem.id (queue s)) ∧
  ∀ x, x ∈ map QueueItem.id (queue s) → x ∈ discoveredIds s.
Proof.
  intros Hr. destruct (run_discovery es _ s Hr) as [(_ & _ & Hq & _)|[Hnd Hkn _ _]].
  - by left.
  - rewrite Hq. split; [constructor|]. by intros x ?%elem_of_nil.
  - unfold tracked in *. apply NoDup_app in Hnd as (Hnd & _ & _).
    split; [done|]. intros x Hx. apply Hkn, elem_of_app. by left.
Qed.

Lemma queue_length (q : list QueueItem.t) (ids : gset string) :
  NoDup (map QueueItem.id q) → (∀ x, x ∈ map QueueItem.id q → x ∈ ids) →
  (length q ≤ size ids)%nat.
Proof.
  intros Hnd Hkn.
  rewrite <- (length_map QueueItem.id), <- (size_list_to_set (C := gset string)) by done.
  apply subseteq_size. intros x Hx%elem_of_list_to_set. by apply Hkn.
Qed.

(** No model is queued twice in a run: the identities of the queue are
    pairwise distinct, whichever of the page scan and the response
    handlers found them and however their steps interleave; each is in
    the set of discovered identities, so the queue is no longer than that
    set is large. *)
Theorem queue_never_repeats (d : Database) (t : string) (es : list Event) (s : State) :
  run jobId es (start d t) = Some s →
  NoDup (map QueueItem.id (queue s)) ∧
  (∀ q, q ∈ queue s → QueueItem.id q ∈ discoveredIds s) ∧
  (length (queue s) ≤ size (discoveredIds s))%nat.
Proof.
  intros Hr. destruct (queue_known d t es s Hr) as [Hnd Hkn].
  split; [done|]. split.
  - intros q Hq. apply Hkn, list_elem_of_fmap. by exists q.
  - by apply queue_length.
Qed.

(** With an integer [limitModels] in the config, as the endpoint stores
    it, the set of discovered identities never grows beyond it, and so
    at most that many models are queued in a run. *)
Theorem discovered_within_limit (d : Database) (t : string) (es : list Event) (s : State)
    (L : Z) :
  run jobId es (start d t) = Some s →
  limitModels (cfg s) = Fin (inject_Z L) →
  Z.of_nat (size (discoveredIds s)) <= Z.max 0 L ∧
  Z.of_nat (length (queue s)) <= Z.max 0 L.
Proof.
  intros Hr HL.
  assert (Z.of_nat (size (discoveredIds s)) <= Z.max 0 L) as Hsize.
  { destruct (run_discovery es _ s Hr) as [(_ & Hi & _)|[_ _ Hw _]].
    - by left.
    - rewrite Hi, size_empty. lia.
    - destruct Hw as [Hi|Hw]; [rewrite Hi, size_empty; lia|].
      rewrite HL in Hw. unfold num_ge, num_of_nat in Hw.
      rewrite Qle_bool_Z in Hw. simpl in Hw. apply Z.leb_gt in Hw. lia. }
  split; [done|].
  destruct (queue_known d t es s Hr) as [Hnd Hkn].
  pose proof (queue_length _ _ Hnd Hkn). lia.
Qed.

End discovery.

Lemma queue_never_repeats_witness :
  ∃ s, run (H := env_with [card "101"; card "102"]) "crawl_1" counted_schedule
         (start (fresh_db "1") t0) = Some s ∧
       NoDup (map QueueItem.id (queue s)) ∧ length (queue s) = 2%nat.
Proof.
  assert (∃ s, run (H := env_with [card "101"; card "102"]) "crawl_1" counted_schedule
                 (start (fresh_db "1") t0) = Some s ∧ length (queue s) = 2%nat)
    as (s & Hr & Hl).
  { eexists. split; [vm_compute; reflexivity|reflexivity]. }
  exists s. split; [exact Hr|]. split; [|exact Hl].
  exact (proj1 (queue_never_repeats (H := env_with [card "101"; card "102"]) "crawl_1"
                  (fresh_db "1") t0 counted_schedule s Hr)).
Defined.

Lemma discovered_within_limit_witness :
  ∃ s, run (H := env_with [card "101"; card "102"]) "crawl_1" counted_schedule
         (start (fresh_db "1") t0) = Some s ∧
       Z.of_nat (size (discoveredIds s)) <= 10.
Proof.
  assert (∃ s, run (H := env_with [card "101"; card "102"]) "crawl_1" counted_schedule
                 (start (fresh_db "1") t0) = Some s ∧ config s = run_config 1)
    as (s & Hr & Hc).
  { eexists. split; [vm_compute; reflexivity|reflexivity]. }
  exists s. split; [exact Hr|].
  refine (proj1 (discovered_within_limit (H := env_with [card "101"; card "102"]) "crawl_1"
                   (fresh_db "1") t0 counted_schedule s 10 Hr _)).
  unfold cfg. rewrite Hc. reflexivity.
Defined.

(** ** Label run: an undisturbed run *)

Section label_run.
Context `{Env} (jobId : string).






Lemma ljob_update_label_job (f : JobRow.t → JobRow.t) (s : LabelState) :
  ljob jobId (update_label_job jobId f s) = f <$> ljob jobId s.
Proof. unfold ljob, update_label_job. cbn -[update_job lookup]. apply lookup_update_job. Qed.













(** A limit the database refuses ends the run as failed. When the query
    of line 55 rejects with [message] (other than JOB_CANCELLED), the run
    closes the browser and returns with the record failed, [last_error]
    the message of the database and [finished_at] set; no candidate is
    worked on: the counters and [total_count] stay as they were. *)
Theorem refused_limit_fails_label_job (d : Database) (t : string) (r0 : JobRow.t)
    (parsed : json) (message : string) :
  label_jobs d !! jobId = Some r0 →
  JSON_parse (JobRow.config_json r0) = Some parsed → parsed ≠ JNull →
  select_candidates (limit (asLabelJobConfig parsed)) d = inl message →
  message ≠ JOB_CANCELLED →
  ∃ s' r',
    lrun jobId (replicate 7 LMain) (lstart d t) = Some s' ∧
    lpc s' = LDone ∧ lstep jobId LMain s' = None ∧ lcontext s' ≠ None ∧
    ljob jobId s' = Some r' ∧ JobRow.status r' = failed ∧
    JobRow.last_error r' = Some message ∧ JobRow.finished_at r' = Some t ∧
    JobRow.total_count r' = JobRow.total_count r0 ∧
    JobRow.processed_count r' = JobRow.processed_count r0 ∧
    JobRow.failed_count r' = JobRow.failed_count r0 ∧
    models (ldb s') = models d ∧ model_labels (ldb s') = model_labels d.
Proof.
  intros Hj Hparse Hnn Hsel Hmsg.
  set (s1 := mkLabelState d t parsed None [] LSetRunning).
  set (s2 := lset_pc LLatestCrawl (update_label_job jobId (set_running t) s1)).
  set (s3 := lset_pc (LCreateContext (label_cookieHeader (ldb s2))) s2).
  set (s4 := lset_pc LSelectCandidates
               (mkLabelState (ldb s3) t parsed
                  (Some (createContext (label_cookieHeader (ldb s2)))) [] (lpc s3))).
  set (s5 := lset_pc (LFinally (Throw message)) s4).
  set (s6 := lset_pc (LMarkError message) s5).
  set (s7 := lset_pc LDone (update_label_job jobId (set_failed t message) s6)).
  assert (lstep jobId LMain (lstart d t) = Some s1) as H1.
  { unfold lstep, label_step, lstart, ljob. cbn [lpc ldb]. by rewrite Hj, Hparse. }
  assert (lstep jobId LMain s1 = Some s2) as H2 by done.
  assert (lstep jobId LMain s2 = Some s3) as H3 by done.
  assert (lstep jobId LMain s3 = Some s4) as H4.
  { unfold lstep, label_step. cbn [lpc s3 lset_pc lconfig s2 update_label_job lset_db s1].
    by destruct parsed. }
  assert (lstep jobId LMain s4 = Some s5) as H5.
  { unfold lstep, label_step. cbn [lpc s4 lset_pc lconfig].
    change (select_candidates (limit (asLabelJobConfig parsed)) (ldb _))
      with (select_candidates (limit (asLabelJobConfig parsed)) d).
    by rewrite Hsel. }
  assert (lstep jobId LMain s5 = Some s6) as H6.
  { unfold lstep, label_step, lcatch. cbn [lpc s5 lset_pc].
    by rewrite (proj2 (String.eqb_neq _ _) Hmsg). }
  assert (lstep jobId LMain s6 = Some s7) as H7 by done.
  exists s7, (set_failed t message (set_running t r0)).
  split; [cbn [replicate lrun]; by rewrite H1, H2, H3, H4, H5, H6, H7|].
  split; [done|]. split; [done|]. split; [done|].
  split.
  { change (ljob jobId s7) with (ljob jobId (update_label_job jobId (set_failed t message) s6)).
    rewrite ljob_update_label_job.
    change (ljob jobId s6) with (ljob jobId (update_label_job jobId (set_running t) s1)).
    rewrite ljob_update_label_job. unfold ljob, s1. cbn [ldb]. by rewrite Hj. }
  done.
Qed.

End label_run.

(** An example label run: no cap; model 101 is scraped and labelled,
    the scrape of model 102 times out. *)
Definition label_config_text : string := ("{" ++ field "limit" "null" ++ "}")%string.

Definition label_env : Env :=
  {| JSON_parse := λ s,
       if String.eqb s label_config_text then Some (JObj [("limit", JNull)]) else None;
     StringToNumber := λ _, NaN;
     ObjectToNumber := λ _, NaN;
     scrapeModelPageInContext := example_scrape;
     labelWithOpenAI := λ _ _, inr (LabelResult.mk B_ "two views, no parameters" "{}");
     listSample_blocked := false;
     page_evaluate := λ _, [];
     bound_limit := λ _, Refused "datatype mismatch" |}.

Definition listed (id : string) : ModelRow.t :=
  ModelRow.mk (model_url id) None None None None None
    "2024-05-01T10:00:00.000Z" "2024-05-01T10:00:00.000Z".



(** A config whose limit is 2.5, which no database takes for a number of
    rows. *)
Definition fraction_config_text : string := ("{" ++ field "limit" "2.5" ++ "}")%string.

Definition fraction_env : Env :=
  example_env
    (λ s, if String.eqb s fraction_config_text
          then Some (JObj [("limit", JNum (Fin (5 # 2)))]) else None)
    example_scrape (λ _, []).

Definition fraction_db : Database :=
  mkDb ∅ {["label_1" := new_job "2024-05-01T11:00:00.000Z" fraction_config_text]}
    {["101" := listed "101"; "102" := listed "102"]} ∅ ∅.

Lemma refused_limit_fails_label_job_witness :
  ∃ s' r',
    lrun (H := fraction_env) "label_1" (replicate 7 LMain) (lstart fraction_db t0) = Some s' ∧
    lpc s' = LDone ∧ ljob "label_1" s' = Some r' ∧ JobRow.status r' = failed ∧
    JobRow.last_error r' = Some "datatype mismatch" ∧
    JobRow.processed_count r' = 0 ∧ JobRow.failed_count r' = 0.
Proof.
  destruct (refused_limit_fails_label_job (H := fraction_env) "label_1" fraction_db t0
              (new_job "2024-05-01T11:00:00.000Z" fraction_config_text)
              (JObj [("limit", JNum (Fin (5 # 2)))]) "datatype mismatch")
    as (s' & r' & Hr & Hpc & _ & _ & Hj & Hst & Herr & _ & _ & Hp & Hf & _).
  - vm_compute. reflexivity.
  - vm_compute. reflexivity.
  - discriminate.
  - vm_compute. reflexivity.
  - discriminate.
  - exists s', r'. split; [exact Hr|]. split; [exact Hpc|]. split; [exact Hj|].
    split; [exact Hst|]. split; [exact Herr|]. split; [exact Hp|exact Hf].
Defined.

(** ** Label run: the labels and the candidates *)

Section labels.
Context `{Env} (jobId : string).

Lemma lstep_keeps_labels (e : LabelEvent) (s s' : LabelState) :
  lstep jobId e s = Some s' → (∀ m, e ≠ LClearRequest m) →
  model_labels (ldb s) ⊆ model_labels (ldb s').
Proof.
  intros Hs Hne. destruct e as [|message|t| | |message|]; simpl in Hs.
  - unfold label_step, lcatch, lnext, lloop_head, update_label_job in Hs.
    repeat case_match; simplify_eq; try done.
    cbn. by apply insert_subseteq.
  - unfold label_throws, lcatch in Hs. by repeat case_match; simplify_eq.
  - by simplify_eq.
  - by simplify_eq.
  - by simplify_eq.
  - by destruct (Hne message).
  - by simplify_eq.
Qed.

(** A label run never replaces or removes a label: whatever the store
    holds for a model stays as it is through every step of the run and
    through pause, resume and the removal of the job record. Only the
    clear-history block empties the table. *)
Theorem label_run_keeps_labels (es : list LabelEvent) (s s' : LabelState) :
  lrun jobId es s = Some s' → Forall (λ e, ∀ m, e ≠ LClearRequest m) es →
  ∀ id l, model_labels (ldb s) !! id = Some l → model_labels (ldb s') !! id = Some l.
Proof.
  intros Hr Hes. apply map_subseteq_spec. revert s Hr.
  induction Hes as [|e es He Hes IH]; intros s Hr; cbn [lrun] in Hr; [by simplify_eq|].
  destruct (lstep jobId e s) as [s1|] eqn:Hs; [|done].
  etrans; [by eapply lstep_keeps_labels|by apply IH].
Qed.

End labels.

Section candidates.





Global Instance updated_desc_total : Total updated_desc.
Proof.
  intros a b. unfold updated_desc.
  destruct (String.leb_total (ModelRow.updated_at a.2) (ModelRow.updated_at b.2)); auto.
Qed.

Global Instance updated_desc_trans : Transitive updated_desc.
Proof. intros a b c Hab Hbc. unfold updated_desc in *. by eapply String_leb_trans. Qed.




Context `{Env}.





End candidates.

(** A store in which model 100 already has a label. *)
Definition labelled_db : Database :=
  mkDb ∅ {["label_1" := new_job "2024-05-01T11:00:00.000Z" label_config_text]}
    {["100" := listed "100"; "101" := listed "101"]} ∅
    {["100" := ModelLabelRow.mk A_ "exploded view, parameters" "{}" "2024-05-01T09:00:00.000Z"]}.

Lemma label_run_keeps_labels_witness :
  ∃ s',
    lrun (H := label_env) "label_1" (replicate 15 LMain ++ [LPauseRequest])
      (lstart labelled_db t0) = Some s' ∧
    model_labels (ldb s') !! "100"
    = Some (ModelLabelRow.mk A_ "exploded view, parameters" "{}" "2024-05-01T09:00:00.000Z") ∧
    is_Some (model_labels (ldb s') !! "101").
Proof.
  assert (∃ s', lrun (H := label_env) "label_1" (replicate 15 LMain ++ [LPauseRequest])
                  (lstart labelled_db t0) = Some s' ∧
                is_Some (model_labels (ldb s') !! "101")) as (s' & Hr & Hl).
  { eexists. split; [vm_compute; reflexivity|]. eexists. vm_compute. reflexivity. }
  exists s'. split; [exact Hr|]. split; [|exact Hl].
  apply (label_run_keeps_labels (H := label_env) "label_1" _ _ s' Hr).
  - repeat (apply Forall_cons; split; [discriminate|]). apply Forall_nil_2.
  - vm_compute. reflexivity.
Defined.

(** ** Labeling service: the confidence (label/openai.ts, lines 27-30 and 272) *)

(** [Number.isNaN(v)]: true only of the number [NaN], without coercion. *)
Definition Number_isNaN (v : option json) : bool :=
  match v with
  | Some (JNum NaN) => true
  | _ => false
  end.

(** [clamp01], on what the parsed answer holds under [confidence]: the
    type annotation says [number], the value is whatever the service
    wrote. [Math.min] and [Math.max] coerce their arguments. *)
Definition clamp01 `{Env} (v : option json) : jsnum :=
  if Number_isNaN v then Fin 0
  else Math_max (Fin 0) (Math_min (Fin 1) (Number v)).

Section confidence.
Context `{Env}.

Lemma Qle_bool_false (p q : Q) : Qle_bool p q = false → (q <= p)%Q.
Proof.
  intros Hf. destruct (Qlt_le_dec p q) as [Hlt|Hle]; [|done].
  apply Qlt_le_weak, Qle_bool_iff in Hlt. congruence.
Qed.

(** For every value that coerces to a number other than [NaN], among
    them every JSON number, [clamp01] returns a finite number between 0
    and 1, equal to the value when that is a number in that range. The guard of line 28 does not coerce: for a value that is not
    a number and coerces to [NaN] (a missing field, in particular) the
    result is [NaN]. *)
Theorem clamp01_range (v : option json) :
  (Number v ≠ NaN ∨ Number_isNaN v = true →
     ∃ q, clamp01 v = Fin q ∧ (0 <= q)%Q ∧ (q <= 1)%Q) ∧
  (∀ q, v = Some (JNum (Fin q)) → (0 <= q)%Q → (q <= 1)%Q →
     ∃ q', clamp01 v = Fin q' ∧ (q' == q)%Q) ∧
  (Number v = NaN → Number_isNaN v = false → clamp01 v = NaN) ∧
  clamp01 None = NaN.
Proof.
  split; [|split; [|split]].
  - intros Hn. unfold clamp01.
    destruct (Number_isNaN v) eqn:Hisnan; [by exists 0%Q|].
    destruct Hn as [Hn|?]; [|done].
    destruct (Number v) as [| | |p]; [done| | |]; simpl.
    + exists 1%Q. by repeat split.
    + exists 0%Q. by repeat split.
    + destruct (Qle_bool 1 p) eqn:H1; simpl.
      * exists 1%Q. by repeat split.
      * destruct (Qle_bool 0 p) eqn:H0.
        -- exists p. split; [done|]. split; [by apply Qle_bool_iff|by apply Qle_bool_false].
        -- exists 0%Q. by repeat split.
  - intros q -> H0 H1. unfold clamp01. simpl.
    destruct (Qle_bool 1 q) eqn:Hle; simpl.
    + exists 1%Q. split; [done|]. apply Qle_antisym; [by apply Qle_bool_iff|done].
    + exists q. by rewrite (proj2 (Qle_bool_iff 0 q)).
  - intros Hn Hisnan. unfold clamp01. by rewrite Hisnan, Hn.
  - reflexivity.
Qed.

End confidence.

(** ** CSV export (index.ts, lines 353-357) *)

Definition quote : ascii := "034"%char.
Definition comma : ascii := ","%char.
Definition newline : ascii := "010"%char.

(** The test of the character class of line 355. *)
Fixpoint needs_quoting (s : string) : bool :=
  match s with
  | EmptyString => false
  | String c rest =>
      Ascii.eqb c quote || Ascii.eqb c comma || Ascii.eqb c newline || needs_quoting rest
  end.

(** [s.replaceAll] of line 355: every double quote is written twice. *)
Fixpoint double_quotes (s : string) : string :=
  match s with
  | EmptyString => EmptyString
  | String c rest =>
      if Ascii.eqb c quote then String quote (String quote (double_quotes rest))
      else String c (double_quotes rest)
  end.

(** [escape], on a column that holds a string or [null]. *)
Definition escape (v : option string) : string :=
  let s := default EmptyString v in
  if needs_quoting s
  then String quote (double_quotes s ++ String quote EmptyString)
  else s.

(** The number of double quotes of a string. *)
Fixpoint quotes (s : string) : nat :=
  match s with
  | EmptyString => 0
  | String c rest => (if Ascii.eqb c quote then 1 else 0) + quotes rest
  end.

Section csv.

Lemma string_app_inv_tail (a b t : string) : (a ++ t = b ++ t)%string → a = b.
Proof.
  intros Heq.
  assert (∀ x y : string, String.length (x ++ y) = (String.length x + String.length y)%nat)
    as Hlen by (intros x y; induction x as [|c x IH]; simpl; [done|by rewrite IH]).
  revert b Heq. induction a as [|c a IH]; intros [|c' b] Heq; simpl in *; try done.
  - apply (f_equal String.length) in Heq. rewrite ?Hlen in Heq. simpl in Heq.
    rewrite ?Hlen in Heq. lia.
  - apply (f_equal String.length) in Heq. rewrite ?Hlen in Heq. simpl in Heq.
    rewrite ?Hlen in Heq. lia.
  - injection Heq as -> Heq. f_equal. by apply IH.
Qed.

Lemma double_quotes_inj (a b : string) : double_quotes a = double_quotes b → a = b.
Proof.
  revert b. induction a as [|c a IH]; intros [|c' b] Heq; simpl in Heq; try done.
  - by destruct (Ascii.eqb c' quote).
  - by destruct (Ascii.eqb c quote).
  - destruct (Ascii.eqb c quote) eqn:Hc, (Ascii.eqb c' quote) eqn:Hc'.
    + apply Ascii.eqb_eq in Hc, Hc'. subst. f_equal. apply IH. by simplify_eq.
    + injection Heq as <- _. by rewrite Ascii.eqb_refl in Hc'.
    + injection Heq as -> _. by rewrite Ascii.eqb_refl in Hc.
    + injection Heq as -> Heq. f_equal. by apply IH.
Qed.

Lemma quotes_app (a b : string) : quotes (a ++ b) = (quotes a + quotes b)%nat.
Proof. induction a as [|c a IH]; simpl; [done|]. rewrite IH. lia. Qed.

Lemma quotes_double (s : string) : quotes (double_quotes s) = (2 * quotes s)%nat.
Proof.
  induction s as [|c s IH]; simpl; [done|].
  destruct (Ascii.eqb c quote) eqn:Hc; simpl; rewrite ?Ascii.eqb_refl, ?Hc, IH; lia.
Qed.

(** The export writes distinct values of a column as distinct fields. A
    field is left as it is only when it holds no double quote, comma or
    line feed; otherwise it is put between double quotes with its own
    double quotes doubled, so the field holds an even number of them.
    [null] and the empty string are written alike. *)
Theorem escape_injective (s1 s2 : string) :
  (escape (Some s1) = escape (Some s2) → s1 = s2) ∧
  (needs_quoting s1 = false → escape (Some s1) = s1) ∧
  (needs_quoting s1 = true →
     escape (Some s1) = String quote (double_quotes s1 ++ String quote EmptyString) ∧
     quotes (escape (Some s1)) = (2 * quotes s1 + 2)%nat) ∧
  escape None = escape (Some EmptyString).
Proof.
  split; [|split; [|split]].
  - unfold escape. simpl.
    destruct (needs_quoting s1) eqn:H1, (needs_quoting s2) eqn:H2; intros Heq.
    + injection Heq as Heq. by apply string_app_inv_tail, double_quotes_inj in Heq.
    + subst s2. simpl in H2. discriminate H2.
    + subst s1. simpl in H1. discriminate H1.
    + done.
  - intros Hn. unfold escape. simpl. by rewrite Hn.
  - intros Hn. unfold escape. simpl default. rewrite Hn. split; [done|].
    change (quotes (String quote (double_quotes s1 ++ String quote EmptyString)))
      with (1 + quotes (double_quotes s1 ++ String quote EmptyString))%nat.
    rewrite quotes_app, quotes_double.
    change (quotes (String quote EmptyString)) with 1%nat. lia.
  - reflexivity.
Qed.

End csv.

(** ** Image lists (label/openai.ts, line 76; crawler/makerworld.ts, lines 341-343) *)

(** [Array.from(new Set(l))]: the first occurrence of each element, in
    the order of the list. *)
Fixpoint uniq_from (seen l : list string) : list string :=
  match l with
  | [] => []
  | x :: rest =>
      if decide (x ∈ seen) then uniq_from seen rest else x :: uniq_from (x :: seen) rest
  end.

Definition Array_from_Set (l : list string) : list string := uniq_from [] l.

(** The images [labelWithOpenAI] sends (line 76). *)
Definition sent_imageUrls (imageUrls : list string) : list string :=
  take 10 (Array_from_Set (filter (λ u, truthy_str u = true) imageUrls)).

(** The images [scrapeModelPageInContext] returns (lines 341-343), with
    the outcome of the test of line 342 as [preferred]. *)
Definition scraped_imageUrls (preferred : string → bool) (ogImage : option string)
    (imgHrefs : list string) : list string :=
  let uniq :=
    Array_from_Set (filter (λ u, truthy_str u = true) (option_list ogImage ++ imgHrefs)) in
  take 30 (match filter (λ u, preferred u = true) uniq with
           | [] => uniq
           | chosen => chosen
           end).

Section image_lists.

Lemma uniq_from_spec (l seen : list string) :
  NoDup (uniq_from seen l) ∧ ∀ x, x ∈ uniq_from seen l ↔ x ∈ l ∧ x ∉ seen.
Proof.
  revert seen. induction l as [|a l IH]; intros seen; simpl.
  - split; [constructor|]. intros x. rewrite elem_of_nil. tauto.
  - destruct (decide (a ∈ seen)) as [Hin|Hout].
    + destruct (IH seen) as [Hnd Hspec]. split; [done|].
      intros x. rewrite Hspec, elem_of_cons. split; [tauto|].
      intros [[->|Hx] Hs]; [done|tauto].
    + destruct (IH (a :: seen)) as [Hnd Hspec]. split.
      * constructor; [|done]. rewrite Hspec, elem_of_cons. tauto.
      * intros x. rewrite !elem_of_cons, Hspec, elem_of_cons.
        destruct (decide (x = a)) as [->|Hne]; [tauto|]. tauto.
Qed.

Lemma uniq_from_fixed (l seen : list string) :
  NoDup l → (∀ x, x ∈ l → x ∉ seen) → uniq_from seen l = l.
Proof.
  revert seen. induction l as [|a l IH]; intros seen Hnd Hs; simpl; [done|].
  apply NoDup_cons in Hnd as [Ha Hnd].
  rewrite decide_False by (apply Hs; by left). f_equal. apply IH; [done|].
  intros x Hx [->|Hin]%elem_of_cons; [done|]. apply (Hs x); [by right|done].
Qed.

Lemma filter_fixed {A} (P : A → Prop) `{∀ x, Decision (P x)} (l : list A) :
  (∀ x, x ∈ l → P x) → filter P l = l.
Proof.
  induction l as [|a l IH]; intros Hl; [done|].
  rewrite filter_cons, decide_True by (apply Hl; by left).
  f_equal. apply IH. intros x Hx. apply Hl. by right.
Qed.

(** The service is sent at most 10 images: each is one of the urls
    given, none is empty, none is sent twice. A list that already is
    like that is sent as it is. *)
Theorem sent_imageUrls_spec (imageUrls : list string) :
  let sent := sent_imageUrls imageUrls in
  NoDup sent ∧ (length sent ≤ 10)%nat ∧
  (∀ u, u ∈ sent → u ∈ imageUrls ∧ u ≠ EmptyString) ∧
  (NoDup imageUrls → (length imageUrls ≤ 10)%nat → EmptyString ∉ imageUrls →
     sent = imageUrls).
Proof.
  simpl. unfold sent_imageUrls, Array_from_Set.
  destruct (uniq_from_spec (filter (λ u, truthy_str u = true) imageUrls) []) as [Hnd Hspec].
  split; [|split; [|split]].
  - eapply sublist_NoDup; [done|apply sublist_take].
  - rewrite length_take. lia.
  - intros u Hu. eapply elem_of_sublist in Hu; [|apply sublist_take].
    apply Hspec in Hu as [[Ht Hin]%list_elem_of_filter _]. split; [done|].
    intros ->. done.
  - intros Hnd' Hlen Hne.
    rewrite filter_fixed.
    + rewrite uniq_from_fixed; [by apply take_ge|done|]. by intros x _ ?%elem_of_nil.
    + intros x Hx. destruct x; [done|done].
Qed.

(** A scrape returns at most 30 images: each is the [og:image] or the
    source of an [img] element, none is empty, none appears twice; and
    as soon as one of them passes the test of line 342, only images that
    pass it are returned. *)
Theorem scraped_imageUrls_spec (preferred : string → bool) (ogImage : option string)
    (imgHrefs : list string) :
  let urls := scraped_imageUrls preferred ogImage imgHrefs in
  NoDup urls ∧ (length urls ≤ 30)%nat ∧
  (∀ u, u ∈ urls → (ogImage = Some u ∨ u ∈ imgHrefs) ∧ u ≠ EmptyString) ∧
  ((∃ u, (ogImage = Some u ∨ u ∈ imgHrefs) ∧ u ≠ EmptyString ∧ preferred u = true) →
   ∀ u, u ∈ urls → preferred u = true).
Proof.
  simpl. unfold scraped_imageUrls, Array_from_Set.
  set (all := option_list ogImage ++ imgHrefs).
  destruct (uniq_from_spec (filter (λ u, truthy_str u = true) all) []) as [Hnd Hspec].
  set (uniq := uniq_from [] (filter (λ u, truthy_str u = true) all)) in *.
  assert (∀ u, u ∈ all ↔ ogImage = Some u ∨ u ∈ imgHrefs) as Hall.
  { intros u. unfold all. rewrite elem_of_app. destruct ogImage as [o|]; simpl.
    - rewrite list_elem_of_singleton. split; intros [?|?]; auto; left; congruence.
    - rewrite elem_of_nil. split; intros [?|?]; auto; done. }
  assert (∀ u, u ∈ uniq ↔ (ogImage = Some u ∨ u ∈ imgHrefs) ∧ u ≠ EmptyString) as Huniq.
  { intros u. rewrite Hspec, list_elem_of_filter, Hall, elem_of_nil.
    assert (truthy_str u = true ↔ u ≠ EmptyString) as Ht by (by destruct u).
    tauto. }
  set (chosen := filter (λ u, preferred u = true) uniq).
  assert (NoDup chosen) as Hndc by (by apply NoDup_filter).
  assert (∀ u, u ∈ chosen ↔ u ∈ uniq ∧ preferred u = true) as Hchosen.
  { intros u. unfold chosen. rewrite list_elem_of_filter. tauto. }
  split; [|split; [|split]].
  - destruct chosen; (eapply sublist_NoDup; [|apply sublist_take]); done.
  - rewrite length_take. lia.
  - intros u Hu. eapply elem_of_sublist in Hu; [|apply sublist_take].
    apply Huniq. destruct chosen as [|c chosen'] eqn:Hc; [done|].
    by apply Hchosen in Hu as [? _].
  - intros (u0 & Hin0 & Hne0 & Hp0) u Hu.
    eapply elem_of_sublist in Hu; [|apply sublist_take].
    destruct chosen as [|c chosen'] eqn:Hc.
    + assert (u0 ∈ @nil string) as Hx; [|by apply elem_of_nil in Hx].
      apply Hchosen. split; [by apply Huniq|done].
    + by apply Hchosen in Hu as [_ ?].
Qed.

End image_lists.

(** ** Labeling service: the answer (label/openai.ts, lines 161-182) *)

Definition lbrace : ascii := "{"%char.
Definition rbrace : ascii := "}"%char.

(** The loop of lines 168-180 at index [i], over what is left of the
    text; [start = -1] is [None]. It returns the bounds [start] and
    [i + 1] of the slice of line 176. *)
Fixpoint scan_braces (rest : list ascii) (i : nat) (start : option nat) (depth : Z)
    : option (nat * nat) :=
  match rest with
  | [] => None
  | ch :: rest' =>
      if Ascii.eqb ch lbrace then
        scan_braces rest' (S i) (if Z.eqb depth 0 then Some i else start) (depth + 1)
      else if Ascii.eqb ch rbrace then
        match Z.eqb (depth - 1) 0, start with
        | true, Some a => Some (a, S i)
        | _, _ => scan_braces rest' (S i) start (depth - 1)
        end
      else scan_braces rest' (S i) start depth
  end.

(** How [parseJsonObject] ends. *)
Inductive Parsed :=
| Value (v : json)
| SyntaxError (text : string)         (* JSON.parse(candidate) throws *)
| LABEL_INVALID_JSON.

(** [parseJsonObject], on the trimmed answer. *)
Definition parseJsonObject `{Env} (trimmed : string) : Parsed :=
  match JSON_parse trimmed with
  | Some v => Value v
  | None =>
      match scan_braces (list_ascii_of_string trimmed) 0 None 0 with
      | Some (a, b) =>
          let candidate := String.substring a (b - a) trimmed in
          match JSON_parse candidate with
          | Some v => Value v
          | None => SyntaxError candidate
          end
      | None => LABEL_INVALID_JSON
      end
  end.

(** Opening minus closing braces. *)
Fixpoint depth_of (l : list ascii) : Z :=
  match l with
  | [] => 0
  | ch :: rest =>
      (if Ascii.eqb ch lbrace then 1 else if Ascii.eqb ch rbrace then -1 else 0) + depth_of rest
  end.

(** The braces of [l] match and enclose all of it. *)
Definition enclosed (l : list ascii) : Prop :=
  depth_of l = 0 ∧ ∀ k, (0 < k < length l)%nat → 1 <= depth_of (take k l).

Section answer.
Context `{Env}.

Lemma depth_of_app (l k : list ascii) : depth_of (l ++ k) = depth_of l + depth_of k.
Proof. induction l as [|c l IH]; simpl; [done|]. rewrite IH. lia. Qed.

(** What the loop knows at index [length pre]. *)
Definition scan_inv (pre : list ascii) (start : option nat) (depth : Z) : Prop :=
  match start with
  | None => depth <= 0
  | Some a =>
      1 <= depth ∧ (a < length pre)%nat ∧ pre !! a = Some lbrace ∧
      depth = depth_of (drop a pre) ∧
      ∀ k, (0 < k ≤ length pre - a)%nat → 1 <= depth_of (take k (drop a pre))
  end.

Lemma scan_inv_snoc (pre : list ascii) (a : nat) (depth : Z) (ch : ascii) (delta : Z) :
  scan_inv pre (Some a) depth → depth_of [ch] = delta → 1 <= depth + delta →
  scan_inv (pre ++ [ch]) (Some a) (depth + delta).
Proof.
  intros (Hd & Ha & Hl & Hdep & Hpre) Hch Hd'. unfold scan_inv.
  rewrite length_app. simpl length.
  split; [done|]. split; [lia|]. split; [by apply lookup_app_l_Some|].
  rewrite drop_app_le by lia. rewrite depth_of_app, <- Hdep, Hch.
  split; [done|]. intros k Hk.
  destruct (decide (k ≤ length pre - a)%nat) as [Hle|Hgt].
  - rewrite take_app_le by (rewrite length_drop; lia). apply Hpre. lia.
  - rewrite take_ge by (rewrite length_app, length_drop; simpl; lia).
    rewrite depth_of_app, <- Hdep, Hch. done.
Qed.

Lemma scan_braces_enclosed (rest : list ascii) :
  ∀ pre start depth a b,
    scan_braces rest (length pre) start depth = Some (a, b) → scan_inv pre start depth →
    (a < b ≤ length (pre ++ rest))%nat ∧
    (pre ++ rest) !! a = Some lbrace ∧ (pre ++ rest) !! (b - 1)%nat = Some rbrace ∧
    enclosed (take (b - a) (drop a (pre ++ rest))).
Proof.
  induction rest as [|ch rest IH]; intros pre start depth a b Hs Hinv; [done|].
  assert (length (pre ++ [ch]) = S (length pre)) as Hlen
    by (rewrite length_app; simpl; lia).
  assert (∀ start' depth',
            scan_braces rest (S (length pre)) start' depth' = Some (a, b) →
            scan_inv (pre ++ [ch]) start' depth' →
            (a < b ≤ length (pre ++ ch :: rest))%nat ∧
            (pre ++ ch :: rest) !! a = Some lbrace ∧
            (pre ++ ch :: rest) !! (b - 1)%nat = Some rbrace ∧
            enclosed (take (b - a) (drop a (pre ++ ch :: rest)))) as Hnext.
  { intros start' depth' Hs' Hinv'. rewrite <- Hlen in Hs'.
    rewrite (cons_middle ch pre rest), app_assoc. by eapply IH. }
  cbn [scan_braces] in Hs.
  destruct (Ascii.eqb ch lbrace) eqn:Hl.
  - (* an opening brace *)
    apply Ascii.eqb_eq in Hl as ->.
    apply Hnext in Hs; [done|].
    destruct start as [a0|]; simpl in Hinv.
    + destruct Hinv as (Hd & ?). rewrite (proj2 (Z.eqb_neq depth 0)) by lia.
      apply scan_inv_snoc; [done|done|lia].
    + destruct (Z.eqb depth 0) eqn:Hz.
      * apply Z.eqb_eq in Hz as ->. unfold scan_inv. rewrite Hlen.
        split; [done|]. split; [lia|].
        split; [by rewrite lookup_app_r, Nat.sub_diag by lia|].
        rewrite drop_app_length. split; [done|].
        intros k Hk. rewrite take_ge by (simpl; lia). done.
      * apply Z.eqb_neq in Hz. simpl. lia.
  - destruct (Ascii.eqb ch rbrace) eqn:Hr.
    + (* a closing brace *)
      apply Ascii.eqb_eq in Hr as ->.
      destruct (Z.eqb (depth - 1) 0) eqn:Hz, start as [a0|]; simpl in Hinv.
      * (* the candidate *)
        simplify_eq. apply Z.eqb_eq in Hz.
        destruct Hinv as (Hd & Ha & Hla & Hdep & Hpre).
        rewrite length_app. simpl length.
        split; [lia|]. split; [by apply lookup_app_l_Some|].
        split.
        { replace (S (length pre) - 1)%nat with (length pre) by lia.
          by rewrite lookup_app_r, Nat.sub_diag by lia. }
        rewrite drop_app_le by lia.
        replace (S (length pre) - a)%nat with (length (drop a pre ++ [rbrace]))
          by (rewrite length_app, length_drop; simpl; lia).
        rewrite (cons_middle rbrace (drop a pre) rest), app_assoc, take_app_length.
        split.
        -- rewrite depth_of_app, <- Hdep. simpl. lia.
        -- intros k Hk. rewrite length_app, length_drop in Hk. simpl in Hk.
           rewrite take_app_le by (rewrite length_drop; lia). apply Hpre. lia.
      * apply Hnext in Hs; [done|]. simpl. apply Z.eqb_eq in Hz. lia.
      * apply Hnext in Hs; [done|].
        destruct Hinv as (Hd & ?). apply Z.eqb_neq in Hz.
        replace (depth - 1) with (depth + -1) by lia.
        apply scan_inv_snoc; [done|done|lia].
      * apply Hnext in Hs; [done|]. simpl. lia.
    + (* any other character *)
      apply Hnext in Hs; [done|].
      destruct start as [a0|]; [|done].
      replace depth with (depth + 0) by lia.
      apply scan_inv_snoc; [done| |destruct Hinv; lia].
      simpl. by rewrite Hl, Hr.
Qed.

(** An answer that parses as it stands is returned as parsed. Otherwise
    the candidate handed to [JSON.parse] begins with an opening brace,
    ends with the closing brace that matches it, and its braces are
    balanced throughout; when it does not parse, the parser's error is
    thrown and the scan does not go on; [LABEL_INVALID_JSON] is thrown
    only when the scan finds no candidate. *)
Theorem parseJsonObject_candidate (trimmed : string) :
  (∀ v, JSON_parse trimmed = Some v → parseJsonObject trimmed = Value v) ∧
  (∀ a b, JSON_parse trimmed = None →
     scan_braces (list_ascii_of_string trimmed) 0 None 0 = Some (a, b) →
     let text := list_ascii_of_string trimmed in
     (a < b ≤ length text)%nat ∧
     text !! a = Some lbrace ∧ text !! (b - 1)%nat = Some rbrace ∧
     enclosed (take (b - a) (drop a text)) ∧
     parseJsonObject trimmed
     = match JSON_parse (String.substring a (b - a) trimmed) with
       | Some v => Value v
       | None => SyntaxError (String.substring a (b - a) trimmed)
       end) ∧
  (parseJsonObject trimmed = LABEL_INVALID_JSON ↔
   JSON_parse trimmed = None ∧ scan_braces (list_ascii_of_string trimmed) 0 None 0 = None).
Proof.
  split; [|split].
  - intros v Hv. unfold parseJsonObject. by rewrite Hv.
  - intros a b Hp Hs. simpl.
    destruct (scan_braces_enclosed _ [] None 0 a b Hs) as (? & ? & ? & ?); [simpl; lia|].
    repeat (split; [done|]). unfold parseJsonObject. by rewrite Hp, Hs.
  - unfold parseJsonObject. destruct (JSON_parse trimmed); [by split; [|intros [? _]]|].
    destruct (scan_braces _ _ _ _) as [[a b]|]; [|done].
    destruct (JSON_parse _); by split; [|intros [_ ?]].
Qed.

End answer.

(** ** Worker address of the web front end (lib/worker.ts) *)

Definition slash : ascii := "/"%char.

(** [s.replace(/\/+$/, "")]: the slashes at the end are dropped. *)
Fixpoint strip_slashes (s : string) : string :=
  match s with
  | EmptyString => EmptyString
  | String c rest =>
      match strip_slashes rest with
      | EmptyString => if Ascii.eqb c slash then EmptyString else String c EmptyString
      | kept => String c kept
      end
  end.

(** [workerBaseUrl], given [process.env.NEXT_PUBLIC_WORKER_URL] and
    whether [NODE_ENV] is "production". *)
Definition workerBaseUrl (NEXT_PUBLIC_WORKER_URL : option string) (production : bool) : string :=
  strip_slashes
    (match NEXT_PUBLIC_WORKER_URL with
     | Some base => base
     | None => if production then "/wapi" else "http://localhost:4000"
     end).

(** [workerUrl]. *)
Definition workerUrl (NEXT_PUBLIC_WORKER_URL : option string) (production : bool)
    (path : string) : string :=
  (workerBaseUrl NEXT_PUBLIC_WORKER_URL production
   ++ match path with
      | String c _ => if Ascii.eqb c slash then path else String slash path
      | EmptyString => String slash path
      end)%string.

(** The last character is a slash. *)
Fixpoint ends_with_slash (s : string) : bool :=
  match s with
  | EmptyString => false
  | String c EmptyString => Ascii.eqb c slash
  | String _ rest => ends_with_slash rest
  end.

(** A string of [n] slashes. *)
Fixpoint slashes (n : nat) : string :=
  match n with
  | O => EmptyString
  | S n => String slash (slashes n)
  end.

Section worker_address.

Lemma strip_slashes_end (s : string) : ends_with_slash (strip_slashes s) = false.
Proof.
  induction s as [|c s IH]; simpl; [done|].
  destruct (strip_slashes s) as [|c' kept] eqn:Hs.
  - destruct (Ascii.eqb c slash) eqn:Hc; simpl; [done|by rewrite Hc].
  - simpl in *. done.
Qed.

Lemma append_Empty (b : string) : (EmptyString ++ b)%string = b.
Proof. reflexivity. Qed.

Lemma append_String (c : ascii) (a b : string) :
  (String c a ++ b)%string = String c (a ++ b)%string.
Proof. reflexivity. Qed.

Lemma strip_slashes_split (s : string) : ∃ n, s = (strip_slashes s ++ slashes n)%string.
Proof.
  induction s as [|c s [n IH]]; simpl; [by exists 0%nat|].
  destruct (strip_slashes s) as [|c' kept] eqn:Hs.
  - rewrite append_Empty in IH. destruct (Ascii.eqb c slash) eqn:Hc.
    + apply Ascii.eqb_eq in Hc as ->. exists (S n). rewrite append_Empty. simpl. by rewrite <- IH.
    + exists n. rewrite append_String, append_Empty. by rewrite <- IH.
  - exists n. rewrite append_String. by rewrite <- IH.
Qed.

Lemma strip_slashes_fixed (s : string) : ends_with_slash s = false → strip_slashes s = s.
Proof.
  induction s as [|c s IH]; simpl; [done|].
  destruct s as [|c' s']; simpl in *; [by intros ->|].
  intros Hs. rewrite (IH Hs). done.
Qed.

(** The base address never ends with a slash, whatever the environment
    holds: it is the configured address with all the slashes at its end
    dropped. [workerUrl] puts exactly one slash between it and a path
    that brings none, and none in front of a path that brings its own. *)
Theorem workerUrl_joint (NEXT_PUBLIC_WORKER_URL : option string) (production : bool)
    (path : string) :
  let base := workerBaseUrl NEXT_PUBLIC_WORKER_URL production in
  ends_with_slash base = false ∧
  (∀ configured, NEXT_PUBLIC_WORKER_URL = Some configured →
     ∃ n, configured = (base ++ slashes n)%string) ∧
  strip_slashes base = base ∧
  ∃ tail, workerUrl NEXT_PUBLIC_WORKER_URL production path
          = (base ++ String slash tail)%string ∧
          (path = String slash tail ∨
           path = tail ∧ ∀ rest, path ≠ String slash rest).
Proof.
  simpl. split; [apply strip_slashes_end|]. split; [|split].
  - intros configured ->. apply strip_slashes_split.
  - apply strip_slashes_fixed, strip_slashes_end.
  - unfold workerUrl. destruct path as [|c rest].
    + exists EmptyString. split; [done|]. right. by split.
    + destruct (Ascii.eqb c slash) eqn:Hc.
      * apply Ascii.eqb_eq in Hc as ->. exists rest. split; [done|by left].
      * exists (String c rest). split; [done|]. right. split; [done|].
        intros rest' [= -> _]. by rewrite Ascii.eqb_refl in Hc.
Qed.

End worker_address.

(** ** Model links (crawler/makerworld.ts, lines 27-34) *)

(** [\d]. *)
Definition is_digit (c : ascii) : bool :=
  (48 <=? nat_of_ascii c)%nat && (nat_of_ascii c <=? 57)%nat.

(** [(\d+)] at the head of a string is greedy: the digits there, and
    what follows them. *)
Fixpoint span_digits (s : string) : string * string :=
  match s with
  | EmptyString => (EmptyString, EmptyString)
  | String c rest =>
      if is_digit c then (String c (span_digits rest).1, (span_digits rest).2)
      else (EmptyString, s)
  end.

(** What is left of [s] after the literal [p] at its head. *)
Fixpoint after_literal (p s : string) : option string :=
  match p, s with
  | EmptyString, _ => Some s
  | String a p', String b s' => if Ascii.eqb a b then after_literal p' s' else None
  | String _ _, EmptyString => None
  end.

(** The pattern of line 29 with the given language, at the head of [s]. *)
Definition match_lang (lang s : string) : option (string * string) :=
  match after_literal ("/" ++ lang ++ "/models/") s with
  | Some rest =>
      match (span_digits rest).1 with
      | EmptyString => None
      | digits => Some (lang, digits)
      end
  | None => None
  end.

(** The pattern of line 29 at the head of [s]: the two groups. *)
Definition match_here (s : string) : option (string * string) :=
  match match_lang "zh" s with
  | Some groups => Some groups
  | None => match_lang "en" s
  end.

(** [s.match(/\/(zh|en)\/models\/(\d+)/)]: the leftmost match. *)
Fixpoint match_model (s : string) : option (string * string) :=
  match match_here s with
  | Some groups => Some groups
  | None =>
      match s with
      | EmptyString => None
      | String _ rest => match_model rest
      end
  end.

Definition canonical_path (lang id : string) : string := ("/" ++ lang ++ "/models/" ++ id)%string.

(** [extractModelIdAndUrl], on the [pathname] of the URL its argument
    resolves to. *)
Definition extractModelIdAndUrl (pathname : string) : option QueueItem.t :=
  match match_model pathname with
  | Some (lang, id) => Some (QueueItem.mk id ("https://makerworld.com" ++ canonical_path lang id))
  | None => None
  end.

(** A non-empty string of digits. *)
Fixpoint all_digits (s : string) : bool :=
  match s with
  | EmptyString => true
  | String c rest => is_digit c && all_digits rest
  end.

Definition is_id (s : string) : Prop := s ≠ EmptyString ∧ all_digits s = true.

Section model_links.

Lemma span_digits_digits (s : string) : all_digits (span_digits s).1 = true.
Proof.
  induction s as [|c s IH]; simpl; [done|].
  destruct (is_digit c) eqn:Hc; simpl; [by rewrite Hc, IH|done].
Qed.

Lemma span_digits_app (id rest : string) :
  all_digits id = true →
  (∀ c rest', rest = String c rest' → is_digit c = false) →
  span_digits (id ++ rest) = (id, rest).
Proof.
  intros Hid Hrest. induction id as [|c id IH].
  - rewrite append_Empty. destruct rest as [|c rest']; [done|].
    simpl. by rewrite (Hrest c rest' eq_refl).
  - rewrite append_String. simpl in *. apply andb_true_iff in Hid as [-> Hid].
    by rewrite (IH Hid).
Qed.

Lemma after_literal_app (p rest : string) : after_literal p (p ++ rest) = Some rest.
Proof.
  induction p as [|a p IH]; [by destruct rest|].
  rewrite append_String. simpl. by rewrite Ascii.eqb_refl.
Qed.

Lemma append_assoc (a b c : string) : ((a ++ b) ++ c)%string = (a ++ (b ++ c))%string.
Proof. induction a as [|x a IH]; [done|]. rewrite !append_String. by rewrite IH. Qed.

Lemma match_lang_canonical (lang id rest : string) :
  is_id id → (∀ c rest', rest = String c rest' → is_digit c = false) →
  match_lang lang (canonical_path lang id ++ rest) = Some (lang, id).
Proof.
  intros [Hne Hid] Hrest. unfold match_lang, canonical_path.
  replace (("/" ++ lang ++ "/models/" ++ id) ++ rest)%string
    with (("/" ++ lang ++ "/models/") ++ (id ++ rest))%string
    by (by rewrite !append_assoc).
  rewrite after_literal_app, span_digits_app by done. simpl. by destruct id.
Qed.

Lemma match_lang_Some (lang s : string) (groups : string * string) :
  match_lang lang s = Some groups → groups.1 = lang ∧ is_id groups.2.
Proof.
  unfold match_lang. destruct (after_literal _ s) as [rest|]; [|done].
  pose proof (span_digits_digits rest) as Hd.
  destruct (span_digits rest).1 as [|c ds] eqn:Hs; [done|].
  intros [= <-]. by split.
Qed.

Lemma match_here_Some (s : string) (groups : string * string) :
  match_here s = Some groups →
  (groups.1 = "zh" ∨ groups.1 = "en") ∧ is_id groups.2.
Proof.
  unfold match_here. destruct (match_lang "zh" s) as [g|] eqn:Hzh.
  - intros [= <-]. apply match_lang_Some in Hzh as [? ?]. split; [by left|done].
  - intros Hen. apply match_lang_Some in Hen as [? ?]. split; [by right|done].
Qed.

Lemma match_model_Some (s : string) (groups : string * string) :
  match_model s = Some groups →
  (groups.1 = "zh" ∨ groups.1 = "en") ∧ is_id groups.2.
Proof.
  induction s as [|c s IH]; cbn [match_model];
    destruct (match_here _) as [g|] eqn:Hh; try done;
    intros [= <-]; by eapply match_here_Some.
Qed.

(** Whatever [extractModelIdAndUrl] returns has an identity made of
    digits, at least one, and the address of that identity on
    makerworld.com under [/zh] or [/en]: host, query and whatever else
    the link carried are gone. On the path of an address it has returned,
    also when a slug or a further segment follows the number, it returns
    the same model again. *)
Theorem extractModelIdAndUrl_canonical (pathname : string) :
  (∀ found, extractModelIdAndUrl pathname = Some found →
     is_id (QueueItem.id found) ∧
     ∃ lang, (lang = "zh" ∨ lang = "en") ∧
             QueueItem.url found
             = ("https://makerworld.com" ++ canonical_path lang (QueueItem.id found))%string) ∧
  (∀ lang id rest,
     (lang = "zh" ∨ lang = "en") → is_id id →
     (∀ c rest', rest = String c rest' → is_digit c = false) →
     pathname = (canonical_path lang id ++ rest)%string →
     extractModelIdAndUrl pathname
     = Some (QueueItem.mk id ("https://makerworld.com" ++ canonical_path lang id))).
Proof.
  split.
  - intros found. unfold extractModelIdAndUrl.
    destruct (match_model pathname) as [[lang id]|] eqn:Hm; [|done].
    intros [= <-]. apply match_model_Some in Hm as [Hlang Hid]. simpl in *.
    split; [done|]. by exists lang.
  - intros lang id rest Hlang Hid Hrest ->. unfold extractModelIdAndUrl.
    assert (match_model (canonical_path lang id ++ rest) = Some (lang, id)) as ->; [|done].
    assert (match_here (canonical_path lang id ++ rest) = Some (lang, id)) as Hh.
    { unfold match_here. destruct Hlang as [-> | ->].
      - by rewrite match_lang_canonical.
      - assert (match_lang "zh" (canonical_path "en" id ++ rest) = None) as ->.
        { unfold match_lang, canonical_path. by rewrite !append_String. }
        by rewrite match_lang_canonical. }
    destruct (canonical_path lang id ++ rest)%string; cbn [match_model]; by rewrite Hh.
Qed.

End model_links.

(** ** Download counts (crawler/makerworld.ts, lines 141-147) *)

(** [s.replace(/[^...]/g, "")]: the characters that pass [keep]. *)
Fixpoint only (keep : ascii → bool) (s : string) : string :=
  match s with
  | EmptyString => EmptyString
  | String c rest => if keep c then String c (only keep rest) else only keep rest
  end.

(** The value of a string of decimal digits, read from the left. *)
Fixpoint decimal_from (acc : Z) (s : string) : Z :=
  match s with
  | EmptyString => acc
  | String c rest => decimal_from (10 * acc + (Z.of_nat (nat_of_ascii c) - 48)) rest
  end.

(** [Number(s)] for a string of decimal digits: 0 for the empty string,
    the value itself while it is a safe integer, and what the built-in
    rounds it to beyond. *)
Definition Number_of_digits `{Env} (s : string) : jsnum :=
  if decide (decimal_from 0 s <= 9007199254740992)
  then Fin (inject_Z (decimal_from 0 s))
  else StringToNumber s.

(** [parseNumber]; [None] is [null]. *)
Definition parseNumber `{Env} (text : string) : option jsnum :=
  let raw := only (λ c, is_digit c || Ascii.eqb c comma) text in
  if truthy_str raw then
    match Number_of_digits (only (λ c, negb (Ascii.eqb c comma)) raw) with
    | NaN => None
    | n => Some n
    end
  else None.

Section download_counts.
Context `{Env}.

Lemma only_app (keep : ascii → bool) (a b : string) :
  only keep (a ++ b) = (only keep a ++ only keep b)%string.
Proof.
  induction a as [|c a IH]; [done|]. rewrite append_String. simpl.
  destruct (keep c); [by rewrite append_String, IH|done].
Qed.

Lemma only_only (s : string) :
  only (λ c, negb (Ascii.eqb c comma)) (only (λ c, is_digit c || Ascii.eqb c comma) s)
  = only is_digit s.
Proof.
  induction s as [|c s IH]; simpl; [done|].
  destruct (is_digit c) eqn:Hd; simpl.
  - destruct (Ascii.eqb c comma) eqn:Hc; simpl; [|by rewrite IH].
    apply Ascii.eqb_eq in Hc as ->. done.
  - destruct (Ascii.eqb c comma) eqn:Hc; simpl; [by rewrite Hc|done].
Qed.

Lemma decimal_from_nonneg (s : string) (acc : Z) :
  0 <= acc → all_digits s = true → 0 <= decimal_from acc s.
Proof.
  revert acc. induction s as [|c s IH]; intros acc Hacc Hs; simpl in *; [done|].
  apply andb_true_iff in Hs as [Hc Hs]. apply IH; [|done].
  unfold is_digit in Hc. apply andb_true_iff in Hc as [Hlo _].
  apply Nat.leb_le in Hlo. lia.
Qed.

Lemma only_digits (s : string) : all_digits (only is_digit s) = true.
Proof.
  induction s as [|c s IH]; simpl; [done|].
  destruct (is_digit c) eqn:Hc; simpl; [by rewrite Hc|done].
Qed.

(** [parseNumber] reads the digits of a text and nothing else: a
    character that is neither a digit nor a comma does not change the
    result, so a sign or a decimal point is passed over. It returns
    [null] exactly when the text has no digit and no comma; a text with
    commas and no digit reads as 0; otherwise, while the digits make a
    safe integer, the result is that integer, never negative. *)
Theorem parseNumber_digits (text : string) :
  (∀ pre c post,
     text = (pre ++ String c post)%string → is_digit c = false → c ≠ comma →
     parseNumber text = parseNumber (pre ++ post)) ∧
  (only (λ c, is_digit c || Ascii.eqb c comma) text = EmptyString → parseNumber text = None) ∧
  (only (λ c, is_digit c || Ascii.eqb c comma) text ≠ EmptyString →
   decimal_from 0 (only is_digit text) <= 9007199254740992 →
   parseNumber text = Some (Fin (inject_Z (decimal_from 0 (only is_digit text)))) ∧
   0 <= decimal_from 0 (only is_digit text)) ∧
  (only (λ c, is_digit c || Ascii.eqb c comma) text ≠ EmptyString →
   only is_digit text = EmptyString → parseNumber text = Some (Fin 0)).
Proof.
  assert (∀ t, only (λ c, is_digit c || Ascii.eqb c comma) t ≠ EmptyString →
               decimal_from 0 (only is_digit t) <= 9007199254740992 →
               parseNumber t = Some (Fin (inject_Z (decimal_from 0 (only is_digit t))))) as Hval.
  { intros t Hraw Hsafe. unfold parseNumber.
    destruct (only (λ c, is_digit c || Ascii.eqb c comma) t) as [|c raw] eqn:Hr; [done|].
    simpl truthy_str. cbv iota. rewrite <- Hr, only_only. unfold Number_of_digits.
    by rewrite decide_True. }
  split; [|split; [|split]].
  - intros pre c post -> Hd Hc. unfold parseNumber.
    rewrite !only_app. simpl. rewrite Hd. simpl.
    by rewrite (proj2 (Ascii.eqb_neq c comma) Hc).
  - intros Hraw. unfold parseNumber. by rewrite Hraw.
  - intros Hraw Hsafe. split; [by apply Hval|].
    apply decimal_from_nonneg; [done|apply only_digits].
  - intros Hraw Hd. rewrite Hval; [by rewrite Hd|done|by rewrite Hd].
Qed.

End download_counts.

(** ** Import by URL (index.ts, lines 97-177) *)

(** Lines 129-170 for one scraped model: the upsert sets every column but
    [created_at]; the images of the model are replaced. *)
Definition import_one (now : string) (sc : ScrapedModel.t) (db : Database) : Database :=
  let id := ScrapedModel.id sc in
  let created :=
    match models db !! id with
    | Some old => ModelRow.created_at old
    | None => now
    end in
  let db1 :=
    with_models (insert id
      (ModelRow.mk (ScrapedModel.url sc) (ScrapedModel.title sc) (ScrapedModel.authorName sc)
         (ScrapedModel.downloadCount sc) (head (ScrapedModel.imageUrls sc))
         (ScrapedModel.description sc) created now)) db in
  let db2 := with_model_images (delete id) db1 in
  match ScrapedModel.imageUrls sc with
  | [] => db2
  | urls => with_model_images (insert id urls) db2
  end.

(** The loop of lines 125-171 from its [k]-th round; [clock k] is what
    [nowIso()] returns in that round. A scrape that throws ends the
    request with that error. *)
Fixpoint import_loop `{Env} (clock : nat → string) (k : nat) (urls : list string)
    (db : Database) (ids : list string) : Database * result (list string) :=
  match urls with
  | [] => (db, inr ids)
  | url :: rest =>
      match scrapeModelPageInContext url with
      | inl message => (db, inl message)
      | inr sc =>
          import_loop clock (S k) rest (import_one (clock k) sc db) (ids ++ [ScrapedModel.id sc])
      end
  end.

(** POST /api/import-models, after validation, with a context that
    opens. *)
Definition import_models `{Env} (now : string) (clock : nat → string) (urls : list string)
    (clear : bool) (db : Database) : Database * result (list string) :=
  import_loop clock 0 urls (if clear then clearHistory now "CLEARED_BY_IMPORT" db else db) [].

Section import.
Context `{Env}.

Definition scraped_ok (url : string) : Prop := ∃ sc, scrapeModelPageInContext url = inr sc.

Lemma import_loop_app (clock : nat → string) (urls1 urls2 : list string) :
  ∀ k db ids,
    import_loop clock k (urls1 ++ urls2) db ids
    = match import_loop clock k urls1 db ids with
      | (db1, inr ids1) => import_loop clock (k + length urls1) urls2 db1 ids1
      | (db1, inl message) => (db1, inl message)
      end.
Proof.
  induction urls1 as [|url urls1 IH]; intros k db ids; simpl.
  - by rewrite Nat.add_0_r.
  - destruct (scrapeModelPageInContext url) as [m|sc]; [done|].
    rewrite IH. by replace (S k + length urls1)%nat with (k + S (length urls1))%nat by lia.
Qed.

Lemma import_one_jobs (now : string) (sc : ScrapedModel.t) (db : Database) :
  crawl_jobs (import_one now sc db) = crawl_jobs db ∧
  label_jobs (import_one now sc db) = label_jobs db ∧
  model_labels (import_one now sc db) = model_labels db.
Proof. unfold import_one. by destruct (ScrapedModel.imageUrls sc). Qed.

Lemma import_one_models (now : string) (sc : ScrapedModel.t) (db : Database) (id : string) :
  is_Some (models (import_one now sc db) !! id) ↔
  id = ScrapedModel.id sc ∨ is_Some (models db !! id).
Proof.
  assert (models (import_one now sc db)
          = <[ScrapedModel.id sc :=
                ModelRow.mk (ScrapedModel.url sc) (ScrapedModel.title sc)
                  (ScrapedModel.authorName sc) (ScrapedModel.downloadCount sc)
                  (head (ScrapedModel.imageUrls sc)) (ScrapedModel.description sc)
                  match models db !! ScrapedModel.id sc with
                  | Some old => ModelRow.created_at old
                  | None => now
                  end now]> (models db)) as ->
    by (unfold import_one; by destruct (ScrapedModel.imageUrls sc)).
  destruct (decide (id = ScrapedModel.id sc)) as [->|Hne].
  - rewrite lookup_insert_eq. split; [by left|by eexists].
  - rewrite lookup_insert_ne by done. split; [by right|by intros [?|?]].
Qed.

(** When every scrape succeeds: the ids returned, in the order of the
    urls, and the store they leave. *)
Lemma import_loop_ok (clock : nat → string) (urls : list string) :
  ∀ k db ids,
    Forall scraped_ok urls →
    ∃ db' added,
      import_loop clock k urls db ids = (db', inr (ids ++ added)) ∧
      length added = length urls ∧
      crawl_jobs db' = crawl_jobs db ∧ label_jobs db' = label_jobs db ∧
      model_labels db' = model_labels db ∧
      (∀ id, is_Some (models db' !! id) ↔ id ∈ added ∨ is_Some (models db !! id)) ∧
      (∀ id, id ∈ added →
         ∃ url sc, url ∈ urls ∧ scrapeModelPageInContext url = inr sc ∧ ScrapedModel.id sc = id).
Proof.
  induction urls as [|url urls IH]; intros k db ids Hok; simpl.
  - exists db, []. rewrite app_nil_r. repeat split; try done.
    + intros ?. by right.
    + by intros [?%elem_of_nil|?].
    + by intros ? ?%elem_of_nil.
  - apply Forall_cons in Hok as [[sc Hsc] Hok]. rewrite Hsc.
    destruct (IH (S k) (import_one (clock k) sc db) (ids ++ [ScrapedModel.id sc]) Hok)
      as (db' & added & -> & Hlen & Hc & Hl & Hml & Hm & Hfrom).
    destruct (import_one_jobs (clock k) sc db) as (Hc1 & Hl1 & Hml1).
    exists db', (ScrapedModel.id sc :: added). rewrite <- app_assoc.
    split; [done|]. split; [simpl; lia|]. split; [congruence|]. split; [congruence|].
    split; [congruence|]. split.
    + intros id. rewrite Hm, import_one_models, elem_of_cons. tauto.
    + intros id [->|Hin]%elem_of_cons.
      * exists url, sc. split; [by left|done].
      * destruct (Hfrom id Hin) as (u & sc' & ? & ? & ?). exists u, sc'.
        split; [by right|done].
Qed.

(** The import stops at the first url whose scrape throws, with that
    error: the models of the urls before it stay imported, the urls
    after it are not visited, and a history cleared at the start stays
    cleared. When every scrape succeeds it returns one id per url; the
    job tables and the labels are as the clear-history block (or the
    store, without it) left them, and after a clear-history the stored
    models are exactly those returned. *)
Theorem import_models_outcome (now : string) (clock : nat → string) (clear : bool)
    (db : Database) (done_urls : list string) :
  Forall scraped_ok done_urls →
  ∃ db1 ids,
    import_models now clock done_urls clear db = (db1, inr ids) ∧
    length ids = length done_urls ∧
    (∀ id, id ∈ ids →
       ∃ url sc, url ∈ done_urls ∧ scrapeModelPageInContext url = inr sc ∧
                 ScrapedModel.id sc = id) ∧
    (clear = true →
       all_finished (crawl_jobs db1) ∧ all_finished (label_jobs db1) ∧
       model_labels db1 = ∅ ∧ ∀ id, is_Some (models db1 !! id) ↔ id ∈ ids) ∧
    (clear = false →
       crawl_jobs db1 = crawl_jobs db ∧ label_jobs db1 = label_jobs db ∧
       model_labels db1 = model_labels db) ∧
    ∀ url message rest,
      scrapeModelPageInContext url = inl message →
      import_models now clock (done_urls ++ url :: rest) clear db = (db1, inl message).
Proof.
  intros Hok. unfold import_models.
  set (db0 := if clear then clearHistory now "CLEARED_BY_IMPORT" db else db).
  destruct (import_loop_ok clock done_urls 0 db0 [] Hok)
    as (db1 & ids & Hrun & Hlen & Hc & Hl & Hml & Hm & Hfrom).
  exists db1, ids. simpl in Hrun.
  split; [done|]. split; [done|]. split; [done|]. split; [|split].
  - intros ->. unfold db0 in *. rewrite Hc, Hl, Hml.
    split; [apply update_unfinished_all_finished|].
    split; [apply update_unfinished_all_finished|]. split; [done|].
    intros id. rewrite Hm. simpl. rewrite lookup_empty. split; [|by left].
    intros [?|[? ?]]; done.
  - intros ->. unfold db0 in *. by rewrite Hc, Hl, Hml.
  - intros url message rest Hfail. rewrite import_loop_app, Hrun. simpl. by rewrite Hfail.
Qed.

End import.

Lemma import_models_outcome_witness :
  ∃ db1,
    import_models (H := env_with []) t0 (λ _, t0) [model_url "101"; model_url "102"] true
      (fresh_db "1")
    = (db1, inl "page.goto: Timeout 60000ms exceeded.") ∧
    is_Some (models db1 !! "101") ∧ all_finished (crawl_jobs db1).
Proof.
  destruct (import_models_outcome (H := env_with []) t0 (λ _, t0) true (fresh_db "1")
              [model_url "101"])
    as (db1 & ids & Hrun & _ & _ & Hclear & _ & Hfail).
  - apply Forall_cons. split; [|apply Forall_nil_2]. eexists. vm_compute. reflexivity.
  - exists db1. split.
    + apply (Hfail (model_url "102") _ []). vm_compute. reflexivity.
    + destruct (Hclear eq_refl) as (Hfin & _ & _ & Hm). split; [|exact Hfin].
      apply Hm. assert (ids = ["101"]) as ->; [|by left].
      unfold import_models in Hrun. vm_compute in Hrun. by injection Hrun as _ <-.
Defined.

(** ** Paging through the models (index.ts, lines 204-255; the label page, lines 75-78 and 194-207) *)

(** GET /api/models: [.limit(pageSize).offset((page - 1) * pageSize)] of
    the ordered listing, and the count. *)
Definition api_models {A} (listing : list A) (page pageSize : nat) : list A * nat :=
  (take pageSize (drop ((page - 1) * pageSize) listing), length listing).

(** [Math.ceil(total / pageSize)] for a page size of at least 1 (the
    page offers 20, 50, 100 and 200). *)
Definition ceil_div (total pageSize : nat) : nat := (total + (pageSize - 1)) / pageSize.

(** [Math.max(1, Math.ceil(data.total / pageSize))]. *)
Definition pageCount (total pageSize : nat) : nat :=
  Nat.max 1 (ceil_div total pageSize).

(** The two buttons of the page. *)
Definition previous_page (page : nat) : nat := Nat.max 1 (page - 1).
Definition next_page (total pageSize page : nat) : nat :=
  Nat.min (pageCount total pageSize) (page + 1).

Section paging.
Context {A : Type}.

Lemma pages_concat (pageSize : nat) (n : nat) :
  ∀ (listing : list A) (from : nat),
    (length listing ≤ from * pageSize + n * pageSize)%nat →
    concat (map (λ page, take pageSize (drop ((page - 1) * pageSize) listing))
                (seq (S from) n))
    = drop (from * pageSize) listing.
Proof.
  induction n as [|n IH]; intros listing from Hlen; simpl.
  - rewrite drop_ge; [done|lia].
  - rewrite Nat.sub_0_r, (IH listing (S from)) by (simpl; lia).
    replace (S from * pageSize)%nat with (from * pageSize + pageSize)%nat by (simpl; lia).
    by rewrite <- drop_drop, take_drop.
Qed.

Lemma div_up_covers (total pageSize : nat) :
  (1 ≤ pageSize)%nat → (total ≤ ceil_div total pageSize * pageSize)%nat.
Proof.
  intros Hp. unfold ceil_div.
  pose proof (Nat.div_mod (total + (pageSize - 1)) pageSize) as Hdm.
  pose proof (Nat.mod_upper_bound (total + (pageSize - 1)) pageSize) as Hmod. nia.
Qed.

(** Paging from the first page to the last with a page size of at
    least 1 shows every row of the listing once, in its order, and no
    page but the last is short; the two buttons never leave the pages
    1 to [pageCount]. *)
Theorem pages_cover_listing (listing : list A) (pageSize : nat) :
  (1 ≤ pageSize)%nat →
  let total := (api_models listing 1 pageSize).2 in
  concat (map (λ page, (api_models listing page pageSize).1)
              (seq 1 (pageCount total pageSize))) = listing ∧
  (∀ page, (1 ≤ page)%nat → (page * pageSize ≤ total)%nat →
           length (api_models listing page pageSize).1 = pageSize) ∧
  (∀ page, (pageCount total pageSize < page)%nat → (api_models listing page pageSize).1 = []) ∧
  (∀ page, (1 ≤ page ≤ pageCount total pageSize)%nat →
     (1 ≤ previous_page page ≤ pageCount total pageSize)%nat ∧
     (1 ≤ next_page total pageSize page ≤ pageCount total pageSize)%nat).
Proof.
  intros Hp. simpl.
  pose proof (div_up_covers (length listing) pageSize Hp) as Hcov.
  split; [|split; [|split]].
  - rewrite (pages_concat pageSize _ listing 0); [done|].
    unfold pageCount. simpl. nia.
  - intros page H1 Hfull. rewrite length_take, length_drop. nia.
  - intros page Hpage. unfold pageCount in Hpage. rewrite drop_ge; [by rewrite take_nil|]. nia.
  - intros page Hpage. unfold previous_page, next_page, pageCount in *. lia.
Qed.

End paging.

Lemma pages_cover_listing_witness :
  concat (map (λ page, (api_models ["a"; "b"; "c"; "d"; "e"] page 2).1)
              (seq 1 (pageCount 5 2))) = ["a"; "b"; "c"; "d"; "e"].
Proof. apply (pages_cover_listing ["a"; "b"; "c"; "d"; "e"] 2). lia. Defined.

(** ** Errors outside the per-item handlers *)

Section fatal_errors.
Context `{Env} (jobId : string).

(** When a browser call awaited by [runCrawlJob] itself rejects with a
    message other than JOB_CANCELLED, the next steps of [runCrawlJob]
    close the browser, write failed with that message and [finished_at]
    to the job record, leave the counters as they are, and return. *)
Theorem browser_error_fails_job (s s1 : State) (message : string) (r : JobRow.t) :
  step jobId (MainThrows message) s = Some s1 →
  message ≠ JOB_CANCELLED → job jobId s = Some r →
  ∃ es s2,
    run jobId es s1 = Some s2 ∧ Forall (λ e, e = Main) es ∧ main s2 = MDone ∧
    step jobId Main s2 = None ∧
    job jobId s2 = Some (set_failed (now s) message r) ∧
    queue s2 = queue s ∧ workers s2 = workers s.
Proof.
  intros Hs Hne Hj. apply String.eqb_neq in Hne.
  set (s3 := set_main (MMarkError message) s).
  set (s4 := set_main MDone (update_crawl_job jobId (set_failed (now s) message) s3)).
  assert (run jobId [Main] s3 = Some s4) as Hend by done.
  assert (job jobId s4 = Some (set_failed (now s) message r)) as Hj4.
  { unfold s4. change (job jobId (set_main MDone ?x)) with (job jobId x).
    rewrite job_update_crawl_job.
    change (job jobId s3) with (job jobId s). by rewrite Hj. }
  assert (run jobId [Main] (catch message s) = Some s4) as Hcatch
    by (unfold catch; by rewrite Hne).
  assert (run jobId [Main; Main] (set_main (MFinally (Throw message)) s) = Some s4) as Hfin.
  { cbn [run step]. unfold main_step at 1. cbn [main set_main]. exact Hcatch. }
  assert (∀ es s1', run jobId es s1' = Some s4 → Forall (λ e, e = Main) es →
            ∃ es s2,
              run jobId es s1' = Some s2 ∧ Forall (λ e, e = Main) es ∧ main s2 = MDone ∧
              step jobId Main s2 = None ∧
              job jobId s2 = Some (set_failed (now s) message r) ∧
              queue s2 = queue s ∧ workers s2 = workers s) as Hgoal.
  { intros es s1' Hr Hes. exists es, s4. split; [done|]. split; [done|]. split; [done|].
    split; [done|]. split; [exact Hj4|]. by split. }
  simpl in Hs. unfold main_throws in Hs.
  destruct (main s) eqn:Hm; simplify_eq;
    first [ by apply (Hgoal [Main]); [|repeat constructor]
          | by apply (Hgoal [Main; Main]); [|repeat constructor] ].
Qed.

End fatal_errors.

Lemma browser_error_fails_job_witness :
  ∃ s s1 es s2,
    run (H := env_with []) "crawl_1" [Main; Main; Main; Main] (start (fresh_db "1") t0) = Some s ∧
    step (H := env_with []) "crawl_1" (MainThrows "net::ERR_CONNECTION_REFUSED") s = Some s1 ∧
    run (H := env_with []) "crawl_1" es s1 = Some s2 ∧ main s2 = MDone ∧
    (JobRow.status <$> job "crawl_1" s2) = Some failed.
Proof.
  assert (∃ s s1 r,
            run (H := env_with []) "crawl_1" [Main; Main; Main; Main] (start (fresh_db "1") t0)
            = Some s ∧
            step (H := env_with []) "crawl_1" (MainThrows "net::ERR_CONNECTION_REFUSED") s
            = Some s1 ∧ job "crawl_1" s = Some r) as (s & s1 & r & Hr & Hs & Hj).
  { eexists _, _, _. split; [vm_compute; reflexivity|]. split; [reflexivity|].
    vm_compute. reflexivity. }
  destruct (browser_error_fails_job (H := env_with []) "crawl_1" s s1
              "net::ERR_CONNECTION_REFUSED" r Hs)
    as (es & s2 & Hr2 & _ & Hm & _ & Hj2 & _).
  - discriminate.
  - exact Hj.
  - exists s, s1, es, s2. split; [exact Hr|]. split; [exact Hs|]. split; [exact Hr2|].
    split; [exact Hm|]. rewrite Hj2. reflexivity.
Defined.

(** ** Crawl run: the discovery comes to an end *)

Section discovery_ends.
Context `{Env} (jobId : string).

(** [s'] is reached from [s] by steps of [runCrawlJob] alone. *)
Definition main_reaches (s s' : State) : Prop :=
  ∃ n, run jobId (replicate n Main) s = Some s'.

Lemma main_reaches_refl (s : State) : main_reaches s s.
Proof. by exists 0%nat. Qed.

Lemma main_reaches_step (s s1 s2 : State) :
  step jobId Main s = Some s1 → main_reaches s1 s2 → main_reaches s s2.
Proof. intros Hs [n Hr]. exists (S n). cbn [replicate run]. by rewrite Hs. Qed.

Lemma main_reaches_trans (s s1 s2 : State) :
  main_reaches s s1 → main_reaches s1 s2 → main_reaches s s2.
Proof.
  intros [n Hn] [m Hm]. exists (n + m)%nat.
  by rewrite replicate_add, (run_app _ _ _ _ _ Hn).
Qed.

(** What the steps of the discovery leave alone: the status of the job,
    the parsed config, the queue index and, while no worker waits in
    [getNext], the workers. *)
Definition kept (s s' : State) : Prop :=
  (is_running jobId s → is_running jobId s') ∧ config s' = config s ∧
  queueIndex s' = queueIndex s ∧
  (wake s = None → wake s' = None ∧ workers s' = workers s).

Lemma kept_refl (s : State) : kept s s.
Proof. by repeat split. Qed.

Lemma kept_trans (s1 s2 s3 : State) : kept s1 s2 → kept s2 s3 → kept s1 s3.
Proof.
  intros (Hr & Hc & Hi & Hw) (Hr' & Hc' & Hi' & Hw').
  split; [auto|]. split; [congruence|]. split; [congruence|].
  intros Hk. destruct (Hw Hk) as [Hk2 Hws]. destruct (Hw' Hk2) as [Hk3 Hws'].
  split; [done|congruence].
Qed.

(** The discovery is over: lines 373-380 have run. *)
Definition discovery_over (s : State) : Prop :=
  main s = MClosePage ∧ discoveryDone s = true ∧ listening s = false.

Lemma call_wake_None (s : State) : wake s = None → call_wake s = s.
Proof. unfold call_wake. by intros ->. Qed.

Lemma call_wake_job (s : State) : job jobId (call_wake s) = job jobId s.
Proof. unfold call_wake. by repeat case_match. Qed.

Lemma call_wake_kept (s : State) : kept s (call_wake s).
Proof.
  unfold kept, is_running. rewrite call_wake_job.
  split; [done|]. unfold call_wake.
  destruct (wake s) as [i|] eqn:Hk; [|done].
  destruct (workers s !! i) as [[]|]; by repeat split.
Qed.

Lemma call_wake_discoveryDone (s : State) : discoveryDone (call_wake s) = discoveryDone s.
Proof. unfold call_wake. by repeat case_match. Qed.

Lemma finish_discovery_over (s : State) :
  kept s (finish_discovery s) ∧ discovery_over (finish_discovery s).
Proof.
  unfold finish_discovery. split.
  - eapply kept_trans; [|eapply kept_trans].
    + by instantiate (1 := set_discoveryDone true s).
    + apply call_wake_kept.
    + by repeat split.
  - split; [done|]. split; [|done].
    change (discoveryDone (call_wake (set_discoveryDone true s)) = true).
    by rewrite call_wake_discoveryDone.
Qed.

(** Where the head of the loop, [after_new] and [after_enrich] lead. *)
Definition next_round (i : nat) (s s' : State) : Prop :=
  main s' = MLoopPoll (S i) ∧ num_lt (num_of_nat (S i)) (maxScrolls (cfg s)) = true.

Lemma loop_head_next (i : nat) (s : State) :
  kept s (loop_head (S i) s) ∧
  (discovery_over (loop_head (S i) s) ∨ next_round i s (loop_head (S i) s)).
Proof.
  unfold loop_head, next_round. destruct (num_lt _ _) eqn:Hlt.
  - split; [by repeat split|]. right. by split.
  - destruct (finish_discovery_over s) as [? ?]. split; [done|by left].
Qed.

Lemma after_new_next (i : nat) (s : State) :
  kept s (after_new i s) ∧
  (discovery_over (after_new i s) ∨ main (after_new i s) = MWheel i).
Proof.
  unfold after_new. destruct (num_ge _ _).
  - destruct (finish_discovery_over s) as [? ?]. split; [done|by left].
  - split; [by repeat split|by right].
Qed.

Lemma push_kept (items : list Discovered.t) (s : State) : kept s (push items s).
Proof.
  unfold push. destruct items as [|it items]; [apply kept_refl|].
  eapply kept_trans; [|apply call_wake_kept]. by repeat split.
Qed.

Lemma after_enrich_next (i : nat) (newItems : list Discovered.t) (s : State) :
  kept s (after_enrich i newItems s) ∧
  (discovery_over (after_enrich i newItems s) ∨
   main (after_enrich i newItems s) = MWheel i ∨
   main (after_enrich i newItems s) = MPersistNew i newItems).
Proof.
  unfold after_enrich. destruct newItems as [|it items].
  - destruct (after_new_next i s) as [? [?|?]]; auto.
  - split; [|by right; right].
    eapply kept_trans; [apply (push_kept (it :: items) s)|]. by repeat split.
Qed.

(** The [await]s of round [i] of the loop, and how many of them are
    still ahead of each, at most. *)
Definition round_of (pc : MainPc) : option (nat * nat) :=
  match pc with
  | MLoopPoll i => Some (i, 6)
  | MEvaluate i => Some (i, 5)
  | MPersistEnrich i _ _ => Some (i, 4)
  | MPersistNew i _ => Some (i, 3)
  | MCountNew i _ => Some (i, 2)
  | MWheel i => Some (i, 1)
  | MScrollWait i => Some (i, 0)
  | _ => None
  end%nat.

Lemma kept_db (s : State) (f : Database → Database) :
  crawl_jobs (f (db s)) = crawl_jobs (db s) → kept s (set_db f s).
Proof. intros Hf. unfold kept, is_running, job. cbn. rewrite Hf. by repeat split. Qed.

Lemma kept_add_discovered (s : State) (n : Z) :
  kept s (update_crawl_job jobId (add_discovered n) s).
Proof.
  unfold kept, is_running. rewrite job_update_crawl_job.
  split; [|by repeat split].
  intros (r & -> & Hst). by exists (add_discovered n r).
Qed.

Lemma discovery_progress (s : State) (i m : nat) :
  round_of (main s) = Some (i, m) → is_running jobId s →
  ∃ s', step jobId Main s = Some s' ∧ kept s s' ∧
        (discovery_over s' ∨ next_round i s s' ∨
         ∃ m', round_of (main s') = Some (i, m') ∧ (m' < m)%nat).
Proof.
  intros Hround (r & Hj & Hst). cbn [step]. unfold main_step.
  destruct (main s) as [| | | | | | | |j|j|j enrichItems newItems|j newItems|j n|j|j| | |
                        | | | |] eqn:Hpc; simpl in Hround; simplify_eq.
  - (* MLoopPoll *)
    rewrite Hj. unfold poll. rewrite Hst. eexists. split; [done|].
    split; [by repeat split|]. right; right. exists 5%nat. split; [done|lia].
  - (* MEvaluate *)
    destruct (split_domItems _ _ _ _ _) as [[ids newItems] enrichItems].
    destruct enrichItems as [|e0 enrichItems].
    + eexists. split; [done|].
      destruct (after_enrich_next i newItems (set_discoveredIds ids s)) as [Hk Hn].
      split; [eapply kept_trans; [|exact Hk]; by repeat split|].
      destruct Hn as [?|[Hm|Hm]]; [by left|right; right..].
      * exists 1%nat. rewrite Hm. split; [done|lia].
      * exists 3%nat. rewrite Hm. split; [done|lia].
    + eexists. split; [done|]. split; [by repeat split|].
      right; right. exists 4%nat. split; [done|lia].
  - (* MPersistEnrich *)
    eexists. split; [done|].
    destruct (after_enrich_next i newItems (set_db (persistDiscovered (now s) enrichItems) s))
      as [Hk Hn].
    split; [eapply kept_trans; [|exact Hk]; by apply kept_db|].
    destruct Hn as [?|[Hm|Hm]]; [by left|right; right..].
    + exists 1%nat. rewrite Hm. split; [done|lia].
    + exists 3%nat. rewrite Hm. split; [done|lia].
  - (* MPersistNew *)
    eexists. split; [done|]. split.
    { eapply kept_trans; [by apply (kept_db s (persistDiscovered (now s) newItems))|].
      by repeat split. }
    right; right. exists 2%nat. split; [done|lia].
  - (* MCountNew *)
    eexists. split; [done|].
    destruct (after_new_next i (update_crawl_job jobId (add_discovered (Z.of_nat n)) s))
      as [Hk Hn].
    split; [eapply kept_trans; [apply kept_add_discovered|exact Hk]|].
    destruct Hn as [?|Hm]; [by left|right; right].
    exists 1%nat. rewrite Hm. split; [done|lia].
  - (* MWheel *)
    eexists. split; [done|]. split; [by repeat split|].
    right; right. exists 0%nat. split; [done|lia].
  - (* MScrollWait *)
    eexists. split; [done|].
    destruct (loop_head_next i s) as [Hk Hn]. split; [done|].
    destruct Hn as [?|?]; [by left|by right; left].
Qed.

Lemma round_finishes_main (n : nat) :
  ∀ (s : State) (i m : nat),
    round_of (main s) = Some (i, m) → (m ≤ n)%nat → is_running jobId s →
    ∃ s', main_reaches s s' ∧ kept s s' ∧ (discovery_over s' ∨ next_round i s s').
Proof.
  induction n as [|n IH]; intros s i m Hround Hm Hrun;
    destruct (discovery_progress s i m Hround Hrun) as (s1 & Hs1 & Hk1 & Hout).
  - exists s1. split; [eapply main_reaches_step; [done|apply main_reaches_refl]|].
    split; [done|]. destruct Hout as [?|[?|(m' & _ & ?)]]; [by left|by right|lia].
  - destruct Hout as [?|[?|(m' & Hround' & Hlt)]].
    + exists s1. split; [eapply main_reaches_step; [done|apply main_reaches_refl]|].
      split; [done|by left].
    + exists s1. split; [eapply main_reaches_step; [done|apply main_reaches_refl]|].
      split; [done|by right].
    + destruct (IH s1 i m' Hround') as (s' & Hr & Hk & Hout'); [lia|by apply Hk1|].
      exists s'. split; [by eapply main_reaches_step|].
      split; [by eapply kept_trans|].
      destruct Hout' as [?|[? Hlt']]; [by left|right].
      split; [done|]. destruct Hk1 as (_ & Hc & _). unfold cfg in *. by rewrite <- Hc.
Qed.

(** How many rounds of the loop are ahead of round [i], at most. *)
Definition rounds_left (maxScrolls : jsnum) (i : nat) : nat :=
  match maxScrolls with
  | Fin q => Z.to_nat (Qceiling q - Z.of_nat (S i))
  | _ => 0
  end.

Lemma rounds_left_next (maxScrolls : jsnum) (i : nat) :
  maxScrolls ≠ PosInf → num_lt (num_of_nat (S i)) maxScrolls = true →
  (rounds_left maxScrolls (S i) < rounds_left maxScrolls i)%nat.
Proof.
  intros Hinf Hlt. destruct maxScrolls as [| | |q]; try done. simpl in *.
  apply negb_true_iff in Hlt.
  assert (inject_Z (Z.of_nat (S i)) < q)%Q as Hq.
  { destruct (Qlt_le_dec (inject_Z (Z.of_nat (S i))) q) as [?|Hle]; [done|].
    apply Qle_bool_iff in Hle. congruence. }
  assert (Z.of_nat (S i) < Qceiling q).
  { rewrite Zlt_Qlt. eapply Qlt_le_trans; [exact Hq|apply Qle_ceiling]. }
  lia.
Qed.

Lemma discovery_ends (k : nat) :
  ∀ (s : State) (i : nat),
    main s = MLoopPoll i → is_running jobId s → maxScrolls (cfg s) ≠ PosInf →
    (rounds_left (maxScrolls (cfg s)) i ≤ k)%nat →
    ∃ s', main_reaches s s' ∧ kept s s' ∧ discovery_over s'.
Proof.
  induction k as [|k IH]; intros s i Hm Hrun Hinf Hk;
    destruct (round_finishes_main 6 s i 6) as (s1 & Hr1 & Hk1 & Hout);
    try done; try (by rewrite Hm);
    (destruct Hout as [?|[Hm1 Hlt]]; [by exists s1|]);
    pose proof (rounds_left_next _ i Hinf Hlt) as Hdec; [lia|].
  assert (cfg s1 = cfg s) as Hcfg
    by (destruct Hk1 as (_ & Hc & _); unfold cfg; by rewrite Hc).
  destruct (IH s1 (S i) Hm1) as (s' & Hr & Hk' & Hover);
    [by apply Hk1|by rewrite Hcfg|rewrite Hcfg; lia|].
  exists s'. split; [by eapply main_reaches_trans|]. split; [by eapply kept_trans|done].
Qed.

(** The discovery loop terminates: from the check at the head of any of
    its rounds, while the job stays running and [maxScrolls] is not
    [Infinity], the steps of [runCrawlJob] alone bring it past the loop
    and the end-of-input signal to [await workerPromise]. They leave the
    status and the queue index alone, and the workers too when none
    waits in [getNext]. *)
Theorem discovery_terminates (s : State) (i : nat) :
  main s = MLoopPoll i → is_running jobId s → maxScrolls (cfg s) ≠ PosInf →
  ∃ s', main_reaches s s' ∧ main s' = MAwaitWorkers ∧
        discoveryDone s' = true ∧ listening s' = false ∧
        is_running jobId s' ∧ config s' = config s ∧ queueIndex s' = queueIndex s ∧
        (wake s = None → wake s' = None ∧ workers s' = workers s).
Proof.
  intros Hm Hrun Hinf.
  destruct (discovery_ends _ s i Hm Hrun Hinf (le_n _))
    as (s1 & Hr1 & (Hrun1 & Hc1 & Hi1 & Hw1) & Hm1 & Hd1 & Hl1).
  exists (set_main MAwaitWorkers s1). split.
  - eapply main_reaches_trans; [done|].
    eapply main_reaches_step; [|apply main_reaches_refl].
    cbn [step]. unfold main_step. by rewrite Hm1.
  - split; [done|]. split; [done|]. split; [done|]. split; [by apply Hrun1|].
    split; [done|]. split; [done|]. done.
Qed.

End discovery_ends.

Lemma discovery_terminates_witness :
  ∃ s s',
    run (H := env_with [card "101"; card "102"]) "crawl_1" (replicate 7 Main)
      (start (fresh_db "1") t0) = Some s ∧
    main s = MLoopPoll 0 ∧
    main_reaches (H := env_with [card "101"; card "102"]) "crawl_1" s s' ∧
    main s' = MAwaitWorkers ∧ discoveryDone s' = true.
Proof.
  assert (∃ s, run (H := env_with [card "101"; card "102"]) "crawl_1" (replicate 7 Main)
                 (start (fresh_db "1") t0) = Some s ∧ main s = MLoopPoll 0 ∧
               config s = run_config 1 ∧ is_running "crawl_1" s)
    as (s & Hr & Hm & Hc & Hrun).
  { eexists. split; [vm_compute; reflexivity|]. split; [reflexivity|]. split; [reflexivity|].
    eexists. split; vm_compute; reflexivity. }
  destruct (discovery_terminates (H := env_with [card "101"; card "102"]) "crawl_1" s 0 Hm Hrun)
    as (s' & Hr' & Hm' & Hd' & _).
  - unfold cfg. rewrite Hc. discriminate.
  - exists s, s'. split; [exact Hr|]. split; [exact Hm|]. split; [exact Hr'|].
    split; [exact Hm'|exact Hd'].
Defined.

(** ** Crawl run: one worker, from the call to the return *)

Section full_run.
Context `{Env} (jobId : string).

Lemma step_now (e : Event) (s s' : State) :
  step jobId e s = Some s' → (∀ t, e ≠ Tick t) → now s' = now s.
Proof.
  intros Hs Hne. destruct e as [|message|i|text|k|t| | |message|]; simpl in Hs.
  - unfold main_step, after_enrich, after_new, loop_head, finish_discovery, catch, push,
      call_wake, update_crawl_job in Hs.
    repeat case_match; simplify_eq; done.
  - unfold main_throws, catch in Hs. repeat case_match; simplify_eq; done.
  - unfold worker_step, after_item, update_crawl_job in Hs.
    repeat case_match; simplify_eq; done.
  - unfold on_response in Hs. repeat case_match; simplify_eq; done.
  - unfold handler_step, push, call_wake, update_crawl_job in Hs.
    repeat case_match; simplify_eq; done.
  - by destruct (Hne t).
  - by simplify_eq.
  - by simplify_eq.
  - by simplify_eq.
  - by simplify_eq.
Qed.

Lemma run_now (es : list Event) (s s' : State) :
  run jobId es s = Some s' → Forall (λ e, ∀ t, e ≠ Tick t) es → now s' = now s.
Proof.
  revert s. induction es as [|e es IH]; intros s Hr Hes; cbn [run] in Hr; [by simplify_eq|].
  destruct (step jobId e s) as [s1|] eqn:Hs; [|done].
  apply Forall_cons in Hes as [He Hes].
  rewrite (IH _ Hr Hes). by eapply step_now.
Qed.

Lemma tally_returned (ws : list WorkerPc) :
  forallb is_returned ws = true →
  tally owes_processed ws = 0 ∧ tally owes_failed ws = 0.
Proof.
  induction ws as [|pc ws IH]; simpl; [done|].
  intros [Hpc Hws]%andb_true_iff. destruct (IH Hws) as [-> ->]. by destruct pc.
Qed.

Lemma tally_split (l : list QueueItem.t) :
  (∀ d, d ∈ l → hard_blocked d = false) →
  tally scrapes l + tally fails l = Z.of_nat (length l).
Proof.
  induction l as [|d l IH]; intros Hl; simpl; [done|].
  assert (tally scrapes l + tally fails l = Z.of_nat (length l)) as IH'
    by (apply IH; intros x Hx; apply Hl; by right).
  assert (hard_blocked d = false) as Hd by (apply Hl; by left).
  unfold scrapes, fails, hard_blocked in *.
  destruct (scrapeModelPageInContext (QueueItem.url d)); [rewrite Hd; simpl|]; lia.
Qed.

Lemma over_to_await (s : State) :
  discovery_over s → main_reaches jobId s (set_main MAwaitWorkers s).
Proof.
  intros (Hm & _). eapply main_reaches_step; [|apply main_reaches_refl].
  cbn [step]. unfold main_step. by rewrite Hm.
Qed.

(** From the head of the first round of the loop to [await workerPromise]. *)
Lemma discovery_from_head (s : State) :
  is_running jobId s → maxScrolls (cfg s) ≠ PosInf →
  ∃ s', main_reaches jobId (loop_head 0 s) s' ∧ main s' = MAwaitWorkers ∧
        discoveryDone s' = true ∧ is_running jobId s' ∧
        queueIndex s' = queueIndex s ∧
        (wake s = None → wake s' = None ∧ workers s' = workers s).
Proof.
  intros Hrun Hinf. unfold loop_head. destruct (num_lt _ _) eqn:Hlt.
  - destruct (discovery_ends jobId _ (set_main (MLoopPoll 0) s) 0 eq_refl Hrun Hinf (le_n _))
      as (s1 & Hr1 & (Hrun1 & Hc1 & Hi1 & Hw1) & Hover).
    exists (set_main MAwaitWorkers s1).
    split; [eapply main_reaches_trans; [done|by apply over_to_await]|].
    destruct Hover as (_ & Hd & _).
    split; [done|]. split; [done|]. split; [by apply Hrun1|]. by split.
  - destruct (finish_discovery_over jobId s) as [(Hrun1 & Hc1 & Hi1 & Hw1) Hover].
    exists (set_main MAwaitWorkers (finish_discovery s)).
    split; [by apply over_to_await|].
    destruct Hover as (_ & Hd & _).
    split; [done|]. split; [done|]. split; [by apply Hrun1|]. by split.
Qed.

Lemma main_reaches_run (s s' : State) :
  main_reaches jobId s s' →
  ∃ es, run jobId es s = Some s' ∧ Forall (λ e, e = Main) es.
Proof. intros [n Hn]. exists (replicate n Main). split; [done|]. by apply Forall_replicate. Qed.

(** A crawl run with one worker comes to its end. When the job record
    exists, its config parses to something other than [null] and asks for
    one worker, the list page is not blocked, [maxScrolls] is not
    [Infinity] and no scrape meets the hard block, there is a schedule of
    steps of [runCrawlJob] and of the worker alone that takes the run
    from its call to its return: the record is completed with
    [finished_at] set, every queued item has been handed to the worker,
    and the two counters have grown by the length of the queue in all. *)
Theorem crawl_run_completes (d : Database) (t : string) (r0 : JobRow.t) (parsed : json) :
  crawl_jobs d !! jobId = Some r0 →
  JSON_parse (JobRow.config_json r0) = Some parsed → parsed ≠ JNull →
  spawned (concurrency (asCrawlJobConfig parsed)) = 1%nat →
  listSample_blocked = false →
  maxScrolls (asCrawlJobConfig parsed) ≠ PosInf →
  (∀ url, scrapeModelPageInContext url ≠ inl CLOUDFLARE_BLOCKED) →
  ∃ es s' r',
    run jobId es (start d t) = Some s' ∧ Forall (λ e, e = Main ∨ e = Worker 0) es ∧
    main s' = MDone ∧ step jobId Main s' = None ∧
    job jobId s' = Some r' ∧ JobRow.status r' = completed ∧
    JobRow.finished_at r' = Some (now s') ∧
    (length (queue s') ≤ queueIndex s')%nat ∧
    JobRow.processed_count r0 <= JobRow.processed_count r' ∧
    JobRow.failed_count r0 <= JobRow.failed_count r' ∧
    JobRow.processed_count r' + JobRow.failed_count r'
    = JobRow.processed_count r0 + JobRow.failed_count r0 + Z.of_nat (length (queue s')).
Proof.
  intros Hj Hparse Hnn Hone Hlist Hinf Hscrape.
  assert (∀ x, hard_blocked x = false) as Hnb.
  { intros x. unfold hard_blocked.
    destruct (scrapeModelPageInContext (QueueItem.url x)) as [m|] eqn:Hx; [|done].
    apply String.eqb_neq. intros ->. by apply (Hscrape (QueueItem.url x)). }
  (* lines 17-240 *)
  set (s1 := set_main MSetRunning (set_config parsed (start d t))).
  set (s2 := set_main MCreateContext (update_crawl_job jobId (set_running t) s1)).
  set (s3 := set_main MNewPage (set_workers [WPoll] s2)).
  set (s6 := set_main MSample (set_listening true s3)).
  assert (run jobId (replicate 7 Main) (start d t) = Some (loop_head 0 s6)) as Hhead.
  { assert (step jobId Main (start d t) = Some s1) as H1.
    { cbn [step]. unfold main_step, job. cbn [main start db]. by rewrite Hj, Hparse. }
    assert (step jobId Main s1 = Some s2) as H2.
    { cbn [step]. unfold main_step. cbn [main s1 set_main config set_config].
      by destruct parsed. }
    assert (step jobId Main s2 = Some s3) as H3.
    { cbn [step]. unfold main_step. cbn [main s2 set_main].
      assert (cfg s2 = asCrawlJobConfig parsed) as -> by done. by rewrite Hone. }
    assert (step jobId Main s3 = Some (set_main MGoto (set_listening true s3))) as H4 by done.
    assert (step jobId Main (set_main MGoto (set_listening true s3))
            = Some (set_main MSettle (set_listening true s3))) as H5 by done.
    assert (step jobId Main (set_main MSettle (set_listening true s3)) = Some s6) as H6 by done.
    assert (step jobId Main s6 = Some (loop_head 0 s6)) as H7.
    { cbn [step]. unfold main_step. cbn [main s6 set_main]. by rewrite Hlist. }
    cbn [replicate run]. by rewrite H1, H2, H3, H4, H5, H6, H7. }
  assert (is_running jobId s6) as Hrun6.
  { exists (set_running t r0). split; [|done].
    change (job jobId s6) with (job jobId (update_crawl_job jobId (set_running t) s1)).
    rewrite job_update_crawl_job. unfold job. cbn [s1 db set_main set_config start].
    by rewrite Hj. }
  (* the discovery *)
  destruct (discovery_from_head s6 Hrun6 Hinf)
    as (s9 & Hr9 & Hm9 & Hd9 & Hrun9 & Hi9 & Hw9).
  destruct (Hw9 eq_refl) as [Hk9 Hws9]. cbn in Hws9, Hi9.
  destruct (main_reaches_run _ _ Hr9) as (es9 & Hes9 & Hall9).
  (* the worker *)
  destruct (worker_drains jobId 0%nat _ s9 eq_refl)
    as (s10 & (esw & Hrw & Hallw) & Hw10 & Hi10 & Hrun10);
    [by rewrite Hws9|done|done|by intros x _|].
  destruct (worker_reaches_frame jobId 0%nat s9 s10) as (Hq10 & Hm10 & _ & _ & Hl10);
    [by exists esw|].
  assert (workers s10 = [WReturned]) as Hws10.
  { rewrite Hws9 in Hl10. destruct (workers s10) as [|pc [|? ?]]; simpl in *; try done.
    by simplify_eq. }
  (* lines 383-388 *)
  set (s11 := set_main MSetCompleted s10).
  assert (step jobId Main s10 = Some s11) as H11.
  { cbn [step]. unfold main_step. by rewrite Hm10, Hm9, Hws10. }
  set (es11 := replicate 7 Main ++ es9 ++ esw ++ [Main]).
  assert (run jobId es11 (start d t) = Some s11) as Hrun11.
  { unfold es11. rewrite (run_app _ _ _ _ _ Hhead), (run_app _ _ _ _ _ Hes9),
      (run_app _ _ _ _ _ Hrw). cbn [run]. by rewrite H11. }
  assert (Forall (λ e, e = Main ∨ e = Worker 0) es11) as Hall11.
  { unfold es11. repeat (apply Forall_app; split).
    - apply Forall_replicate. by left.
    - eapply Forall_impl; [exact Hall9|]. intros e ->. by left.
    - eapply Forall_impl; [exact Hallw|]. intros e ->. by right.
    - by repeat constructor. }
  assert (Forall benign es11) as Hben
    by (eapply Forall_impl; [exact Hall11|]; by intros e [-> | ->]).
  assert (now s11 = t) as Hnow.
  { rewrite (run_now _ _ _ Hrun11); [done|].
    eapply Forall_impl; [exact Hall11|]. by intros e [-> | ->] t'. }
  destruct (accounted_run jobId (JobRow.processed_count r0) (JobRow.failed_count r0)
              es11 _ s11 Hrun11 Hben (λ x _, Hnb x) (accounted_start jobId d t r0 Hj))
    as [Hidx (r11 & Hj11 & HP & HF) _ _ _ Hcomp].
  destruct (tally_returned _ (Hcomp eq_refl)) as [Hop Hof]. rewrite Hop in HP. rewrite Hof in HF.
  assert (taken s11 = queue s11) as Htaken.
  { unfold taken. apply take_ge. cbn [queue queueIndex s11 set_main]. rewrite Hq10. lia. }
  rewrite Htaken in HP, HF.
  pose proof (tally_split (queue s11) (λ x _, Hnb x)) as Hsplit.
  pose proof (tally_nonneg scrapes (queue s11)) as Hs0.
  pose proof (tally_nonneg fails (queue s11)) as Hf0.
  set (s12 := set_main (MFinally Return) (update_crawl_job jobId (set_completed t) s11)).
  exists (es11 ++ [Main; Main]), (set_main MDone s12), (set_completed t r11).
  split.
  { rewrite (run_app _ _ _ _ _ Hrun11). cbn [run step]. unfold main_step at 1.
    cbn [main s11 set_main]. rewrite Hnow. by fold s12. }
  split; [apply Forall_app; split; [done|by repeat constructor]|].
  split; [done|]. split; [done|].
  split.
  { change (job jobId (set_main MDone s12))
      with (job jobId (update_crawl_job jobId (set_completed t) s11)).
    by rewrite job_update_crawl_job, Hj11. }
  split; [done|].
  split; [by change (now (set_main MDone s12)) with (now s11); rewrite Hnow|].
  split; [cbn [queue queueIndex set_main s12 s11 update_crawl_job set_db]; rewrite Hq10; lia|].
  cbn [JobRow.processed_count JobRow.failed_count set_completed].
  change (queue (set_main MDone s12)) with (queue s11).
  lia.
Qed.

End full_run.

(** A Page Extractor that scrapes model 101 and times out on every other
    page: it never meets the challenge page. *)
Definition steady_scrape (url : string) : result ScrapedModel.t :=
  if String.eqb url (model_url "101") then inr (scraped "101")
  else inl "page.goto: Timeout 60000ms exceeded.".

Definition steady_env (cards : list Discovered.t) : Env :=
  example_env run_parse steady_scrape (λ i, match i with O => cards | _ => [] end).

(** The run of job crawl_1 over two cards with one worker. *)
Lemma crawl_run_completes_witness :
  ∃ es s' r',
    run (H := steady_env [card "101"; card "102"]) "crawl_1" es (start (fresh_db "1") t0)
    = Some s' ∧
    main s' = MDone ∧ job "crawl_1" s' = Some r' ∧ JobRow.status r' = completed ∧
    JobRow.processed_count r' + JobRow.failed_count r' = Z.of_nat (length (queue s')).
Proof.
  destruct (crawl_run_completes (H := steady_env [card "101"; card "102"]) "crawl_1"
              (fresh_db "1") t0 (new_job "2024-05-01T10:00:00.000Z" (run_config_text "1"))
              (run_config 1))
    as (es & s' & r' & Hr & _ & Hm & _ & Hj & Hst & _ & _ & _ & _ & Hsum).
  - reflexivity.
  - vm_compute. reflexivity.
  - discriminate.
  - vm_compute. reflexivity.
  - reflexivity.
  - vm_compute. discriminate.
  - intros url. unfold scrapeModelPageInContext, steady_env, example_env, steady_scrape.
    destruct (String.eqb url (model_url "101")); discriminate.
  - exists es, s', r'. split; [exact Hr|]. split; [exact Hm|]. split; [exact Hj|].
    split; [exact Hst|]. exact Hsum.
Defined.
